(** * chuk-mcp-geocoder: the caching, retrying Nominatim client and the
      geocoder orchestrator, embedded and verified.

    The development follows the two source modules
    [core/nominatim.py] and [core/geocoder.py] together with
    [constants.py].  What the Python code takes from outside the
    repository is kept abstract:

    - binary64 arithmetic, [round], [float()], [repr] and the [math]
      module are the operations of the class [FloatOps];
    - [hashlib.md5(..).hexdigest()] is the operation of the class
      [HashOps];
    - the remote service, the clocks and [asyncio.sleep] form the record
      [World].

    Every function of the repository is written out over these
    operations.  The module [Rat] at the end of the definitions gives the
    classes an executable instance over the rationals with which the
    model is run on concrete inputs. *)

From Stdlib Require Import List String Ascii Bool Arith ZArith NArith QArith Lia.
From Stdlib Require Import Permutation Sorted DecimalString Qabs Qround Lqa.
From Stdlib Require OrderedTypeEx.
Import ListNotations.

Set Implicit Arguments.
Local Open Scope string_scope.
Local Open Scope list_scope.
Local Open Scope nat_scope.

(* ================================================================= *)
(** ** Python strings *)

(** A Python [str] is modelled as a sequence of code points below 256,
    one [ascii] per code point. *)
Definition str := string.

Fixpoint str_chars (s : str) : list ascii :=
  match s with
  | EmptyString => []
  | String c s' => c :: str_chars s'
  end.

(** [str.isspace] on one code point: TAB..CR, FS..US, SPACE, NEL, NBSP. *)
Definition isspace (c : ascii) : bool :=
  let n := N_of_ascii c in
  ((9 <=? n) && (n <=? 13) || (28 <=? n) && (n <=? 32)
   || (n =? 133) || (n =? 160))%N.

(** [str.lower] on one code point: A..Z and the Latin-1 capitals. *)
Definition lower_char (c : ascii) : ascii :=
  let n := N_of_ascii c in
  if ((65 <=? n) && (n <=? 90)
      || (192 <=? n) && (n <=? 222) && negb (n =? 215))%N
  then ascii_of_N (n + 32) else c.

Fixpoint py_lower (s : str) : str :=
  match s with
  | EmptyString => EmptyString
  | String c s' => String (lower_char c) (py_lower s')
  end.

(** [s.split()]: the maximal runs of non-whitespace, in order. *)
Fixpoint py_split (s : str) : list str :=
  match s with
  | EmptyString => []
  | String c s' =>
      if isspace c then py_split s'
      else match s' with
           | EmptyString => [String c EmptyString]
           | String c' _ =>
               if isspace c' then String c EmptyString :: py_split s'
               else match py_split s' with
                    | w :: ws => String c w :: ws
                    | [] => [String c EmptyString]
                    end
           end
  end.

(** [sep.join(parts)]. *)
Fixpoint py_join (sep : str) (parts : list str) : str :=
  match parts with
  | [] => EmptyString
  | [w] => w
  | w :: rest => (w ++ sep ++ py_join sep rest)%string
  end.

Fixpoint py_lstrip (s : str) : str :=
  match s with
  | EmptyString => EmptyString
  | String c s' => if isspace c then py_lstrip s' else s
  end.

Fixpoint py_rstrip (s : str) : str :=
  match s with
  | EmptyString => EmptyString
  | String c s' =>
      match py_rstrip s' with
      | EmptyString => if isspace c then EmptyString else String c EmptyString
      | r => String c r
      end
  end.

(** [s.strip()]. *)
Definition py_strip (s : str) : str := py_rstrip (py_lstrip s).

(** Truth value of a string: non-empty. *)
Definition str_truthy (s : str) : bool :=
  match s with EmptyString => false | _ => true end.

(** [s[:n]]. *)
Fixpoint str_take (n : nat) (s : str) : str :=
  match n, s with
  | S n', String c s' => String c (str_take n' s')
  | _, _ => EmptyString
  end.

Definition mem_str (x : str) (l : list str) : bool :=
  existsb (String.eqb x) l.

(* ================================================================= *)
(** ** Floats and the [math] module *)

(** The operations the repository uses on Python floats.  [flit q] is
    the float denoted by the literal (or integer) [q]. *)
Class FloatOps (F : Type) := {
  flit : Q -> F;
  fadd : F -> F -> F;
  fsub : F -> F -> F;
  fmul : F -> F -> F;
  fdiv : F -> F -> F;
  fpow : F -> Z -> F;
  fabs : F -> F;
  fltb : F -> F -> bool;
  fleb : F -> F -> bool;
  feqb : F -> F -> bool;
  finf : F;
  py_round : F -> nat -> F;
  float_of_str : str -> option F;
  float_repr : F -> str;
  math_radians : F -> F;
  math_sin : F -> F;
  math_cos : F -> F;
  math_sqrt : F -> F;
  math_atan2 : F -> F -> F
}.

(** [hashlib.md5(raw.encode()).hexdigest()]. *)
Class HashOps := {
  md5_hexdigest : str -> str
}.

Section FloatDerived.
Context {F : Type} `{FloatOps F}.

(** Truth value of a float: different from zero. *)
Definition float_truthy (x : F) : bool := negb (feqb x (flit 0)).

(** [lo <= x <= hi]. *)
Definition chained_le (lo x hi : F) : bool := fleb lo x && fleb x hi.

(** [a > b]. *)
Definition fgtb (a b : F) : bool := fltb b a.

(** [min(xs)] and [max(xs)] over a non-empty sequence: the first
    extremal element, found with [<] and [>]. *)
Definition py_min (x : F) (xs : list F) : F :=
  fold_left (fun m y => if fltb y m then y else m) xs x.

Definition py_max (x : F) (xs : list F) : F :=
  fold_left (fun m y => if fgtb y m then y else m) xs x.
End FloatDerived.

(* ================================================================= *)
(** ** Exceptions and the state-and-exception monad *)

Inductive ExcClass :=
| ValueError | RuntimeError | ConnectionError
| KeyError | IndexError | JSONDecodeError | UnboundLocalError.

(** [str(e)] of the exceptions the code can raise, kept structured: the
    [ErrorMessages] templates of [constants.py] with their arguments,
    and the texts of the built-in exceptions. *)
Inductive Message (F : Type) :=
| NO_RESULTS (query : str)
| INVALID_LAT (lat : F)
| INVALID_LON (lon : F)
| RATE_LIMITED
| API_ERROR (status_code : Z) (excerpt : str)
| NETWORK_ERROR (e : str)
| EMPTY_QUERY
| BATCH_EMPTY
| BATCH_TOO_LARGE (n max : nat)
| WAYPOINTS_MIN
| MissingKey (key : str)
| NotAFloat (s : str)
| UnpackMismatch (expected got : nat)
| PopFromEmpty
| IndexOutOfRange
| InvalidJSON
| Unbound (name : str).

Arguments NO_RESULTS {F}.
Arguments RATE_LIMITED {F}.
Arguments API_ERROR {F}.
Arguments NETWORK_ERROR {F}.
Arguments EMPTY_QUERY {F}.
Arguments BATCH_EMPTY {F}.
Arguments BATCH_TOO_LARGE {F}.
Arguments WAYPOINTS_MIN {F}.
Arguments MissingKey {F}.
Arguments NotAFloat {F}.
Arguments UnpackMismatch {F}.
Arguments PopFromEmpty {F}.
Arguments IndexOutOfRange {F}.
Arguments InvalidJSON {F}.
Arguments Unbound {F}.

Record Exc (F : Type) := mkExc { exc_class : ExcClass; exc_msg : Message F }.

Inductive result (E A : Type) :=
| Ok (a : A)
| Raise (e : E).

Arguments Ok {E A}.
Arguments Raise {E A}.

(** A computation over a mutable state [S] that returns or raises; the
    state reached so far survives a raise, as in Python. *)
Definition M (E S A : Type) := S -> result E A * S.

Definition ret {E S A} (a : A) : M E S A := fun s => (Ok a, s).

Definition raise {E S A} (e : E) : M E S A := fun s => (Raise e, s).

Definition bind {E S A B} (m : M E S A) (k : A -> M E S B) : M E S B :=
  fun s => match m s with
           | (Ok a, s') => k a s'
           | (Raise e, s') => (Raise e, s')
           end.

(** [try: m  except Exception as e: handler e]. *)
Definition try_except {E S A} (m : M E S A) (handler : E -> M E S A) : M E S A :=
  fun s => match m s with
           | (Ok a, s') => (Ok a, s')
           | (Raise e, s') => handler e s'
           end.

Definition gets {E S A} (f : S -> A) : M E S A := fun s => (Ok (f s), s).
Definition modify {E S} (f : S -> S) : M E S unit := fun s => (Ok tt, f s).

(** Lift a pure result into the monad. *)
Definition lift_result {E S A} (r : result E A) : M E S A := fun s => (r, s).

(** Run a computation on the first or on the second component of a pair
    of states. *)
Definition on_fst {E S T A} (m : M E S A) : M E (S * T) A :=
  fun st => let '(r, s') := m (fst st) in (r, (s', snd st)).

Definition on_snd {E S T A} (m : M E T A) : M E (S * T) A :=
  fun st => let '(r, t') := m (snd st) in (r, (fst st, t')).

Declare Scope monad_scope.
Delimit Scope monad_scope with monad.
Notation "x <- m ;; k" := (bind m (fun x => k))
  (at level 61, m at next level, right associativity) : monad_scope.
Notation "m ;; k" := (bind m (fun _ => k))
  (at level 61, right associativity) : monad_scope.

(** [for x in xs: body x]. *)
Fixpoint for_each {E S A} (xs : list A) (body : A -> M E S unit) : M E S unit :=
  match xs with
  | [] => ret tt
  | x :: rest => bind (body x) (fun _ => for_each rest body)
  end.

(** [[f x for x in xs]] for an effectful [f]. *)
Fixpoint map_m {E S A B} (f : A -> M E S B) (xs : list A) : M E S (list B) :=
  match xs with
  | [] => ret []
  | x :: rest =>
      bind (f x) (fun y => bind (map_m f rest) (fun ys => ret (y :: ys)))
  end.

(** The same comprehension for a function that can only raise. *)
Fixpoint map_result {E A B} (f : A -> result E B) (xs : list A) : result E (list B) :=
  match xs with
  | [] => Ok []
  | x :: rest =>
      match f x with
      | Raise e => Raise e
      | Ok y => match map_result f rest with
                | Raise e => Raise e
                | Ok ys => Ok (y :: ys)
                end
      end
  end.

(* ================================================================= *)
(** ** [collections.OrderedDict] with string keys *)

(** Entries in insertion order, oldest first; keys occur once. *)
Section OrderedDict.
Variable V : Type.

Definition OrderedDict := list (str * V).

Definition od_keys (d : OrderedDict) : list str := map fst d.

(** [key in d]. *)
Definition od_contains (key : str) (d : OrderedDict) : bool :=
  mem_str key (od_keys d).

(** [d[key]], [None] standing for [KeyError]. *)
Fixpoint od_get (key : str) (d : OrderedDict) : option V :=
  match d with
  | [] => None
  | (k, v) :: rest => if String.eqb key k then Some v else od_get key rest
  end.

(** [del d[key]]. *)
Definition od_del (key : str) (d : OrderedDict) : OrderedDict :=
  filter (fun kv => negb (String.eqb key (fst kv))) d.

(** [d.move_to_end(key)]. *)
Definition od_move_to_end (key : str) (d : OrderedDict) : OrderedDict :=
  match od_get key d with
  | Some v => od_del key d ++ [(key, v)]
  | None => d
  end.

(** [d[key] = v]: an existing key keeps its position. *)
Fixpoint od_set (key : str) (v : V) (d : OrderedDict) : OrderedDict :=
  match d with
  | [] => [(key, v)]
  | (k, v') :: rest =>
      if String.eqb key k then (k, v) :: rest else (k, v') :: od_set key v rest
  end.

(** [d.popitem(last=False)]. *)
Definition od_popitem_first (d : OrderedDict) : option ((str * V) * OrderedDict) :=
  match d with
  | [] => None
  | kv :: rest => Some (kv, rest)
  end.
End OrderedDict.

(* ================================================================= *)
(** ** [constants.py] *)

Module NominatimConfig.
Definition BASE_URL : str := "https://nominatim.openstreetmap.org".
Definition USER_AGENT : str := "chuk-mcp-geocoder/0.1.0".
Definition RATE_LIMIT_SECONDS : Q := 1.
Definition DEFAULT_FORMAT : str := "jsonv2".
Definition DEFAULT_LIMIT : Z := 5.
Definition MAX_LIMIT : Z := 50.
Definition CACHE_TTL_SECONDS : Q := 3600.
Definition CACHE_MAX_SIZE : nat := 1000.
Definition DEFAULT_ZOOM : Z := 18.
Definition TIMEOUT_SECONDS : Q := 30.
Definition MAX_RETRIES : nat := 3.
Definition RETRY_BASE_DELAY : Q := 2.
Definition RETRYABLE_STATUS_CODES : list Z := [429; 503]%Z.
End NominatimConfig.

Module ZoomLevel.
Definition COUNTRY : Z := 3.
Definition STATE : Z := 5.
Definition COUNTY : Z := 8.
Definition CITY : Z := 10.
Definition SUBURB : Z := 14.
Definition STREET : Z := 16.
Definition BUILDING : Z := 18.
End ZoomLevel.

(** Place rank to bbox buffer (degrees), in the order of the dict. *)
Definition PLACE_RANK_BUFFERS : list ((Z * Z) * Q) :=
  [ ((0, 4)%Z, 10);
    ((5, 8)%Z, 2);
    ((9, 12)%Z, 1 # 2);
    ((13, 16)%Z, 1 # 10);
    ((17, 20)%Z, 1 # 100);
    ((21, 26)%Z, 5 # 1000);
    ((27, 30)%Z, 1 # 1000) ]%Q.

Definition DEFAULT_BBOX_BUFFER : Q := 1 # 100.

Definition BATCH_MAX_QUERIES : nat := 50.

Definition ADMIN_LEVEL_KEYS : list (str * str) :=
  [ ("country", "country"); ("state", "state"); ("county", "county");
    ("city", "city"); ("town", "town"); ("village", "village");
    ("suburb", "suburb"); ("neighbourhood", "neighbourhood") ].

(* ================================================================= *)
(** ** Service payloads *)

Section Payload.
Variable F : Type.

(** One place object of a Nominatim response.  A field is [None] when
    the key is absent; numerals the service sends as strings stay
    strings until the code applies [float()]. *)
Record RawPlace := mkRawPlace {
  raw_lat : option str;
  raw_lon : option str;
  raw_display_name : option str;
  raw_boundingbox : option (list str);
  raw_osm_type : option str;
  raw_osm_id : option Z;
  raw_importance : option F;
  raw_place_rank : option Z;
  raw_address : option (list (str * str));
  raw_category : option str;
  raw_type : option str
}.

(** A decoded JSON body: [dict | list]. *)
Inductive Body :=
| BodyList (places : list RawPlace)
| BodyDict (place : RawPlace).

(** [CacheEntry]: a cached API response with timestamp. *)
Record CacheEntry := mkCacheEntry {
  data : Body;
  timestamp : F
}.
End Payload.

Arguments mkRawPlace {F}.
Arguments BodyList {F}.
Arguments BodyDict {F}.
Arguments mkCacheEntry {F}.

(* ================================================================= *)
(** ** [NominatimClient]: the response cache *)

Section Cache.
Context {F : Type} `{FloatOps F}.

Definition Cache := OrderedDict (CacheEntry F).

(** [_cache_get]; [now] is the value [time.time()] returns. *)
Definition _cache_get (key : str) (now : F) (cache : Cache)
  : option (Body F) * Cache :=
  if negb (od_contains key cache) then (None, cache)
  else match od_get key cache with
       | None => (None, cache)
       | Some entry =>
           if fgtb (fsub now (timestamp entry))
                   (flit NominatimConfig.CACHE_TTL_SECONDS)
           then (None, od_del key cache)
           else (Some (data entry), od_move_to_end key cache)
       end.

(** [_cache_put]; [now] is the value [time.time()] returns. *)
Definition _cache_put (key : str) (payload : Body F) (now : F) (cache : Cache)
  : result (Exc F) Cache :=
  if od_contains key cache then
    Ok (od_set key (mkCacheEntry payload now) (od_move_to_end key cache))
  else if NominatimConfig.CACHE_MAX_SIZE <=? List.length cache then
    match od_popitem_first cache with
    | None => Raise (mkExc KeyError PopFromEmpty)
    | Some (_, cache') => Ok (od_set key (mkCacheEntry payload now) cache')
    end
  else Ok (od_set key (mkCacheEntry payload now) cache).

(** A sequence of cache operations, each with the clock reading it
    sees. *)
Inductive CacheOp :=
| OpGet (key : str) (now : F)
| OpPut (key : str) (payload : Body F) (now : F).

Definition apply_op (op : CacheOp) (cache : Cache) : result (Exc F) Cache :=
  match op with
  | OpGet key now => Ok (snd (_cache_get key now cache))
  | OpPut key payload now => _cache_put key payload now cache
  end.

Fixpoint run_ops (ops : list CacheOp) (cache : Cache) : result (Exc F) Cache :=
  match ops with
  | [] => Ok cache
  | op :: rest =>
      match apply_op op cache with
      | Ok cache' => run_ops rest cache'
      | Raise e => Raise e
      end
  end.

(** The key an operation uses, when it uses one: a put always, a get
    when it returns a payload. *)
Definition used_key (op : CacheOp) (cache : Cache) : option str :=
  match op with
  | OpGet key now =>
      match fst (_cache_get key now cache) with
      | Some _ => Some key
      | None => None
      end
  | OpPut key _ _ => Some key
  end.

(** Ghost bookkeeping for recency: [last_used ops cache n stamp key]
    is the number of the last operation that used [key], where the
    operations [ops] start on [cache] and are numbered from [n], and
    [stamp] numbers the uses before them. *)
Definition stamp_op (op : CacheOp) (cache : Cache) (n : nat)
           (stamp : str -> nat) : str -> nat :=
  match used_key op cache with
  | Some k => fun key => if String.eqb key k then n else stamp key
  | None => stamp
  end.

Fixpoint last_used (ops : list CacheOp) (cache : Cache) (n : nat)
         (stamp : str -> nat) : str -> nat :=
  match ops with
  | [] => stamp
  | op :: rest =>
      match apply_op op cache with
      | Ok cache' => last_used rest cache' (S n) (stamp_op op cache n stamp)
      | Raise _ => stamp
      end
  end.

(** Entries in strictly increasing order of their last use. *)
Definition recency_sorted (stamp : str -> nat) (cache : Cache) : Prop :=
  StronglySorted (fun a b => stamp (fst a) < stamp (fst b)) cache.
End Cache.

Arguments Cache : clear implicits.
Arguments CacheOp : clear implicits.

(* ================================================================= *)
(** ** [NominatimClient]: cache keys *)

(** A request parameter: [str | int | float]. *)
Inductive ParamValue (F : Type) :=
| PStr (s : str)
| PInt (z : Z)
| PFloat (x : F).

Arguments PStr {F}.
Arguments PInt {F}.
Arguments PFloat {F}.

(** A parameter dict, in insertion order; keys occur once. *)
Definition Params (F : Type) := list (str * ParamValue F).

(** [params.setdefault(key, v)]. *)
Definition setdefault {F} (key : str) (v : ParamValue F) (params : Params F) : Params F :=
  if mem_str key (map fst params) then params else params ++ [(key, v)].

(** [params[key] = v]. *)
Definition params_set {F} (key : str) (v : ParamValue F) (params : Params F) : Params F :=
  od_set key v params.

(** [str(z)] for an integer. *)
Definition int_repr (z : Z) : str := NilZero.string_of_int (Z.to_int z).

Definition hex_digit (n : N) : ascii :=
  if (n <? 10)%N then ascii_of_N (48 + n) else ascii_of_N (87 + n).

Definition dquote : ascii := "034"%char.
Definition backslash : ascii := "092"%char.

(** One code point in a JSON string under [ensure_ascii=True]. *)
Definition json_escape_char (c : ascii) : str :=
  let n := N_of_ascii c in
  if (n =? 34)%N then String backslash (String dquote EmptyString)
  else if (n =? 92)%N then String backslash (String backslash EmptyString)
  else if (n =? 10)%N then String backslash "n"
  else if (n =? 13)%N then String backslash "r"
  else if (n =? 9)%N then String backslash "t"
  else if (n =? 8)%N then String backslash "b"
  else if (n =? 12)%N then String backslash "f"
  else if ((32 <=? n) && (n <=? 126))%N then String c EmptyString
  else String backslash (String "u" (String "0" (String "0"
         (String (hex_digit (n / 16)) (String (hex_digit (n mod 16)) EmptyString))))).

Fixpoint json_escape (s : str) : str :=
  match s with
  | EmptyString => EmptyString
  | String c s' => (json_escape_char c ++ json_escape s')%string
  end.

Definition json_string (s : str) : str :=
  (String dquote (json_escape s) ++ String dquote EmptyString)%string.

(** Insertion of an item into a list of items sorted by key. *)
Fixpoint insert_item {V} (kv : str * V) (l : list (str * V)) : list (str * V) :=
  match l with
  | [] => [kv]
  | kv' :: rest =>
      if String.ltb (fst kv) (fst kv') then kv :: kv' :: rest
      else kv' :: insert_item kv rest
  end.

(** [sorted(d.items())]. *)
Definition sorted_items {V} (d : list (str * V)) : list (str * V) :=
  fold_left (fun acc kv => insert_item kv acc) d [].

Section CacheKey.
Context {F : Type} `{FloatOps F} `{HashOps}.

Definition json_value (v : ParamValue F) : str :=
  match v with
  | PStr s => json_string s
  | PInt z => int_repr z
  | PFloat x => float_repr x
  end.

Definition json_item (kv : str * ParamValue F) : str :=
  (json_string (fst kv) ++ ": " ++ json_value (snd kv))%string.

(** [json.dumps(d, sort_keys=True)] for a flat dict. *)
Definition json_dumps_sorted (d : Params F) : str :=
  ("{" ++ py_join ", " (map json_item (sorted_items d)) ++ "}")%string.

(** The per-value step of the loop in [_cache_key]. *)
Definition normalize_value (v : ParamValue F) : ParamValue F :=
  match v with
  | PStr s => PStr (py_join " " (py_split (py_lower s)))
  | _ => v
  end.

Definition normalize_params (params : Params F) : Params F :=
  fold_left (fun normalized kv => od_set (fst kv) (normalize_value (snd kv)) normalized)
            params [].

(** The string that is hashed. *)
Definition cache_key_raw (endpoint : str) (params : Params F) : str :=
  (endpoint ++ ":" ++ json_dumps_sorted (normalize_params params))%string.

Definition _cache_key (endpoint : str) (params : Params F) : str :=
  md5_hexdigest (cache_key_raw endpoint params).
End CacheKey.

(* ================================================================= *)
(** ** The world outside the process *)

Section World.
Variable F : Type.

(** An [httpx.Response]: status, text, and what [response.json()]
    decodes, [None] when the text is not JSON. *)
Record Response := mkResponse {
  status_code : Z;
  text : str;
  json : option (Body F)
}.

(** What [client.get] does: answer, or fail in transport. *)
Inductive Outcome :=
| Answer (response : Response)
| ConnectError (e : str)
| TimeoutException (e : str).

Inductive SleepSite := RateLimitWait | RetryBackoff.

Inductive Event :=
| EvSleep (site : SleepSite) (seconds : F)
| EvGet (url : str) (params : Params F).

(** The clocks, the service and the log of what the process did to
    the world, oldest event first.  The service decides its answer
    from the number of requests it has seen and from the request. *)
Record World := mkWorld {
  time_time : F;
  time_monotonic : F;
  server : nat -> str -> Params F -> Outcome;
  events : list Event
}.

Definition is_get (ev : Event) : bool :=
  match ev with EvGet _ _ => true | EvSleep _ _ => false end.

(** Number of HTTP requests sent so far. *)
Definition http_calls (w : World) : nat :=
  List.length (filter is_get (events w)).

(** The delays slept between retry attempts so far. *)
Definition backoff_delays (w : World) : list F :=
  flat_map (fun ev => match ev with
                      | EvSleep RetryBackoff d => [d]
                      | _ => []
                      end) (events w).

(** [NominatimClient] instance state. *)
Record NominatimClient := mkNominatimClient {
  _base_url : str;
  _user_agent : str;
  _email : str;
  _last_request_time : F;
  _cache : Cache F;
  _client : bool
}.

(** The client together with the world it talks to. *)
Record System := mkSystem {
  self : NominatimClient;
  world : World
}.
End World.

Arguments mkResponse {F}.
Arguments Answer {F}.
Arguments ConnectError {F}.
Arguments TimeoutException {F}.
Arguments EvSleep {F}.
Arguments EvGet {F}.
Arguments mkWorld {F}.
Arguments mkNominatimClient {F}.
Arguments mkSystem {F}.

(* ================================================================= *)
(** ** [NominatimClient]: requests *)

Section Client.
Context {F : Type} `{FloatOps F} `{HashOps}.

Local Open Scope monad_scope.

Definition IO (A : Type) := M (Exc F) (System F) A.

(** [NominatimClient(base_url, user_agent, email)]. *)
Definition NominatimClient_init (base_url user_agent email : str) : NominatimClient F :=
  mkNominatimClient base_url user_agent email (flit 0) [] false.

Definition set_cache (c : Cache F) (s : System F) : System F :=
  mkSystem (mkNominatimClient (_base_url (self s)) (_user_agent (self s))
              (_email (self s)) (_last_request_time (self s)) c (_client (self s)))
           (world s).

Definition set_last_request_time (t : F) (s : System F) : System F :=
  mkSystem (mkNominatimClient (_base_url (self s)) (_user_agent (self s))
              (_email (self s)) t (_cache (self s)) (_client (self s)))
           (world s).

Definition set_client (b : bool) (s : System F) : System F :=
  mkSystem (mkNominatimClient (_base_url (self s)) (_user_agent (self s))
              (_email (self s)) (_last_request_time (self s)) (_cache (self s)) b)
           (world s).

(** [await asyncio.sleep(seconds)]: both clocks advance. *)
Definition asyncio_sleep (site : SleepSite) (seconds : F) : IO unit :=
  modify (fun s =>
    let w := world s in
    mkSystem (self s)
      (mkWorld (fadd (time_time w) seconds) (fadd (time_monotonic w) seconds)
               (server w) (events w ++ [EvSleep site seconds]))).

(** [await client.get(url, params=params)]. *)
Definition client_get (url : str) (params : Params F) : IO (Outcome F) :=
  fun s =>
    let w := world s in
    (Ok (server w (http_calls w) url params),
     mkSystem (self s)
       (mkWorld (time_time w) (time_monotonic w) (server w)
                (events w ++ [EvGet url params]))).

(** [_get_client]: the httpx client is created on first use. *)
Definition _get_client : IO unit :=
  opened <- gets (fun s => _client (self s)) ;;
  if opened then ret tt else modify (set_client true).

(** [_rate_limit]: enforce the minimum delay between requests. *)
Definition _rate_limit : IO unit :=
  now <- gets (fun s => time_monotonic (world s)) ;;
  last <- gets (fun s => _last_request_time (self s)) ;;
  let elapsed := fsub now last in
  (if fltb elapsed (flit NominatimConfig.RATE_LIMIT_SECONDS)
   then asyncio_sleep RateLimitWait
          (fsub (flit NominatimConfig.RATE_LIMIT_SECONDS) elapsed)
   else ret tt) ;;
  now' <- gets (fun s => time_monotonic (world s)) ;;
  modify (set_last_request_time now').

Definition retryable (status : Z) : bool :=
  existsb (Z.eqb status) NominatimConfig.RETRYABLE_STATUS_CODES.

(** The delay before the retry that follows attempt number [attempt]. *)
Definition retry_delay (attempt : nat) : F :=
  fmul (flit NominatimConfig.RETRY_BASE_DELAY)
       (flit (inject_Z (2 ^ Z.of_nat attempt))).

(** The [for attempt in range(MAX_RETRIES + 1)] loop of [_request],
    over the attempts still to run; [last] is the binding of
    [response] so far.  It returns the response the loop ends with. *)
Fixpoint retry_loop (url : str) (params : Params F) (attempts : list nat)
         (last : option (Response F)) : IO (Response F) :=
  match attempts with
  | [] =>
      match last with
      | Some response => ret response
      | None => raise (mkExc UnboundLocalError (Unbound "response"))
      end
  | attempt :: rest =>
      _rate_limit ;;
      outcome <- client_get url params ;;
      match outcome with
      | ConnectError e => raise (mkExc ConnectionError (NETWORK_ERROR e))
      | TimeoutException e => raise (mkExc ConnectionError (NETWORK_ERROR e))
      | Answer response =>
          if retryable (status_code response)
             && (attempt <? NominatimConfig.MAX_RETRIES)
          then
            let delay := retry_delay attempt in
            asyncio_sleep RetryBackoff delay ;;
            retry_loop url params rest (Some response)
          else ret response
      end
  end.

(** The "add common params" block of [_request]. *)
Definition add_common_params (email : str) (params : Params F) : Params F :=
  let params := setdefault "format" (PStr NominatimConfig.DEFAULT_FORMAT) params in
  let params := setdefault "addressdetails" (PStr "1") params in
  if str_truthy email then setdefault "email" (PStr email) params else params.

(** [_request]: a cached, rate-limited request to Nominatim. *)
Definition _request (endpoint : str) (params : Params F) : IO (Body F) :=
  email <- gets (fun s => _email (self s)) ;;
  let params := add_common_params email params in
  let cache_key := _cache_key endpoint params in
  now <- gets (fun s => time_time (world s)) ;;
  cache <- gets (fun s => _cache (self s)) ;;
  let '(cached, cache') := _cache_get cache_key now cache in
  modify (set_cache cache') ;;
  match cached with
  | Some payload => ret payload
  | None =>
      _get_client ;;
      base_url <- gets (fun s => _base_url (self s)) ;;
      let url := (base_url ++ "/" ++ endpoint)%string in
      response <- retry_loop url params
                    (seq 0 (NominatimConfig.MAX_RETRIES + 1)) None ;;
      if (status_code response =? 429)%Z then
        raise (mkExc RuntimeError RATE_LIMITED)
      else if negb (status_code response =? 200)%Z then
        raise (mkExc RuntimeError
                 (API_ERROR (status_code response) (str_take 200 (text response))))
      else
        match json response with
        | None => raise (mkExc JSONDecodeError InvalidJSON)
        | Some payload =>
            now <- gets (fun s => time_time (world s)) ;;
            cache <- gets (fun s => _cache (self s)) ;;
            cache' <- lift_result (_cache_put cache_key payload now cache) ;;
            modify (set_cache cache') ;;
            ret payload
        end
  end.

(** [search]: forward geocode. *)
Definition search (query : str) (limit : Z) (countrycodes viewbox : option str)
           (bounded : bool) (language : option str) : IO (list (RawPlace F)) :=
  let params : Params F := [("q", PStr query); ("limit", PInt limit)] in
  let params := match countrycodes with
                | Some cc => if str_truthy cc
                             then params_set "countrycodes" (PStr cc) params
                             else params
                | None => params
                end in
  let params := match viewbox with
                | Some vb =>
                    if str_truthy vb then
                      let params := params_set "viewbox" (PStr vb) params in
                      if bounded then params_set "bounded" (PStr "1") params
                      else params
                    else params
                | None => params
                end in
  let params := match language with
                | Some l => if str_truthy l
                            then params_set "accept-language" (PStr l) params
                            else params
                | None => params
                end in
  result <- _request "search" params ;;
  match result with
  | BodyList places => ret places
  | BodyDict place => ret [place]
  end.

(** [reverse]: coordinates to place. *)
Definition reverse (lat lon : F) (zoom : Z) (language : option str)
  : IO (RawPlace F) :=
  let params : Params F :=
    [("lat", PFloat lat); ("lon", PFloat lon); ("zoom", PInt zoom)] in
  let params := match language with
                | Some l => if str_truthy l
                            then params_set "accept-language" (PStr l) params
                            else params
                | None => params
                end in
  result <- _request "reverse" params ;;
  match result with
  | BodyDict place => ret place
  | BodyList (place :: _) => ret place
  | BodyList [] => raise (mkExc IndexError IndexOutOfRange)
  end.

(** [lookup]: OSM objects by id. *)
Definition lookup (osm_ids : list str) : IO (list (RawPlace F)) :=
  let params : Params F := [("osm_ids", PStr (py_join "," osm_ids))] in
  result <- _request "lookup" params ;;
  match result with
  | BodyList places => ret places
  | BodyDict place => ret [place]
  end.

(** [close]. *)
Definition close : IO unit :=
  opened <- gets (fun s => _client (self s)) ;;
  if opened then modify (set_client false) else ret tt.
End Client.

(* ================================================================= *)
(** ** Geometry helpers of [nominatim.py] *)

(** A bbox [[west, south, east, north]]; every bbox the code builds has
    exactly these four entries. *)
Record Bbox (F : Type) := mkBbox {
  west : F;
  south : F;
  east : F;
  north : F
}.

Arguments mkBbox {F}.

Section Geometry.
Context {F : Type} `{FloatOps F}.

(** [float(s)] for a string. *)
Definition float_str (s : str) : result (Exc F) F :=
  match float_of_str s with
  | Some x => Ok x
  | None => Raise (mkExc ValueError (NotAFloat s))
  end.

(** [convert_bbox]: Nominatim [[min_lat, max_lat, min_lon, max_lon]]
    to [[west, south, east, north]]. *)
Definition convert_bbox (nominatim_bbox : list str) : result (Exc F) (Bbox F) :=
  match map_result float_str nominatim_bbox with
  | Raise e => Raise e
  | Ok [min_lat; max_lat; min_lon; max_lon] =>
      Ok (mkBbox min_lon min_lat max_lon max_lat)
  | Ok xs => Raise (mkExc ValueError (UnpackMismatch 4 (List.length xs)))
  end.

Fixpoint rank_lookup (table : list ((Z * Z) * Q)) (place_rank : Z) : F :=
  match table with
  | [] => flit DEFAULT_BBOX_BUFFER
  | ((low, high), buffer) :: rest =>
      if ((low <=? place_rank) && (place_rank <=? high))%Z then flit buffer
      else rank_lookup rest place_rank
  end.

(** [bbox_buffer_for_rank]. *)
Definition bbox_buffer_for_rank (place_rank : option Z) : F :=
  match place_rank with
  | None => flit DEFAULT_BBOX_BUFFER
  | Some r => rank_lookup PLACE_RANK_BUFFERS r
  end.

(** [compute_area_km2]. *)
Definition compute_area_km2 (bbox : Bbox F) : F :=
  let mid_lat := fdiv (fadd (south bbox) (north bbox)) (flit 2) in
  let width_km := fmul (fmul (fsub (east bbox) (west bbox)) (flit (11132 # 100)))
                       (math_cos (math_radians mid_lat)) in
  let height_km := fmul (fsub (north bbox) (south bbox)) (flit (11132 # 100)) in
  fabs (fmul width_km height_km).

(** [midpoint]. *)
Definition midpoint (lat1 lon1 lat2 lon2 : F) : F * F :=
  (fdiv (fadd lat1 lat2) (flit 2), fdiv (fadd lon1 lon2) (flit 2)).

(** [bbox_union]. *)
Definition bbox_union (bboxes : list (Bbox F)) : Bbox F :=
  match bboxes with
  | [] => mkBbox (flit 0) (flit 0) (flit 0) (flit 0)
  | b :: rest =>
      mkBbox (py_min (west b) (map (@west F) rest))
             (py_min (south b) (map (@south F) rest))
             (py_max (east b) (map (@east F) rest))
             (py_max (north b) (map (@north F) rest))
  end.

(** [haversine_distance]: metres between two points. *)
Definition haversine_distance (lat1 lon1 lat2 lon2 : F) : F :=
  let r := flit 6371000 in
  let phi1 := math_radians lat1 in
  let phi2 := math_radians lat2 in
  let d_phi := math_radians (fsub lat2 lat1) in
  let d_lambda := math_radians (fsub lon2 lon1) in
  let a := fadd (fpow (math_sin (fdiv d_phi (flit 2))) 2)
                (fmul (fmul (math_cos phi1) (math_cos phi2))
                      (fpow (math_sin (fdiv d_lambda (flit 2))) 2)) in
  let c := fmul (flit 2) (math_atan2 (math_sqrt a) (math_sqrt (fsub (flit 1) a))) in
  fmul r c.
End Geometry.

(* ================================================================= *)
(** ** [geocoder.py]: result dataclasses *)

Module GeocodeItem.
Record t (F : Type) := mk {
  lat : F;
  lon : F;
  display_name : str;
  bbox : Bbox F;
  osm_type : option str;
  osm_id : option Z;
  importance : option F;
  place_rank : option Z;
  address : option (list (str * str));
  category : option str;
  place_type : option str
}.
Arguments mk {F}.
End GeocodeItem.

Module ReverseResult.
Record t (F : Type) := mk {
  lat : F;
  lon : F;
  display_name : str;
  address : list (str * str);
  bbox : Bbox F;
  osm_type : option str;
  osm_id : option Z;
  place_rank : option Z
}.
Arguments mk {F}.
End ReverseResult.

Module BboxResult.
Record t (F : Type) := mk {
  place_name : str;
  bbox : Bbox F;
  center : F * F;
  area_km2 : option F
}.
Arguments mk {F}.
End BboxResult.

Module NearbyItem.
Record t (F : Type) := mk {
  display_name : str;
  lat : F;
  lon : F;
  distance_m : option F;
  place_type : option str;
  osm_type : option str;
  importance : option F
}.
Arguments mk {F}.
End NearbyItem.

Module AdminBoundaryItem.
Record t := mk {
  level : str;
  name : str;
  osm_type : option str;
  osm_id : option Z
}.
End AdminBoundaryItem.

Module BatchItem.
(** [error] holds [str(e)], kept structured. *)
Record t (F : Type) := mk {
  query : str;
  results : option (list (GeocodeItem.t F));
  error : option (Message F)
}.
Arguments mk {F}.
End BatchItem.

Module RouteWaypointItem.
Record t (F : Type) := mk {
  name : str;
  lat : F;
  lon : F;
  bbox : Bbox F
}.
Arguments mk {F}.
End RouteWaypointItem.

Module RouteLegItem.
Record t (F : Type) := mk {
  from_name : str;
  to_name : str;
  distance_m : F
}.
Arguments mk {F}.
End RouteLegItem.

Module RouteResult.
Record t (F : Type) := mk {
  waypoints : list (RouteWaypointItem.t F);
  legs : list (RouteLegItem.t F);
  total_distance_m : F;
  bbox : Bbox F
}.
Arguments mk {F}.
End RouteResult.

(* ================================================================= *)
(** ** [geocoder.py]: the client the [Geocoder] wraps *)

(** What [Geocoder] asks of its client: the two coroutines it awaits,
    over whatever state [C] the client and its world have. *)
Class ClientOps (F C : Type) := {
  client_search :
    str -> Z -> option str -> option str -> bool -> option str ->
    M (Exc F) C (list (RawPlace F));
  client_reverse :
    F -> F -> Z -> option str -> M (Exc F) C (RawPlace F)
}.

(* ================================================================= *)
(** ** [geocoder.py]: list helpers *)

(** [l[:limit]] for any integer [limit]. *)
Definition slice_to {A} (limit : Z) (l : list A) : list A :=
  if (limit <? 0)%Z
  then firstn (Z.to_nat (Z.of_nat (List.length l) + limit)) l
  else firstn (Z.to_nat limit) l.

Fixpoint assoc_get {V} (key : str) (d : list (str * V)) : option V :=
  match d with
  | [] => None
  | (k, v) :: rest => if String.eqb key k then Some v else assoc_get key rest
  end.

Section Sorting.
Context {F : Type} `{FloatOps F}.
Variable A : Type.
Variable key : A -> F.

(** Put [x] behind every element whose key is not above its own. *)
Fixpoint insert_by (x : A) (l : list A) : list A :=
  match l with
  | [] => [x]
  | y :: rest =>
      if fltb (key x) (key y) then x :: y :: rest
      else y :: insert_by x rest
  end.

(** [l.sort(key=key)]: stable, by [<] on the keys. *)
Definition list_sort (l : list A) : list A :=
  fold_left (fun sorted x => insert_by x sorted) l [].
End Sorting.

(* ================================================================= *)
(** ** [geocoder.py]: [Geocoder] *)

Section Geocoder.
Context {F : Type} `{FloatOps F}.
Context {C : Type} `{ClientOps F C}.

Local Open Scope monad_scope.

Definition G (A : Type) := M (Exc F) C A.

(* --- Validation helpers --- *)

(** [_validate_coordinates]. *)
Definition _validate_coordinates (lat lon : F) : result (Exc F) unit :=
  if negb (chained_le (flit (-90)) lat (flit 90)) then
    Raise (mkExc ValueError (INVALID_LAT lat))
  else if negb (chained_le (flit (-180)) lon (flit 180)) then
    Raise (mkExc ValueError (INVALID_LON lon))
  else Ok tt.

(** [_validate_query]. *)
Definition _validate_query (query : str) : result (Exc F) unit :=
  if negb (str_truthy query) || negb (str_truthy (py_strip query)) then
    Raise (mkExc ValueError EMPTY_QUERY)
  else Ok tt.

(* --- Parsing helpers --- *)

(** [float(raw[key])] for a key holding a numeral string. *)
Definition float_item (key : str) (field : option str) : result (Exc F) F :=
  match field with
  | None => Raise (mkExc KeyError (MissingKey key))
  | Some s => float_str s
  end.

(** [float(raw.get(key, default))]. *)
Definition float_get (field : option str) (default : F) : result (Exc F) F :=
  match field with
  | None => Ok default
  | Some s => float_str s
  end.

(** [int(raw[key]) if raw.get(key) else None]. *)
Definition int_if_truthy (field : option Z) : option Z :=
  match field with
  | Some z => if (z =? 0)%Z then None else Some z
  | None => None
  end.

(** [float(raw[key]) if raw.get(key) else None]. *)
Definition float_if_truthy (field : option F) : option F :=
  match field with
  | Some x => if float_truthy x then Some x else None
  | None => None
  end.

(** [raw.get("display_name", "")]. *)
Definition get_display_name (raw : RawPlace F) : str :=
  match raw_display_name raw with
  | Some s => s
  | None => ""
  end.

(** [_parse_search_result]. *)
Definition _parse_search_result (raw : RawPlace F)
  : result (Exc F) (GeocodeItem.t F) :=
  match float_item "lat" (raw_lat raw) with
  | Raise e => Raise e
  | Ok lat =>
  match float_item "lon" (raw_lon raw) with
  | Raise e => Raise e
  | Ok lon =>
  let bbox_raw := raw_boundingbox raw in
  let bbox :=
    match bbox_raw with
    | Some (x :: xs) => convert_bbox (x :: xs)
    | _ =>
        let rank := int_if_truthy (raw_place_rank raw) in
        let buffer := bbox_buffer_for_rank rank in
        Ok (mkBbox (fsub lon buffer) (fsub lat buffer)
                   (fadd lon buffer) (fadd lat buffer))
    end in
  match bbox with
  | Raise e => Raise e
  | Ok bbox =>
      Ok (GeocodeItem.mk lat lon (get_display_name raw) bbox
            (raw_osm_type raw)
            (int_if_truthy (raw_osm_id raw))
            (float_if_truthy (raw_importance raw))
            (int_if_truthy (raw_place_rank raw))
            (raw_address raw)
            (raw_category raw)
            (raw_type raw))
  end end end.

(** [_parse_reverse_result]. *)
Definition _parse_reverse_result (raw : RawPlace F) (lat lon : F)
  : result (Exc F) (ReverseResult.t F) :=
  match float_get (raw_lat raw) lat with
  | Raise e => Raise e
  | Ok result_lat =>
  match float_get (raw_lon raw) lon with
  | Raise e => Raise e
  | Ok result_lon =>
  let bbox :=
    match raw_boundingbox raw with
    | Some (x :: xs) => convert_bbox (x :: xs)
    | _ => Ok (mkBbox (fsub result_lon (flit (1 # 1000)))
                      (fsub result_lat (flit (1 # 1000)))
                      (fadd result_lon (flit (1 # 1000)))
                      (fadd result_lat (flit (1 # 1000))))
    end in
  match bbox with
  | Raise e => Raise e
  | Ok bbox =>
      Ok (ReverseResult.mk result_lat result_lon (get_display_name raw)
            (match raw_address raw with Some a => a | None => [] end)
            bbox
            (raw_osm_type raw)
            (int_if_truthy (raw_osm_id raw))
            (int_if_truthy (raw_place_rank raw)))
  end end end.

(* --- Primary operations --- *)

(** [geocode]: place name to coordinates. *)
Definition geocode (query : str) (limit : Z)
           (countrycodes language : option str) : G (list (GeocodeItem.t F)) :=
  lift_result (_validate_query query) ;;
  raw_results <- client_search query limit countrycodes None false language ;;
  match raw_results with
  | [] => raise (mkExc ValueError (NO_RESULTS query))
  | _ => lift_result (map_result _parse_search_result raw_results)
  end.

(** [reverse_geocode]: coordinates to place name. *)
Definition reverse_geocode (lat lon : F) (zoom : Z) (language : option str)
  : G (ReverseResult.t F) :=
  lift_result (_validate_coordinates lat lon) ;;
  raw <- client_reverse lat lon zoom language ;;
  lift_result (_parse_reverse_result raw lat lon).

(** [bbox_from_place]. *)
Definition bbox_from_place (query : str) (padding : F) : G (BboxResult.t F) :=
  lift_result (_validate_query query) ;;
  raw_results <- client_search query 1 None None false None ;;
  match raw_results with
  | [] => raise (mkExc ValueError (NO_RESULTS query))
  | first :: _ =>
      item <- lift_result (_parse_search_result first) ;;
      let bbox := GeocodeItem.bbox item in
      let bbox :=
        if fgtb padding (flit 0) then
          let width := fsub (east bbox) (west bbox) in
          let height := fsub (north bbox) (south bbox) in
          mkBbox (fsub (west bbox) (fmul width padding))
                 (fsub (south bbox) (fmul height padding))
                 (fadd (east bbox) (fmul width padding))
                 (fadd (north bbox) (fmul height padding))
        else bbox in
      let area := compute_area_km2 bbox in
      ret (BboxResult.mk (GeocodeItem.display_name item) bbox
             (GeocodeItem.lon item, GeocodeItem.lat item)
             (Some (py_round area 2)))
  end.

(** The two local collections of [nearby_places]. *)
Record NearbyLocals := mkNearbyLocals {
  seen_names : list str;
  items : list (NearbyItem.t F)
}.

(** The statements both loops of [nearby_places] run on one raw place:
    skip an unnamed or already seen place, otherwise record the name
    and then build and append the item.  A raise leaves what was
    recorded before it. *)
Definition nearby_consider (lat lon : F) (raw : RawPlace F)
  : M (Exc F) NearbyLocals unit :=
  let name := get_display_name raw in
  seen <- gets seen_names ;;
  if negb (str_truthy name) || mem_str name seen then ret tt
  else
    modify (fun l => mkNearbyLocals (name :: seen_names l) (items l)) ;;
    result_lat <- lift_result (float_get (raw_lat raw) lat) ;;
    result_lon <- lift_result (float_get (raw_lon raw) lon) ;;
    let dist := haversine_distance lat lon result_lat result_lon in
    modify (fun l => mkNearbyLocals (seen_names l)
      (items l ++ [NearbyItem.mk name result_lat result_lon
                     (Some (py_round dist 1))
                     (raw_type raw)
                     (raw_osm_type raw)
                     (float_if_truthy (raw_importance raw))])).

(** The key [lambda x: x.distance_m or float("inf")]. *)
Definition nearby_sort_key (x : NearbyItem.t F) : F :=
  match NearbyItem.distance_m x with
  | Some d => if float_truthy d then d else finf
  | None => finf
  end.

(** [str(buffer-shifted coordinate)] inside the viewbox f-string. *)
Definition viewbox_of (lat lon : F) : str :=
  let buffer := flit (1 # 100) in
  (float_repr (fsub lon buffer) ++ "," ++ float_repr (fsub lat buffer) ++ ","
   ++ float_repr (fadd lon buffer) ++ "," ++ float_repr (fadd lat buffer))%string.

(** [nearby_places]. *)
Definition nearby_places (lat lon : F) (limit : Z) (categories : option (list str))
  : G (list (NearbyItem.t F)) :=
  lift_result (_validate_coordinates lat lon) ;;
  fun c =>
    let run : M (Exc F) (C * NearbyLocals) (list (NearbyItem.t F)) :=
      for_each [ZoomLevel.BUILDING; ZoomLevel.STREET; ZoomLevel.SUBURB; ZoomLevel.CITY]
        (fun zoom =>
           try_except
             (raw <- on_fst (client_reverse lat lon zoom None) ;;
              on_snd (nearby_consider lat lon raw))
             (fun _ => ret tt)) ;;
      try_except
        (search_results <-
           on_fst (client_search
                     (float_repr lat ++ "," ++ float_repr lon)%string 5 None
                     (Some (viewbox_of lat lon)) true None) ;;
         for_each search_results
           (fun r => on_snd (nearby_consider lat lon r)))
        (fun _ => ret tt) ;;
      found <- gets (fun cl => items (snd cl)) ;;
      let found :=
        match categories with
        | Some (cat :: cats) =>
            filter (fun i => match NearbyItem.place_type i with
                             | Some t => mem_str t (cat :: cats)
                             | None => false
                             end) found
        | _ => found
        end in
      let found := list_sort nearby_sort_key found in
      ret (slice_to limit found) in
    let '(r, (c', _)) := run (c, mkNearbyLocals [] []) in
    (r, c').

(** [admin_boundaries]. *)
Definition admin_boundaries (lat lon : F) : G (str * list AdminBoundaryItem.t) :=
  lift_result (_validate_coordinates lat lon) ;;
  raw <- client_reverse lat lon ZoomLevel.BUILDING None ;;
  let display_name := get_display_name raw in
  let address := match raw_address raw with Some a => a | None => [] end in
  let boundaries :=
    flat_map (fun kl : str * str =>
                let (addr_key, level_name) := kl in
                match assoc_get addr_key address with
                | Some name => [AdminBoundaryItem.mk level_name name None None]
                | None => []
                end) ADMIN_LEVEL_KEYS in
  ret (display_name, boundaries).

(* --- Batch operations --- *)

(** The body of the loop of [batch_geocode] for one query. *)
Definition batch_one (limit : Z) (query : str) : G (BatchItem.t F) :=
  try_except
    (results <- geocode query limit None None ;;
     ret (BatchItem.mk query (Some results) None))
    (fun e => ret (BatchItem.mk query None (Some (exc_msg e)))).

(** [batch_geocode]. *)
Definition batch_geocode (queries : list str) (limit : Z)
  : G (list (BatchItem.t F)) :=
  match queries with
  | [] => raise (mkExc ValueError BATCH_EMPTY)
  | _ =>
      if BATCH_MAX_QUERIES <? List.length queries then
        raise (mkExc ValueError
                 (BATCH_TOO_LARGE (List.length queries) BATCH_MAX_QUERIES))
      else map_m (batch_one limit) queries
  end.

(** The body of the first loop of [route_waypoints] for one waypoint. *)
Definition resolve_waypoint (wp : str) : G (RouteWaypointItem.t F) :=
  found <- geocode wp 1 None None ;;
  match found with
  | [] => raise (mkExc IndexError IndexOutOfRange)
  | item :: _ =>
      ret (RouteWaypointItem.mk (GeocodeItem.display_name item)
             (GeocodeItem.lat item) (GeocodeItem.lon item)
             (GeocodeItem.bbox item))
  end.

(** The second loop of [route_waypoints]: for each consecutive pair,
    append a leg with the rounded distance and add the unrounded
    distance to the total. *)
Fixpoint route_loop (resolved : list (RouteWaypointItem.t F))
         (legs : list (RouteLegItem.t F)) (total_distance : F)
  : list (RouteLegItem.t F) * F :=
  match resolved with
  | a :: (b :: _) as rest =>
      let dist :=
        haversine_distance (RouteWaypointItem.lat a) (RouteWaypointItem.lon a)
                           (RouteWaypointItem.lat b) (RouteWaypointItem.lon b) in
      route_loop rest
        (legs ++ [RouteLegItem.mk (RouteWaypointItem.name a)
                    (RouteWaypointItem.name b) (py_round dist 1)])
        (fadd total_distance dist)
  | _ => (legs, total_distance)
  end.

(** [route_waypoints]. *)
Definition route_waypoints (waypoints : list str) : G (RouteResult.t F) :=
  if List.length waypoints <? 2 then raise (mkExc ValueError WAYPOINTS_MIN)
  else
    resolved <- map_m resolve_waypoint waypoints ;;
    let '(legs, total_distance) := route_loop resolved [] (flit 0) in
    let all_bboxes := map (@RouteWaypointItem.bbox F) resolved in
    let combined_bbox := bbox_union all_bboxes in
    ret (RouteResult.mk resolved legs (py_round total_distance 1) combined_bbox).
End Geocoder.

(* ================================================================= *)
(** ** MD5 (RFC 1321) *)

Module MD5.
Local Open Scope N_scope.

Definition mask32 : N := 0xffffffff.

Definition add32 (a b : N) : N := N.land (a + b) mask32.

Definition rotl32 (x c : N) : N :=
  N.lor (N.land (N.shiftl x c) mask32) (N.shiftr x (32 - c)).

Definition not32 (x : N) : N := N.lxor x mask32.

Definition shifts : list N :=
  [ 7; 12; 17; 22; 7; 12; 17; 22; 7; 12; 17; 22; 7; 12; 17; 22;
    5; 9; 14; 20; 5; 9; 14; 20; 5; 9; 14; 20; 5; 9; 14; 20;
    4; 11; 16; 23; 4; 11; 16; 23; 4; 11; 16; 23; 4; 11; 16; 23;
    6; 10; 15; 21; 6; 10; 15; 21; 6; 10; 15; 21; 6; 10; 15; 21 ].

Definition sines : list N :=
  [ 0xd76aa478; 0xe8c7b756; 0x242070db; 0xc1bdceee;
    0xf57c0faf; 0x4787c62a; 0xa8304613; 0xfd469501;
    0x698098d8; 0x8b44f7af; 0xffff5bb1; 0x895cd7be;
    0x6b901122; 0xfd987193; 0xa679438e; 0x49b40821;
    0xf61e2562; 0xc040b340; 0x265e5a51; 0xe9b6c7aa;
    0xd62f105d; 0x02441453; 0xd8a1e681; 0xe7d3fbc8;
    0x21e1cde6; 0xc33707d6; 0xf4d50d87; 0x455a14ed;
    0xa9e3e905; 0xfcefa3f8; 0x676f02d9; 0x8d2a4c8a;
    0xfffa3942; 0x8771f681; 0x6d9d6122; 0xfde5380c;
    0xa4beea44; 0x4bdecfa9; 0xf6bb4b60; 0xbebfbc70;
    0x289b7ec6; 0xeaa127fa; 0xd4ef3085; 0x04881d05;
    0xd9d4d039; 0xe6db99e5; 0x1fa27cf8; 0xc4ac5665;
    0xf4292244; 0x432aff97; 0xab9423a7; 0xfc93a039;
    0x655b59c3; 0x8f0ccc92; 0xffeff47d; 0x85845dd1;
    0x6fa87e4f; 0xfe2ce6e0; 0xa3014314; 0x4e0811a1;
    0xf7537e82; 0xbd3af235; 0x2ad7d2bb; 0xeb86d391 ].

(** [str.encode()]: UTF-8 of code points below 256. *)
Fixpoint utf8 (s : str) : list N :=
  match s with
  | EmptyString => []
  | String c s' =>
      let n := N_of_ascii c in
      if n <? 128 then n :: utf8 s'
      else N.lor 0xc0 (N.shiftr n 6) :: N.lor 0x80 (N.land n 0x3f) :: utf8 s'
  end.

Definition le_bytes (width : nat) (x : N) : list N :=
  map (fun i => N.land (N.shiftr x (8 * N.of_nat i)) 0xff) (seq 0 width).

Definition pad (msg : list N) : list N :=
  let len := N.of_nat (List.length msg) in
  let zeros := N.to_nat ((119 - len mod 64) mod 64) in
  (msg ++ [0x80] ++ repeat 0 zeros ++ le_bytes 8 (8 * len))%list.

Fixpoint word_le (bytes : list N) : N :=
  match bytes with
  | [] => 0
  | b :: rest => b + 256 * word_le rest
  end.

Fixpoint words (n : nat) (bytes : list N) : list N :=
  match n with
  | O => []
  | S n' => word_le (firstn 4 bytes) :: words n' (skipn 4 bytes)
  end.

Definition Regs := (N * N * N * N)%type.

Definition step (m : list N) (r : Regs) (i : nat) : Regs :=
  let '(a, b, c, d) := r in
  let i' := N.of_nat i in
  let '(f, g) :=
    if i' <? 16 then (N.lor (N.land b c) (N.land (not32 b) d), i')
    else if i' <? 32 then
      (N.lor (N.land d b) (N.land (not32 d) c), (5 * i' + 1) mod 16)
    else if i' <? 48 then (N.lxor b (N.lxor c d), (3 * i' + 5) mod 16)
    else (N.lxor c (N.lor b (not32 d)), (7 * i') mod 16) in
  let f := add32 (add32 (add32 f a) (nth i sines 0)) (nth (N.to_nat g) m 0) in
  (d, add32 b (rotl32 f (nth i shifts 0)), b, c).

Definition block (r : Regs) (m : list N) : Regs :=
  let '(a, b, c, d) := r in
  let '(a', b', c', d') := fold_left (step m) (seq 0 64) r in
  (add32 a a', add32 b b', add32 c c', add32 d d').

Fixpoint blocks (n : nat) (bytes : list N) (r : Regs) : Regs :=
  match n with
  | O => r
  | S n' => blocks n' (skipn 64 bytes) (block r (words 16 (firstn 64 bytes)))
  end.

Definition hex_byte (b : N) : str :=
  String (hex_digit (b / 16)) (String (hex_digit (b mod 16)) EmptyString).

Definition hexdigest (s : str) : str :=
  let bytes := pad (utf8 s) in
  let '(a, b, c, d) :=
    blocks (List.length bytes / 64) bytes
           (0x67452301, 0xefcdab89, 0x98badcfe, 0x10325476) in
  String.concat ""
    (map hex_byte (le_bytes 4 a ++ le_bytes 4 b ++ le_bytes 4 c ++ le_bytes 4 d)%list).
End MD5.

#[global] Instance md5_HashOps : HashOps := {| md5_hexdigest := MD5.hexdigest |}.

(* ================================================================= *)
(** ** An executable instance of the float operations *)

(** Extended rationals with exact arithmetic.  The [math] functions are
    evaluated by series and truncated to fifteen decimals; [float()]
    reads plain decimal numerals. *)
Module Rat.
Local Open Scope Q_scope.

Inductive t :=
| Fin (q : Q)
| PosInf
| NegInf
| NaN.

Definition sign (x : t) : option comparison :=
  match x with
  | Fin q => Some (q ?= 0)
  | PosInf => Some Gt
  | NegInf => Some Lt
  | NaN => None
  end.

Definition neg (x : t) : t :=
  match x with
  | Fin q => Fin (Qred (- q))
  | PosInf => NegInf
  | NegInf => PosInf
  | NaN => NaN
  end.

Definition add (x y : t) : t :=
  match x, y with
  | NaN, _ | _, NaN => NaN
  | PosInf, NegInf | NegInf, PosInf => NaN
  | PosInf, _ | _, PosInf => PosInf
  | NegInf, _ | _, NegInf => NegInf
  | Fin a, Fin b => Fin (Qred (a + b))
  end.

Definition sub (x y : t) : t := add x (neg y).

Definition signed_inf (s1 s2 : comparison) : t :=
  match s1, s2 with
  | Eq, _ | _, Eq => NaN
  | Gt, Gt | Lt, Lt => PosInf
  | _, _ => NegInf
  end.

Definition mul (x y : t) : t :=
  match x, y with
  | Fin a, Fin b => Fin (Qred (a * b))
  | _, _ =>
      match sign x, sign y with
      | Some s1, Some s2 => signed_inf s1 s2
      | _, _ => NaN
      end
  end.

Definition div (x y : t) : t :=
  match x, y with
  | Fin a, Fin b => if Qeq_bool b 0 then NaN else Fin (Qred (a / b))
  | Fin _, (PosInf | NegInf) => Fin 0
  | (PosInf | NegInf), Fin _ =>
      match sign x, sign y with
      | Some s1, Some s2 => signed_inf s1 s2
      | _, _ => NaN
      end
  | _, _ => NaN
  end.

Definition pow (x : t) (n : Z) : t :=
  if (n =? 0)%Z then Fin 1
  else match x with
       | Fin q => Fin (Qred (q ^ n))
       | PosInf => if (0 <? n)%Z then PosInf else Fin 0
       | NegInf => if (0 <? n)%Z then (if Z.even n then PosInf else NegInf)
                   else Fin 0
       | NaN => NaN
       end.

Definition abs (x : t) : t :=
  match x with
  | Fin q => Fin (Qred (Qabs q))
  | PosInf | NegInf => PosInf
  | NaN => NaN
  end.

Definition ltb (x y : t) : bool :=
  match x, y with
  | NaN, _ | _, NaN => false
  | Fin a, Fin b => match a ?= b with Lt => true | _ => false end
  | NegInf, (Fin _ | PosInf) => true
  | Fin _, PosInf => true
  | _, _ => false
  end.

Definition eqb (x y : t) : bool :=
  match x, y with
  | Fin a, Fin b => Qeq_bool a b
  | PosInf, PosInf | NegInf, NegInf => true
  | _, _ => false
  end.

Definition leb (x y : t) : bool := ltb x y || eqb x y.

(** Nearest integer, ties to even. *)
Definition round_half_even (q : Q) : Z :=
  let f := Qfloor q in
  match Qcompare (q - inject_Z f) (1 # 2) with
  | Lt => f
  | Gt => (f + 1)%Z
  | Eq => if Z.even f then f else (f + 1)%Z
  end.

Definition round (x : t) (ndigits : nat) : t :=
  match x with
  | Fin q =>
      let scale := inject_Z (10 ^ Z.of_nat ndigits) in
      Fin (Qred (inject_Z (round_half_even (q * scale)) / scale))
  | _ => x
  end.

(* --- decimal numerals --- *)

Definition digit_of (c : ascii) : option Z :=
  let n := N_of_ascii c in
  if ((48 <=? n) && (n <=? 57))%N then Some (Z.of_N n - 48)%Z else None.

(** Reads digits; returns the value, the number of digits and the
    rest. *)
Fixpoint read_digits (s : str) (acc : Z) (count : nat) : Z * nat * str :=
  match s with
  | EmptyString => (acc, count, s)
  | String c s' =>
      match digit_of c with
      | Some d => read_digits s' (10 * acc + d)%Z (S count)
      | None => (acc, count, s)
      end
  end.

Definition of_unsigned (s : str) : option Q :=
  let '(whole, n1, rest) := read_digits s 0%Z O in
  match rest with
  | EmptyString =>
      if (0 <? n1)%nat then Some (inject_Z whole) else None
  | String "." rest' =>
      let '(frac, n2, rest'') := read_digits rest' 0%Z O in
      match rest'' with
      | EmptyString =>
          if (0 <? n1 + n2)%nat
          then Some (Qred (inject_Z whole
                           + inject_Z frac / inject_Z (10 ^ Z.of_nat n2)))
          else None
      | _ => None
      end
  | _ => None
  end.

Definition of_str (s : str) : option t :=
  match py_strip s with
  | String "-" s' => option_map (fun q => Fin (Qred (- q))) (of_unsigned s')
  | String "+" s' => option_map Fin (of_unsigned s')
  | s' => option_map Fin (of_unsigned s')
  end.

Fixpoint frac_digits (fuel : nat) (num den : Z) : str :=
  match fuel with
  | O => EmptyString
  | S fuel' =>
      if (num =? 0)%Z then EmptyString
      else (int_repr (10 * num / den)
            ++ frac_digits fuel' ((10 * num) mod den) den)%string
  end.

Definition repr (x : t) : str :=
  match x with
  | Fin q =>
      let q := Qred q in
      let den := Z.pos (Qden q) in
      let a := Z.abs (Qnum q) in
      let frac := frac_digits 17 (a mod den) den in
      ((if (Qnum q <? 0)%Z then "-" else "") ++ int_repr (a / den) ++ "."
       ++ (match frac with EmptyString => "0" | _ => frac end))%string
  | PosInf => "inf"
  | NegInf => "-inf"
  | NaN => "nan"
  end.

(* --- the [math] module, to fifteen decimals --- *)

(** Truncation to [digits] decimals. *)
Definition fix_to (digits : Z) (q : Q) : Q :=
  Qred (inject_Z (Qfloor (q * inject_Z (10 ^ digits))) / inject_Z (10 ^ digits)).

Definition fix15 (q : Q) : Q := fix_to 15 q.

Definition pi : Q := 3141592653589793 # 1000000000000000.

(** Sum of [term, term * ratio 1, term * ratio 1 * ratio 2, ...], each
    term kept to twenty decimals. *)
Fixpoint series (n : nat) (k : Z) (term : Q) (ratio : Z -> Q) : Q :=
  match n with
  | O => 0
  | S n' => Qred (term + series n' (k + 1)%Z (fix_to 20 (term * ratio k)) ratio)
  end.

Definition sin_q (x : Q) : Q :=
  let x2 := fix_to 20 (x * x) in
  fix15 (series 16 1%Z x
           (fun k => - x2 / inject_Z ((2 * k) * (2 * k + 1)))).

Definition cos_q (x : Q) : Q :=
  let x2 := fix_to 20 (x * x) in
  fix15 (series 16 1%Z 1
           (fun k => - x2 / inject_Z ((2 * k - 1) * (2 * k)))).

Definition sqrt_q (q : Q) : Q :=
  Qred (inject_Z (Z.sqrt (Qfloor (q * inject_Z (10 ^ 30)))) / inject_Z (10 ^ 15)).

(** Arctangent on [0, 1]: two halvings of the angle, then the series. *)
Definition atan_unit (v : Q) : Q :=
  let half v := fix15 (v / (1 + sqrt_q (1 + v * v))) in
  let w := half (half v) in
  let w2 := fix_to 20 (w * w) in
  fix15 (4 * series 12 1%Z w
               (fun k => - w2 * inject_Z (2 * k - 1) / inject_Z (2 * k + 1))).

Definition atan_pos (v : Q) : Q :=
  if Qle_bool v 1 then atan_unit v else Qred (pi / 2 - atan_unit (/ v)).

Definition atan_q (v : Q) : Q :=
  if Qle_bool 0 v then atan_pos v else Qred (- atan_pos (- v)).

Definition atan2_q (y x : Q) : Q :=
  match x ?= 0, y ?= 0 with
  | Gt, _ => atan_q (y / x)
  | Lt, Lt => Qred (atan_q (y / x) - pi)
  | Lt, _ => Qred (atan_q (y / x) + pi)
  | Eq, Gt => Qred (pi / 2)
  | Eq, Lt => Qred (- pi / 2)
  | Eq, Eq => 0
  end.

Definition lift1 (f : Q -> Q) (x : t) : t :=
  match x with
  | Fin q => Fin (f q)
  | _ => NaN
  end.

Definition radians (x : t) : t := mul x (Fin (Qred (pi / 180))).

Definition sqrt (x : t) : t :=
  match x with
  | Fin q => if Qle_bool 0 q then Fin (sqrt_q q) else NaN
  | PosInf => PosInf
  | _ => NaN
  end.

Definition atan2 (y x : t) : t :=
  match y, x with
  | Fin a, Fin b => Fin (atan2_q a b)
  | _, _ => NaN
  end.

(** The finite values and what they are worth. *)
Definition is_finite (x : t) : bool :=
  match x with
  | Fin _ => true
  | _ => false
  end.

Definition value (x : t) : Q :=
  match x with
  | Fin q => q
  | _ => 0
  end.

#[global] Instance ops : FloatOps t := {|
  flit := fun q => Fin (Qred q);
  fadd := add;
  fsub := sub;
  fmul := mul;
  fdiv := div;
  fpow := pow;
  fabs := abs;
  fltb := ltb;
  fleb := leb;
  feqb := eqb;
  finf := PosInf;
  py_round := round;
  float_of_str := of_str;
  float_repr := repr;
  math_radians := radians;
  math_sin := lift1 sin_q;
  math_cos := lift1 cos_q;
  math_sqrt := sqrt;
  math_atan2 := atan2
|}.
End Rat.

(* ================================================================= *)
(** ** [Geocoder(client=NominatimClient(...))] *)

#[global] Instance NominatimClient_ClientOps {F : Type} `{FloatOps F} `{HashOps}
  : ClientOps F (System F) :=
  {| client_search := search; client_reverse := reverse |}.

(* ================================================================= *)
(** ** [geocoder.py]: [Geocoder.cache_entries] *)

(** [cache_entries]: the number of entries in the API cache of the
    wrapped client. *)
Definition cache_entries {F : Type} (s : System F) : nat :=
  List.length (_cache (self s)).

(* ================================================================= *)
(** ** Sample payloads and services *)

Module Demo.
Import Rat.

Definition IO := M (Exc Rat.t) (System Rat.t).

Definition place (lat lon name : str) (bbox : option (list str))
           (rank : option Z) (kind : str) : RawPlace Rat.t :=
  mkRawPlace (Some lat) (Some lon) (Some name) bbox (Some "node") (Some 1%Z)
             (Some (Fin (1 # 2))) rank (Some [("country", "United States")])
             (Some "place") (Some kind).

(** The sample search response of the test fixtures. *)
Definition boulder : RawPlace Rat.t :=
  mkRawPlace (Some "40.0149856") (Some "-105.2705456")
    (Some "Boulder, Boulder County, Colorado, United States")
    (Some ["39.9138"; "40.0940"; "-105.3014"; "-105.1731"])
    (Some "relation") (Some 9876543%Z) (Some (Fin (65 # 100))) (Some 16%Z)
    (Some [("city", "Boulder"); ("county", "Boulder County");
           ("state", "Colorado"); ("country", "United States");
           ("country_code", "us")])
    (Some "place") (Some "city").

Definition denver : RawPlace Rat.t :=
  place "39.7392" "-104.9903" "Denver, Colorado, United States" None (Some 16%Z) "city".

Definition ok_list (places : list (RawPlace Rat.t)) : Outcome Rat.t :=
  Answer (mkResponse 200 "[...]" (Some (BodyList places))).

Definition ok_dict (p : RawPlace Rat.t) : Outcome Rat.t :=
  Answer (mkResponse 200 "{...}" (Some (BodyDict p))).

Definition status (code : Z) (body : str) : Outcome Rat.t :=
  Answer (mkResponse code body None).

(** The value of parameter [key] in a request. *)
Definition param (key : str) (params : Params Rat.t) : option (ParamValue Rat.t) :=
  od_get key params.

Definition start (service : nat -> str -> Params Rat.t -> Outcome Rat.t)
  : System Rat.t :=
  mkSystem (NominatimClient_init NominatimConfig.BASE_URL
              NominatimConfig.USER_AGENT "")
           (mkWorld (Fin 1700000000) (Fin 5000) service []).

(** The request asks for [q = text]. *)
Definition asks_for (text : str) (params : Params Rat.t) : bool :=
  match param "q" params with
  | Some (PStr q) => String.eqb q text
  | _ => false
  end.

(** The request asks for [zoom = z]. *)
Definition zoom_is (z : Z) (params : Params Rat.t) : bool :=
  match param "zoom" params with
  | Some (PInt zoom) => (zoom =? z)%Z
  | _ => false
  end.

(** A service that knows Boulder and Denver and nothing else. *)
Definition colorado (n : nat) (url : str) (params : Params Rat.t) : Outcome Rat.t :=
  if asks_for "Boulder" params then ok_list [boulder]
  else if asks_for "Denver" params then ok_list [denver]
  else ok_list [].

(** A service that answers the [n]-th request with the [n]-th entry of
    a script, and refuses connections afterwards. *)
Definition scripted (script : list (Outcome Rat.t))
           (n : nat) (url : str) (params : Params Rat.t) : Outcome Rat.t :=
  nth n script (ConnectError "connection refused").

(** One 429 and then the sample response. *)
Definition retry_once_script : list (Outcome Rat.t) :=
  [status 429 "Too Many Requests"; ok_list [boulder]].

Definition retry_once : System Rat.t := start (scripted retry_once_script).

Definition answer_of (o : Outcome Rat.t) : Response Rat.t :=
  match o with
  | Answer r => r
  | _ => mkResponse 0 "" None
  end.

Definition q_boulder : Params Rat.t := [("q", PStr "Boulder"); ("limit", PInt 5)].

(** A cache filled to capacity: keys "0", "1", ..., stored at times
    0, 1, ... *)
Definition key_of (i : nat) : str := int_repr (Z.of_nat i).

Definition fill_ops (n : nat) : list (CacheOp Rat.t) :=
  map (fun i => OpPut (key_of i) (BodyList []) (Fin (inject_Z (Z.of_nat i))))
      (seq 0 n).

Definition cache_after (ops : list (CacheOp Rat.t)) : Cache Rat.t :=
  match run_ops ops [] with
  | Ok c => c
  | Raise _ => []
  end.

Definition full_cache : Cache Rat.t :=
  cache_after (fill_ops NominatimConfig.CACHE_MAX_SIZE).

(** A service for reverse geocoding around (40.0, -105.0): the
    building probe finds a place at the query point itself, the street
    probe one a little to the north, the suburb probe gets a server
    error and the city probe no connection; the viewbox search finds
    nothing. *)
Definition at_the_point : RawPlace Rat.t :=
  place "40.0" "-105.0" "1 Main Street" None (Some 30%Z) "house".

Definition up_the_road : RawPlace Rat.t :=
  place "40.001" "-105.0" "Main Street" None (Some 26%Z) "residential".

Definition around_main_street (n : nat) (url : str) (params : Params Rat.t)
  : Outcome Rat.t :=
  if zoom_is ZoomLevel.BUILDING params then ok_dict at_the_point
  else if zoom_is ZoomLevel.STREET params then ok_dict up_the_road
  else if zoom_is ZoomLevel.SUBURB params then status 500 "Internal Server Error"
  else if zoom_is ZoomLevel.CITY params then ConnectError "connection refused"
  else ok_list [].
End Demo.

(* ================================================================= *)
(** ** More sample services *)

Module Samples.
Import Rat.

(** A service that answers 500 once and refuses connections
    afterwards. *)
Definition failing : System Rat.t :=
  Demo.start (Demo.scripted [Demo.status 500 "Internal Server Error"]).

(** A service that answers 503 once and refuses connections
    afterwards. *)
Definition flaky : System Rat.t :=
  Demo.start (Demo.scripted [Demo.status 503 "Service Unavailable"]).

(** A service that never finds anything. *)
Definition nothing_found : System Rat.t :=
  Demo.start (fun _ _ _ => Demo.ok_list []).

(** A place the service sends without coordinates. *)
Definition nowhere : RawPlace Rat.t :=
  mkRawPlace None None (Some "Nowhere") None None None None None None None None.

(** A service whose second result has no coordinates. *)
Definition half_broken : System Rat.t :=
  Demo.start (fun _ _ _ => Demo.ok_list [Demo.boulder; nowhere; Demo.denver]).

(** A service that places every coordinate in Boulder. *)
Definition in_boulder : System Rat.t :=
  Demo.start (fun _ _ _ => Demo.ok_dict Demo.boulder).

(** The state [seconds] later, nothing else having happened. *)
Definition later (seconds : Q) (s : System Rat.t) : System Rat.t :=
  mkSystem (self s)
    (mkWorld (Rat.add (time_time (world s)) (Fin seconds))
             (Rat.add (time_monotonic (world s)) (Fin seconds))
             (server (world s)) (events (world s))).

(** The client more than an hour after it looked up Boulder. *)
Definition stale : System Rat.t :=
  later 4000 (snd (_request "search" Demo.q_boulder (Demo.start Demo.colorado))).

(** The sample search response, parsed. *)
Definition boulder_item : GeocodeItem.t Rat.t :=
  match _parse_search_result Demo.boulder with
  | Ok item => item
  | Raise _ =>
      GeocodeItem.mk (Fin 0) (Fin 0) EmptyString
        (mkBbox (Fin 0) (Fin 0) (Fin 0) (Fin 0))
        None None None None None None None
  end.


(** Two boxes, one around Boulder and one around Denver. *)
Definition boulder_box : Bbox Rat.t :=
  mkBbox (Fin (-1053014 # 10000)) (Fin (399138 # 10000))
         (Fin (-1051731 # 10000)) (Fin (40094 # 1000)).

Definition denver_box : Bbox Rat.t :=
  mkBbox (Fin (-1050003 # 10000)) (Fin (397292 # 10000))
         (Fin (-1049803 # 10000)) (Fin (397492 # 10000)).
End Samples.

(* ================================================================= *)
(** * Notions used in the statements *)

Section RunsInOrder.
Context {E S : Type}.

(** A comprehension that returns has run its body on every element in
    order, each run starting where the previous one stopped. *)
Inductive runs_in_order {A B} (f : A -> M E S B)
  : list A -> S -> list B -> S -> Prop :=
| rio_nil s : runs_in_order f [] s [] s
| rio_cons x xs y ys s s1 s' :
    f x s = (Ok y, s1) ->
    runs_in_order f xs s1 ys s' ->
    runs_in_order f (x :: xs) s (y :: ys) s'.
End RunsInOrder.

Section CacheNotions.
Context {F : Type} `{FloatOps F}.
Implicit Types (cache d : Cache F) (key k : str) (stamp : str -> nat).

(** The part of the invariant a sub-dictionary inherits. *)
Definition sorted_below stamp (n : nat) d : Prop :=
  recency_sorted stamp d /\ Forall (fun kv => stamp (fst kv) < n) d.

Definition cache_inv stamp (n : nat) cache : Prop :=
  sorted_below stamp n cache /\
  List.length cache <= NominatimConfig.CACHE_MAX_SIZE.

(** The operation is a put of [key]. *)
Definition puts_key (key : str) (op : CacheOp F) : Prop :=
  match op with
  | OpPut k _ _ => k = key
  | OpGet _ _ => False
  end.
End CacheNotions.

Section RequestNotions.
Context {F : Type} `{FloatOps F} `{HashOps}.
Implicit Types (s : System F).

(** What a step leaves alone: the service, the cache and the
    configuration of the client. *)
Definition frame s s' : Prop :=
  server (world s') = server (world s) /\
  _cache (self s') = _cache (self s) /\
  _base_url (self s') = _base_url (self s) /\
  _email (self s') = _email (self s).

(** What [_request] raises or returns for the response its retry loop
    ends with. *)
Definition terminal_result (response : Response F) : result (Exc F) (Body F) :=
  if (status_code response =? 429)%Z then
    Raise (mkExc RuntimeError RATE_LIMITED)
  else if negb (status_code response =? 200)%Z then
    Raise (mkExc RuntimeError
             (API_ERROR (status_code response) (str_take 200 (text response))))
  else match json response with
       | Some payload => Ok payload
       | None => Raise (mkExc JSONDecodeError InvalidJSON)
       end.
End RequestNotions.

Section GeocoderNotions.
Context {F : Type} `{FloatOps F}.

(** Empty or made of whitespace only. *)
Definition blank (s : str) : Prop :=
  Forall (fun c => isspace c = true) (str_chars s).

(** The pairs of neighbours of a list, in order. *)
Fixpoint consecutive {A} (l : list A) : list (A * A) :=
  match l with
  | a :: (b :: _) as rest => (a, b) :: consecutive rest
  | _ => []
  end.

(** The haversine distance between two resolved waypoints. *)
Definition waypoint_distance (ab : RouteWaypointItem.t F * RouteWaypointItem.t F) : F :=
  haversine_distance
    (RouteWaypointItem.lat (fst ab)) (RouteWaypointItem.lon (fst ab))
    (RouteWaypointItem.lat (snd ab)) (RouteWaypointItem.lon (snd ab)).

(** The leg between two resolved waypoints. *)
Definition leg_between (ab : RouteWaypointItem.t F * RouteWaypointItem.t F)
  : RouteLegItem.t F :=
  RouteLegItem.mk (RouteWaypointItem.name (fst ab)) (RouteWaypointItem.name (snd ab))
                  (py_round (waypoint_distance ab) 1).

(** The waypoint made from a geocode result. *)
Definition waypoint_of (item : GeocodeItem.t F) : RouteWaypointItem.t F :=
  RouteWaypointItem.mk (GeocodeItem.display_name item) (GeocodeItem.lat item)
                       (GeocodeItem.lon item) (GeocodeItem.bbox item).

(** Exactly one of [results] and [error] is set. *)
Definition exactly_one_set (item : BatchItem.t F) : Prop :=
  (BatchItem.results item <> None /\ BatchItem.error item = None) \/
  (BatchItem.results item = None /\ BatchItem.error item <> None).

(** The square of half-width [buffer] around a point. *)
Definition square_around (lat lon buffer : F) : Bbox F :=
  mkBbox (fsub lon buffer) (fsub lat buffer) (fadd lon buffer) (fadd lat buffer).
End GeocoderNotions.

(** *** Requests that differ only in case and whitespace *)

(** An upper-case letter of the code points below 256. *)
Definition is_upper (c : ascii) : bool :=
  let n := N_of_ascii c in
  ((65 <=? n) && (n <=? 90) || (192 <=? n) && (n <=? 222) && negb (n =? 215))%N.

(** [lower] is the lower-case form of the upper-case letter [upper]. *)
Definition case_pair (upper lower : ascii) : Prop :=
  is_upper upper = true /\ N_of_ascii lower = (N_of_ascii upper + 32)%N.

(** The same character up to case. *)
Definition same_letter (c1 c2 : ascii) : Prop :=
  c1 = c2 \/ case_pair c1 c2 \/ case_pair c2 c1.

(** A non-empty run of whitespace. *)
Definition whitespace_run (r : str) : Prop :=
  r <> EmptyString /\ Forall (fun c => isspace c = true) (str_chars r).

(** Two strings that differ only in the case of their characters and in
    what their whitespace runs are made of. *)
Inductive str_variant : str -> str -> Prop :=
| sv_empty : str_variant EmptyString EmptyString
| sv_letter c1 c2 s1 s2 :
    isspace c1 = false -> isspace c2 = false -> same_letter c1 c2 ->
    str_variant s1 s2 ->
    str_variant (String c1 s1) (String c2 s2)
| sv_run r1 r2 s1 s2 :
    whitespace_run r1 -> whitespace_run r2 ->
    str_variant s1 s2 ->
    str_variant (r1 ++ s1)%string (r2 ++ s2)%string.


Section ParamVariants.
Context {F : Type}.

Definition value_variant (v1 v2 : ParamValue F) : Prop :=
  match v1, v2 with
  | PStr s1, PStr s2 => str_variant s1 s2
  | _, _ => v1 = v2
  end.

(** The same keys in the same order, with values that are variants of
    each other. *)
Definition params_variant (p1 p2 : Params F) : Prop :=
  Forall2 (fun kv1 kv2 => fst kv1 = fst kv2 /\ value_variant (snd kv1) (snd kv2))
          p1 p2.
End ParamVariants.


(** *** Sums and rounding read exactly *)

Section ExactArithmetic.
Context {F : Type} `{FloatOps F}.

(** A reading of floats as rationals under which, on the floats [fin]
    marks, [0.0] is zero, [+] is exact, and [round(x, 1)] moves a
    value by at most a twentieth. *)
Definition exact_sum_and_round (val : F -> Q) (fin : F -> Prop) : Prop :=
  fin (flit 0) /\ (val (flit 0) == 0)%Q /\
  (forall a b, fin a -> fin b ->
               fin (fadd a b) /\ (val (fadd a b) == val a + val b)%Q) /\
  (forall x, fin x -> (Qabs (val (py_round x 1) - val x) <= 1 # 20)%Q).

Definition sum_values (val : F -> Q) (xs : list F) : Q :=
  fold_right (fun x acc => (val x + acc)%Q) 0%Q xs.
End ExactArithmetic.

(** *** Traces of the request executor *)

Section TraceNotions.
Context {F : Type}.

(** What a request to [url] with [params] may do to the world: sleep,
    or send exactly that GET. *)
Definition request_event (url : str) (params : Params F) (ev : Event F) : Prop :=
  match ev with
  | EvSleep _ _ => True
  | EvGet u p => u = url /\ p = params
  end.

(** The GETs among some events. *)
Definition gets_of (evs : list (Event F)) : list (Event F) := filter (@is_get F) evs.

(** Distinct keys and no more entries than the cache may hold. *)
Definition cache_bounded (cache : Cache F) : Prop :=
  NoDup (od_keys cache) /\ List.length cache <= NominatimConfig.CACHE_MAX_SIZE.
End TraceNotions.

(** *** Orders and exact clocks *)

Section OrderNotions.
Context {F : Type} `{FloatOps F}.

(** [<] on floats is a strict order (it is one on binary64, where a
    NaN compares with nothing). *)
Definition lt_strict_order : Prop :=
  (forall a b, fltb a b = true -> fltb b a = false) /\
  (forall a b c, fltb a b = true -> fltb b c = true -> fltb a c = true).





(** Every component of [b] lies inside [u]: nothing of [b] is west or
    south of [u]'s corner, nothing east or north of its other
    corner. *)
Definition bbox_within (b u : Bbox F) : Prop :=
  fltb (west b) (west u) = false /\ fltb (south b) (south u) = false /\
  fgtb (east b) (east u) = false /\ fgtb (north b) (north u) = false.
End OrderNotions.

(** *** Parsing *)

Section ParseNotions.
Context {F : Type} `{FloatOps F}.

(** [float(s)] returns. *)
Definition parseable (s : str) : Prop := float_of_str s <> None.

(** The address has the key. *)
Definition has_key (address : list (str * str)) (key : str) : bool :=
  match assoc_get key address with
  | Some _ => true
  | None => false
  end.

(** What [_parse_search_result] and [_parse_reverse_result] need of a
    bounding box: none, an empty one, or four numerals. *)
Definition bbox_entries_ok (boundingbox : option (list str)) : Prop :=
  match boundingbox with
  | Some (entry :: entries) =>
      List.length (entry :: entries) = 4 /\ Forall parseable (entry :: entries)
  | _ => True
  end.

(** A field that is absent or a numeral. *)
Definition absent_or_parseable (field : option str) : Prop :=
  match field with
  | Some text => parseable text
  | None => True
  end.

(** The item passes the category filter of [nearby_places]. *)
Definition in_categories (categories : option (list str))
           (i : NearbyItem.t F) : bool :=
  match categories with
  | Some (cat :: cats) =>
      match NearbyItem.place_type i with
      | Some t => mem_str t (cat :: cats)
      | None => false
      end
  | _ => true
  end.

(** The address of a raw place, [{}] when it has none. *)
Definition address_of (raw : RawPlace F) : list (str * str) :=
  match raw_address raw with
  | Some a => a
  | None => []
  end.

(** The display names of nearby items. *)
Definition nearby_names (l : list (NearbyItem.t F)) : list str :=
  map (@NearbyItem.display_name F) l.

(** What the two collections of [nearby_places] keep true: the items
    have distinct names, every name is recorded as seen and is not
    empty, and every item has its distance. *)
Definition nearby_locals_ok (l : @NearbyLocals F) : Prop :=
  NoDup (nearby_names (items l)) /\
  Forall (fun i => In (NearbyItem.display_name i) (seen_names l) /\
                   NearbyItem.display_name i <> EmptyString /\
                   NearbyItem.distance_m i <> None) (items l).
End ParseNotions.

(** *** The cache key *)

Section KeyNotions.
Context {F : Type} `{FloatOps F}.

(** An item of the dict with its value normalised. *)
Definition normalize_item (kv : str * ParamValue F) : str * ParamValue F :=
  (fst kv, normalize_value (snd kv)).
End KeyNotions.

(* ================================================================= *)
(** * Properties *)

Unset Implicit Arguments.

(** ** Ordered dictionaries *)

Section OrderedDictFacts.
Variable V : Type.
Implicit Types (d : OrderedDict V) (key : str) (v : V).

Lemma mem_str_In key (l : list str) : mem_str key l = true <-> In key l.
Proof.
  unfold mem_str. rewrite existsb_exists. split.
  - intros [x [Hin Heq]]. apply String.eqb_eq in Heq. now subst.
  - intros Hin. exists key. split; [assumption | apply String.eqb_refl].
Qed.

Lemma od_contains_In key d : od_contains key d = true <-> In key (od_keys d).
Proof. apply mem_str_In. Qed.

Lemma od_contains_false key d : od_contains key d = false <-> ~ In key (od_keys d).
Proof.
  rewrite <- od_contains_In. destruct (od_contains key d); split; congruence.
Qed.

Lemma od_get_absent key d : ~ In key (od_keys d) -> od_get key d = None.
Proof.
  induction d as [| [k v] d IH]; simpl; intros Hn; [reflexivity |].
  destruct (String.eqb_spec key k) as [-> | Hne].
  - exfalso. apply Hn. now left.
  - apply IH. intros Hin. apply Hn. now right.
Qed.

Lemma od_get_present key d : In key (od_keys d) -> exists v, od_get key d = Some v.
Proof.
  induction d as [| [k v] d IH]; simpl; intros Hin; [contradiction |].
  destruct (String.eqb_spec key k) as [-> | Hne].
  - now exists v.
  - destruct Hin as [Heq | Hin]; [congruence | now apply IH].
Qed.

Lemma od_del_keys key d : ~ In key (od_keys (od_del key d)).
Proof.
  unfold od_del, od_keys. intros Hin. apply in_map_iff in Hin.
  destruct Hin as [[k v] [Heq Hin]]. simpl in Heq. subst k.
  apply filter_In in Hin. destruct Hin as [_ Hb]. simpl in Hb.
  now rewrite String.eqb_refl in Hb.
Qed.

Lemma od_del_absent key d : ~ In key (od_keys d) -> od_del key d = d.
Proof.
  induction d as [| [k v] d IH]; simpl; intros Hn; [reflexivity |].
  destruct (String.eqb_spec key k) as [-> | Hne]; simpl.
  - exfalso. apply Hn. now left.
  - f_equal. apply IH. intros Hin. apply Hn. now right.
Qed.

Lemma od_del_In key k d :
  In k (od_keys (od_del key d)) <-> In k (od_keys d) /\ k <> key.
Proof.
  unfold od_del, od_keys. rewrite !in_map_iff. split.
  - intros [[k' v] [Heq Hin]]. simpl in Heq. subst k'.
    apply filter_In in Hin. destruct Hin as [Hin Hb]. simpl in Hb. split.
    + exists (k, v). now split.
    + intros ->. now rewrite String.eqb_refl in Hb.
  - intros [[[k' v] [Heq Hin]] Hne]. simpl in Heq. subst k'.
    exists (k, v). split; [reflexivity |]. apply filter_In. split; [assumption |].
    simpl. destruct (String.eqb_spec key k); [congruence | reflexivity].
Qed.

Lemma od_del_length_le key d : List.length (od_del key d) <= List.length d.
Proof. apply filter_length_le. Qed.

Lemma od_del_length_present key d :
  In key (od_keys d) -> S (List.length (od_del key d)) <= List.length d.
Proof.
  induction d as [| [k v] d IH]; simpl; intros Hin; [contradiction |].
  destruct (String.eqb_spec key k) as [-> | Hne]; simpl.
  - pose proof (od_del_length_le k d). lia.
  - destruct Hin as [Heq | Hin]; [congruence |]. specialize (IH Hin). lia.
Qed.

Lemma od_del_NoDup key d : NoDup (od_keys d) -> NoDup (od_keys (od_del key d)).
Proof.
  induction d as [| [k v] d IH]; simpl; intros Hnd; [constructor |].
  inversion Hnd as [| ? ? Hnotin Hnd']; subst.
  destruct (String.eqb_spec key k) as [-> | Hne]; simpl.
  - now apply IH.
  - constructor; [| now apply IH].
    intros Hin. apply od_del_In in Hin. now destruct Hin.
Qed.

Lemma od_set_absent key v d :
  ~ In key (od_keys d) -> od_set key v d = d ++ [(key, v)].
Proof.
  induction d as [| [k v'] d IH]; simpl; intros Hn; [reflexivity |].
  destruct (String.eqb_spec key k) as [-> | Hne].
  - exfalso. apply Hn. now left.
  - f_equal. apply IH. intros Hin. apply Hn. now right.
Qed.

Lemma od_set_last key v v0 d :
  ~ In key (od_keys d) -> od_set key v (d ++ [(key, v0)]) = d ++ [(key, v)].
Proof.
  induction d as [| [k v'] d IH]; simpl; intros Hn.
  - now rewrite String.eqb_refl.
  - destruct (String.eqb_spec key k) as [-> | Hne].
    + exfalso. apply Hn. now left.
    + f_equal. apply IH. intros Hin. apply Hn. now right.
Qed.

Lemma od_get_last key v d :
  ~ In key (od_keys d) -> od_get key (d ++ [(key, v)]) = Some v.
Proof.
  induction d as [| [k v'] d IH]; simpl; intros Hn.
  - now rewrite String.eqb_refl.
  - destruct (String.eqb_spec key k) as [-> | Hne].
    + exfalso. apply Hn. now left.
    + apply IH. intros Hin. apply Hn. now right.
Qed.

Lemma od_keys_app d1 d2 : od_keys (d1 ++ d2) = od_keys d1 ++ od_keys d2.
Proof. apply map_app. Qed.

Lemma od_move_to_end_present key v d :
  od_get key d = Some v -> od_move_to_end key d = od_del key d ++ [(key, v)].
Proof. unfold od_move_to_end. now intros ->. Qed.
End OrderedDictFacts.

(** ** The response cache *)

Section CacheFacts.
Context {F : Type} `{FloatOps F}.
Implicit Types (cache : Cache F) (key : str) (now : F) (payload : Body F).

Lemma cache_get_absent key now cache :
  ~ In key (od_keys cache) -> _cache_get key now cache = (None, cache).
Proof.
  intros Hn. unfold _cache_get.
  apply od_contains_false in Hn. now rewrite Hn.
Qed.

Lemma cache_get_expired key now cache entry :
  od_get key cache = Some entry ->
  fgtb (fsub now (timestamp entry)) (flit NominatimConfig.CACHE_TTL_SECONDS) = true ->
  _cache_get key now cache = (None, od_del key cache).
Proof.
  intros Hget Hexp. unfold _cache_get.
  destruct (od_contains key cache) eqn:Hc; simpl.
  - rewrite Hget. now rewrite Hexp.
  - apply od_contains_false in Hc. apply od_get_absent in Hc. congruence.
Qed.

Lemma cache_get_fresh key now cache entry :
  od_get key cache = Some entry ->
  fgtb (fsub now (timestamp entry)) (flit NominatimConfig.CACHE_TTL_SECONDS) = false ->
  _cache_get key now cache
  = (Some (data entry), od_del key cache ++ [(key, entry)]).
Proof.
  intros Hget Hfresh. unfold _cache_get.
  destruct (od_contains key cache) eqn:Hc; simpl.
  - rewrite Hget. rewrite Hfresh.
    now rewrite (od_move_to_end_present _ _ _ _ Hget).
  - apply od_contains_false in Hc. apply od_get_absent in Hc. congruence.
Qed.

(** What a get that returns a payload has done. *)
Lemma cache_get_hit key now cache payload cache' :
  _cache_get key now cache = (Some payload, cache') ->
  exists entry,
    od_get key cache = Some entry /\ data entry = payload /\
    fgtb (fsub now (timestamp entry)) (flit NominatimConfig.CACHE_TTL_SECONDS) = false /\
    cache' = od_del key cache ++ [(key, entry)].
Proof.
  unfold _cache_get. destruct (od_contains key cache) eqn:Hc; simpl; [| discriminate].
  destruct (od_get key cache) as [entry |] eqn:Hget; [| discriminate].
  destruct (fgtb (fsub now (timestamp entry))
                 (flit NominatimConfig.CACHE_TTL_SECONDS)) eqn:Hexp;
    [discriminate |].
  intros Heq. inversion Heq; subst. exists entry.
  rewrite (od_move_to_end_present _ _ _ _ Hget). auto.
Qed.

(** What a get that reports absence has done. *)
Lemma cache_get_miss key now cache cache' :
  _cache_get key now cache = (None, cache') ->
  cache' = od_del key cache.
Proof.
  unfold _cache_get. destruct (od_contains key cache) eqn:Hc; simpl.
  - destruct (od_get key cache) as [entry |] eqn:Hget.
    + destruct (fgtb _ _); [| discriminate]. now inversion 1.
    + apply od_contains_In in Hc. apply od_get_present in Hc.
      destruct Hc as [v Hv]. congruence.
  - inversion 1; subst. apply od_contains_false in Hc.
    now rewrite od_del_absent.
Qed.

Lemma cache_put_existing key payload now cache :
  In key (od_keys cache) ->
  _cache_put key payload now cache
  = Ok (od_del key cache ++ [(key, mkCacheEntry payload now)]).
Proof.
  intros Hin. unfold _cache_put.
  pose proof Hin as Hc. apply od_contains_In in Hc. rewrite Hc.
  destruct (od_get_present _ _ _ Hin) as [v Hv].
  rewrite (od_move_to_end_present _ _ _ _ Hv).
  rewrite od_set_last; [reflexivity | apply od_del_keys].
Qed.

Lemma cache_put_new_room key payload now cache :
  ~ In key (od_keys cache) ->
  List.length cache < NominatimConfig.CACHE_MAX_SIZE ->
  _cache_put key payload now cache
  = Ok (cache ++ [(key, mkCacheEntry payload now)]).
Proof.
  intros Hn Hlen. unfold _cache_put.
  pose proof Hn as Hc. apply od_contains_false in Hc. rewrite Hc.
  destruct (Nat.leb_spec NominatimConfig.CACHE_MAX_SIZE (List.length cache)); [lia |].
  now rewrite od_set_absent.
Qed.

Lemma cache_put_new_full key payload now cache :
  ~ In key (od_keys cache) ->
  NominatimConfig.CACHE_MAX_SIZE <= List.length cache ->
  exists lru rest,
    cache = lru :: rest /\
    _cache_put key payload now cache
    = Ok (rest ++ [(key, mkCacheEntry payload now)]).
Proof.
  intros Hn Hlen. unfold _cache_put.
  pose proof Hn as Hc. apply od_contains_false in Hc. rewrite Hc.
  destruct (Nat.leb_spec NominatimConfig.CACHE_MAX_SIZE (List.length cache)); [| lia].
  destruct cache as [| lru rest].
  - exfalso. unfold NominatimConfig.CACHE_MAX_SIZE in Hlen. simpl in Hlen. lia.
  - exists lru, rest. split; [reflexivity |]. simpl.
    rewrite od_set_absent; [reflexivity |].
    intros Hin. apply Hn. simpl. now right.
Qed.

(** [_cache_put] always returns. *)
Lemma cache_put_total key payload now cache :
  exists cache', _cache_put key payload now cache = Ok cache'.
Proof.
  destruct (in_dec string_dec key (od_keys cache)) as [Hin | Hn].
  - eexists. now apply cache_put_existing.
  - destruct (Nat.lt_ge_cases (List.length cache) NominatimConfig.CACHE_MAX_SIZE).
    + eexists. now apply cache_put_new_room.
    + destruct (cache_put_new_full key payload now cache Hn) as (lru & rest & _ & Hput);
        [assumption |]. eexists. exact Hput.
Qed.
End CacheFacts.

(** ** Recency order of the cache *)

Section CacheInvariant.
Context {F : Type} `{FloatOps F}.
Implicit Types (cache d : Cache F) (key k : str) (stamp : str -> nat).

Lemma StronglySorted_weaken (A : Type) (R R' : A -> A -> Prop) (l : list A) :
  (forall a b, In a l -> In b l -> R a b -> R' a b) ->
  StronglySorted R l -> StronglySorted R' l.
Proof.
  induction l as [| x l IH]; intros Himp Hs; [constructor |].
  apply StronglySorted_inv in Hs. destruct Hs as [Hs Hall].
  constructor.
  - apply IH; [| assumption]. intros a b Ha Hb. apply Himp; now right.
  - rewrite Forall_forall in *. intros y Hy.
    apply Himp; [now left | now right | now apply Hall].
Qed.

Lemma StronglySorted_filter (A : Type) (R : A -> A -> Prop) (p : A -> bool) (l : list A) :
  StronglySorted R l -> StronglySorted R (filter p l).
Proof.
  induction l as [| x l IH]; intros Hs; [constructor |].
  apply StronglySorted_inv in Hs. destruct Hs as [Hs Hall]. simpl.
  destruct (p x); [| now apply IH].
  constructor; [now apply IH |].
  rewrite Forall_forall in *. intros y Hy. apply filter_In in Hy.
  apply Hall. now destruct Hy.
Qed.

Lemma StronglySorted_snoc (A : Type) (R : A -> A -> Prop) (l : list A) (x : A) :
  StronglySorted R l -> Forall (fun y => R y x) l -> StronglySorted R (l ++ [x]).
Proof.
  induction l as [| y l IH]; intros Hs Hall; simpl.
  - repeat constructor.
  - apply StronglySorted_inv in Hs. destruct Hs as [Hs Hy].
    inversion Hall as [| ? ? Hyx Hall']; subst.
    constructor; [now apply IH |].
    apply Forall_app. split; [assumption | now constructor].
Qed.

(** Strictly increasing stamps make the keys distinct. *)
Lemma recency_sorted_NoDup stamp cache :
  recency_sorted stamp cache -> NoDup (od_keys cache).
Proof.
  unfold recency_sorted. induction cache as [| [k v] cache IH]; intros Hs; simpl.
  - constructor.
  - apply StronglySorted_inv in Hs. destruct Hs as [Hs Hall].
    constructor; [| now apply IH].
    intros Hin. apply in_map_iff in Hin. destruct Hin as [[k' v'] [Heq Hin]].
    simpl in Heq. subst k'. rewrite Forall_forall in Hall.
    specialize (Hall _ Hin). simpl in Hall. lia.
Qed.


Lemma sorted_below_del stamp n key d :
  sorted_below stamp n d -> sorted_below stamp n (od_del key d).
Proof.
  intros [Hs Hall]. split.
  - now apply StronglySorted_filter.
  - unfold od_del. rewrite Forall_forall in *. intros kv Hin.
    apply filter_In in Hin. apply Hall. now destruct Hin.
Qed.

Lemma sorted_below_tail stamp n kv d :
  sorted_below stamp n (kv :: d) -> sorted_below stamp n d.
Proof.
  intros [Hs Hall]. apply StronglySorted_inv in Hs.
  inversion Hall; subst. split; tauto.
Qed.

(** Using [key] as operation number [n] puts it behind every other
    entry. *)
Lemma sorted_below_use stamp n key d (v : CacheEntry F) :
  sorted_below stamp n d -> ~ In key (od_keys d) ->
  sorted_below (fun k => if String.eqb k key then n else stamp k) (S n)
               (d ++ [(key, v)]).
Proof.
  intros [Hs Hall] Hn.
  assert (Hother : forall kv, In kv d -> String.eqb (fst kv) key = false).
  { intros [k' v'] Hin. simpl. destruct (String.eqb_spec k' key); [| reflexivity].
    subst k'. exfalso. apply Hn. apply in_map_iff. now exists (key, v'). }
  rewrite Forall_forall in Hall. split.
  - apply StronglySorted_snoc.
    + eapply StronglySorted_weaken; [| exact Hs].
      intros a b Ha Hb Hab. simpl.
      now rewrite (Hother _ Ha), (Hother _ Hb).
    + rewrite Forall_forall. intros kv Hin. simpl.
      rewrite (Hother _ Hin), String.eqb_refl. now apply Hall.
  - apply Forall_app. split.
    + rewrite Forall_forall. intros kv Hin.
      rewrite (Hother _ Hin). specialize (Hall _ Hin). lia.
    + constructor; [| constructor]. simpl. rewrite String.eqb_refl. lia.
Qed.

Lemma cache_inv_NoDup stamp n cache :
  cache_inv stamp n cache -> NoDup (od_keys cache).
Proof. intros [[Hs _] _]. now apply recency_sorted_NoDup with stamp. Qed.

(** One operation keeps the invariant and never raises. *)
Lemma apply_op_inv stamp n cache (op : CacheOp F) :
  cache_inv stamp n cache ->
  exists cache',
    apply_op op cache = Ok cache' /\
    cache_inv (stamp_op op cache n stamp) (S n) cache'.
Proof.
  intros [Hsb Hlen]. destruct op as [key now | key payload now].
  - (* get *)
    simpl. eexists. split; [reflexivity |].
    unfold stamp_op, used_key.
    destruct (_cache_get key now cache) as [[payload |] cache'] eqn:Hget; simpl.
    + apply cache_get_hit in Hget.
      destruct Hget as (entry & Hentry & _ & _ & ->).
      assert (Hin : In key (od_keys cache)).
      { destruct (in_dec string_dec key (od_keys cache)) as [Hin | Hn]; [assumption |].
        apply od_get_absent in Hn. congruence. }
      split.
      * apply sorted_below_use; [now apply sorted_below_del | apply od_del_keys].
      * rewrite length_app. simpl.
        pose proof (od_del_length_present _ key cache Hin). lia.
    + apply cache_get_miss in Hget. subst cache'. split.
      * destruct (sorted_below_del stamp n key cache Hsb) as [Hs Hall].
        split; [assumption |]. eapply Forall_impl; [| exact Hall].
        simpl. intros. lia.
      * pose proof (od_del_length_le _ key cache). lia.
  - (* put *)
    simpl. unfold stamp_op, used_key.
    destruct (in_dec string_dec key (od_keys cache)) as [Hin | Hn].
    + rewrite cache_put_existing by assumption.
      eexists. split; [reflexivity |]. split.
      * apply sorted_below_use; [now apply sorted_below_del | apply od_del_keys].
      * rewrite length_app. simpl.
        pose proof (od_del_length_present _ key cache Hin). lia.
    + destruct (Nat.lt_ge_cases (List.length cache) NominatimConfig.CACHE_MAX_SIZE)
        as [Hroom | Hfull].
      * rewrite cache_put_new_room by assumption.
        eexists. split; [reflexivity |]. split.
        -- now apply sorted_below_use.
        -- rewrite length_app. simpl. lia.
      * destruct (cache_put_new_full key payload now cache Hn Hfull)
          as (lru & rest & -> & Hput).
        rewrite Hput. eexists. split; [reflexivity |]. split.
        -- apply sorted_below_use; [now apply sorted_below_tail with lru |].
           intros Hin. apply Hn. simpl. now right.
        -- rewrite length_app. simpl in *. lia.
Qed.

(** A sequence of operations keeps the invariant and never raises. *)
Lemma run_ops_inv (ops : list (CacheOp F)) : forall stamp n cache,
  cache_inv stamp n cache ->
  exists cache',
    run_ops ops cache = Ok cache' /\
    cache_inv (last_used ops cache n stamp) (List.length ops + n) cache'.
Proof.
  induction ops as [| op ops IH]; intros stamp n cache Hinv; simpl.
  - now exists cache.
  - destruct (apply_op_inv stamp n cache op Hinv) as (cache1 & Hop & Hinv1).
    rewrite Hop. destruct (IH _ _ _ Hinv1) as (cache' & Hrun & Hinv').
    exists cache'. split; [assumption |].
    now replace (S (List.length ops + n)) with (List.length ops + S n) by lia.
Qed.

Lemma cache_inv_empty : cache_inv (fun _ => 0) 1 (@nil (str * CacheEntry F)).
Proof.
  repeat split; try constructor. simpl. apply Nat.le_0_l.
Qed.

(** Every cache reached from the empty one is bounded, duplicate-free
    and ordered by last use. *)
Lemma reachable_inv (ops : list (CacheOp F)) cache :
  run_ops ops [] = Ok cache ->
  cache_inv (last_used ops [] 1 (fun _ => 0)) (List.length ops + 1) cache.
Proof.
  intros Hrun.
  destruct (run_ops_inv ops _ _ _ cache_inv_empty) as (cache' & Hrun' & Hinv).
  congruence.
Qed.


Lemma apply_op_keys (op : CacheOp F) cache cache' key :
  apply_op op cache = Ok cache' ->
  In key (od_keys cache') -> In key (od_keys cache) \/ puts_key key op.
Proof.
  destruct op as [k now | k payload now]; simpl.
  - intros Heq Hin. inversion Heq; subst. left.
    destruct (_cache_get k now cache) as [[payload |] c1] eqn:Hget; simpl in Hin.
    + apply cache_get_hit in Hget. destruct Hget as (entry & Hentry & _ & _ & ->).
      rewrite od_keys_app in Hin. apply in_app_or in Hin. destruct Hin as [Hin | Hin].
      * apply od_del_In in Hin. tauto.
      * simpl in Hin. destruct Hin as [<- | []].
        destruct (in_dec string_dec k (od_keys cache)) as [Hin | Hn]; [assumption |].
        apply od_get_absent in Hn. congruence.
    + apply cache_get_miss in Hget. subst c1. apply od_del_In in Hin. tauto.
  - intros Hput Hin.
    destruct (string_dec k key) as [-> | Hne]; [now right | left].
    destruct (in_dec string_dec k (od_keys cache)) as [Hk | Hn].
    + rewrite cache_put_existing in Hput by assumption. inversion Hput; subst.
      rewrite od_keys_app in Hin. apply in_app_or in Hin. destruct Hin as [Hin | Hin].
      * apply od_del_In in Hin. tauto.
      * simpl in Hin. destruct Hin as [-> | []]. congruence.
    + destruct (Nat.lt_ge_cases (List.length cache) NominatimConfig.CACHE_MAX_SIZE)
        as [Hroom | Hfull].
      * rewrite cache_put_new_room in Hput by assumption. inversion Hput; subst.
        rewrite od_keys_app in Hin. apply in_app_or in Hin. destruct Hin as [Hin | Hin].
        -- assumption.
        -- simpl in Hin. destruct Hin as [-> | []]. congruence.
      * destruct (cache_put_new_full k payload now cache Hn Hfull)
          as (lru & rest & -> & Hput').
        rewrite Hput' in Hput. inversion Hput; subst.
        rewrite od_keys_app in Hin. apply in_app_or in Hin. destruct Hin as [Hin | Hin].
        -- simpl. now right.
        -- simpl in Hin. destruct Hin as [-> | []]. congruence.
Qed.

Lemma run_ops_keys (ops : list (CacheOp F)) : forall cache cache' key,
  run_ops ops cache = Ok cache' ->
  In key (od_keys cache') ->
  In key (od_keys cache) \/ Exists (puts_key key) ops.
Proof.
  induction ops as [| op ops IH]; simpl; intros cache cache' key Hrun Hin.
  - inversion Hrun; subst. now left.
  - destruct (apply_op op cache) as [c1 | e] eqn:Hop; [| discriminate].
    destruct (IH _ _ _ Hrun Hin) as [Hc1 | Hex].
    + destruct (apply_op_keys _ _ _ _ Hop Hc1); [now left | right; now constructor].
    + right. now apply Exists_cons_tl.
Qed.
End CacheInvariant.

(** ** The monad *)

Section MonadFacts.
Context {E S : Type}.

Lemma bind_ok {A B} (m : M E S A) (k : A -> M E S B) s a s' :
  m s = (Ok a, s') -> bind m k s = k a s'.
Proof. unfold bind. now intros ->. Qed.

Lemma bind_raise {A B} (m : M E S A) (k : A -> M E S B) s e s' :
  m s = (Raise e, s') -> bind m k s = (Raise e, s').
Proof. unfold bind. now intros ->. Qed.

Lemma bind_lift_ok {A B} (r : result E A) (k : A -> M E S B) s a :
  r = Ok a -> bind (lift_result r) k s = k a s.
Proof. now intros ->. Qed.

Lemma bind_lift_raise {A B} (r : result E A) (k : A -> M E S B) s e :
  r = Raise e -> bind (lift_result r) k s = (Raise e, s).
Proof. now intros ->. Qed.


Lemma map_m_ok {A B} (f : A -> M E S B) xs : forall s ys s',
  map_m f xs s = (Ok ys, s') <-> runs_in_order f xs s ys s'.
Proof.
  induction xs as [| x xs IH]; intros s ys s'; simpl.
  - unfold ret. split.
    + intros Heq. inversion Heq; subst. constructor.
    + intros Hr. inversion Hr; subst. reflexivity.
  - unfold bind. destruct (f x s) as [[y | e] s1] eqn:Hfx.
    + destruct (map_m f xs s1) as [[ys1 | e] s2] eqn:Hrest.
      * unfold ret. split.
        -- intros Heq. inversion Heq; subst.
           econstructor; [exact Hfx |]. now apply IH.
        -- intros Hr. inversion Hr; subst.
           match goal with
           | Hx : f x s = (Ok ?y0, ?s0) |- _ =>
               rewrite Hfx in Hx; inversion Hx; subst
           end.
           match goal with
           | Hrun : runs_in_order f xs _ _ _ |- _ =>
               apply IH in Hrun; rewrite Hrest in Hrun; now inversion Hrun
           end.
      * split; [discriminate |].
        intros Hr. inversion Hr; subst.
        match goal with
        | Hx : f x s = (Ok ?y0, ?s0) |- _ =>
            rewrite Hfx in Hx; inversion Hx; subst
        end.
        match goal with
        | Hrun : runs_in_order f xs _ _ _ |- _ =>
            apply IH in Hrun; rewrite Hrest in Hrun; discriminate
        end.
    + split; [discriminate |].
      intros Hr. inversion Hr; subst. congruence.
Qed.

Lemma runs_in_order_length {A B} (f : A -> M E S B) xs s ys s' :
  runs_in_order f xs s ys s' -> List.length ys = List.length xs.
Proof. induction 1; simpl; congruence. Qed.

(** A comprehension whose body never raises returns. *)
Lemma map_m_total {A B} (f : A -> M E S B) xs :
  (forall x s, exists y s', f x s = (Ok y, s')) ->
  forall s, exists ys s', map_m f xs s = (Ok ys, s').
Proof.
  intros Htot. induction xs as [| x xs IH]; intros s; simpl.
  - now exists [], s.
  - destruct (Htot x s) as (y & s1 & Hfx).
    destruct (IH s1) as (ys & s' & Hrest).
    exists (y :: ys), s'. unfold bind. now rewrite Hfx, Hrest.
Qed.

(** A comprehension stops at the first element whose body raises. *)
Lemma map_m_raise_at {A B} (f : A -> M E S B) pre x post : forall s ys s1 e s2,
  runs_in_order f pre s ys s1 ->
  f x s1 = (Raise e, s2) ->
  map_m f (pre ++ x :: post) s = (Raise e, s2).
Proof.
  induction pre as [| p pre IH]; intros s ys s1 e s2 Hpre Hx; simpl.
  - inversion Hpre; subst. unfold bind. now rewrite Hx.
  - inversion Hpre; subst. unfold bind at 1.
    match goal with Hp : f p s = _ |- _ => rewrite Hp end.
    unfold bind at 1. erewrite IH; eauto.
Qed.
End MonadFacts.

(** ** The request executor *)

Section RequestFacts.
Context {F : Type} `{FloatOps F} `{HashOps}.
Implicit Types (s : System F) (url : str) (params : Params F).

Lemma retryable_iff (status : Z) :
  retryable status = true <-> (status = 429 \/ status = 503)%Z.
Proof.
  unfold retryable, NominatimConfig.RETRYABLE_STATUS_CODES. simpl.
  rewrite !orb_true_iff, !Z.eqb_eq. intuition discriminate.
Qed.

Lemma http_calls_sleep (w : World F) site d t1 t2 :
  http_calls (mkWorld t1 t2 (server w) (events w ++ [EvSleep site d]))
  = http_calls w.
Proof.
  unfold http_calls. simpl. rewrite filter_app. simpl. now rewrite app_nil_r.
Qed.

Lemma http_calls_get (w : World F) url params t1 t2 :
  http_calls (mkWorld t1 t2 (server w) (events w ++ [EvGet url params]))
  = S (http_calls w).
Proof.
  unfold http_calls. simpl. rewrite filter_app, length_app. simpl. lia.
Qed.

Lemma backoff_delays_snoc (w : World F) ev t1 t2 :
  backoff_delays (mkWorld t1 t2 (server w) (events w ++ [ev]))
  = backoff_delays w ++ match ev with
                        | EvSleep RetryBackoff d => [d]
                        | _ => []
                        end.
Proof.
  unfold backoff_delays. simpl. rewrite flat_map_app. simpl.
  now rewrite app_nil_r.
Qed.


Lemma frame_refl s : frame s s.
Proof. repeat split. Qed.

Lemma frame_trans s1 s2 s3 : frame s1 s2 -> frame s2 s3 -> frame s1 s3.
Proof.
  unfold frame. intros (A1 & A2 & A3 & A4) (B1 & B2 & B3 & B4).
  repeat split; congruence.
Qed.

Lemma rate_limit_effect s :
  exists s',
    _rate_limit s = (Ok tt, s') /\ frame s s' /\
    http_calls (world s') = http_calls (world s) /\
    backoff_delays (world s') = backoff_delays (world s).
Proof.
  unfold _rate_limit, bind, gets, modify, asyncio_sleep, ret,
    set_last_request_time. simpl.
  destruct (fltb _ _); simpl.
  - eexists. split; [reflexivity |]. split; [repeat split |]. split.
    + apply http_calls_sleep.
    + unfold backoff_delays. simpl. rewrite flat_map_app. simpl.
      apply app_nil_r.
  - eexists. split; [reflexivity |]. split; [repeat split |]. split; reflexivity.
Qed.

Lemma client_get_effect url params s :
  exists s',
    client_get url params s
    = (Ok (server (world s) (http_calls (world s)) url params), s') /\
    frame s s' /\
    http_calls (world s') = S (http_calls (world s)) /\
    backoff_delays (world s') = backoff_delays (world s).
Proof.
  unfold client_get. eexists. split; [reflexivity |]. simpl.
  split; [repeat split |]. split.
  - apply http_calls_get.
  - rewrite backoff_delays_snoc. apply app_nil_r.
Qed.

Lemma backoff_sleep_effect d s :
  exists s',
    asyncio_sleep RetryBackoff d s = (Ok tt, s') /\ frame s s' /\
    http_calls (world s') = http_calls (world s) /\
    backoff_delays (world s') = backoff_delays (world s) ++ [d].
Proof.
  unfold asyncio_sleep, modify. eexists. split; [reflexivity |]. simpl.
  split; [repeat split |]. split.
  - apply http_calls_sleep.
  - apply backoff_delays_snoc.
Qed.

(** The retry loop: [k] retryable answers and then the answer
    [resp k], which is either not retryable or the one of the last
    attempt. *)
Lemma retry_loop_run url params (k : nat) :
  forall (resp : nat -> Response F) (a n : nat) last s,
  a + k <= NominatimConfig.MAX_RETRIES ->
  a + n = S NominatimConfig.MAX_RETRIES ->
  (forall j, j <= k ->
     server (world s) (http_calls (world s) + j) url params = Answer (resp j)) ->
  (forall j, j < k -> retryable (status_code (resp j)) = true) ->
  (retryable (status_code (resp k)) = false \/ a + k = NominatimConfig.MAX_RETRIES) ->
  exists s',
    retry_loop url params (seq a n) last s = (Ok (resp k), s') /\
    frame s s' /\
    http_calls (world s') = http_calls (world s) + S k /\
    backoff_delays (world s')
    = backoff_delays (world s) ++ map retry_delay (seq a k).
Proof.
  induction k as [| k IH]; intros resp a n last s Hak Han Hresp Hretry Hlast.
  - destruct n as [| n]; [lia |]. simpl.
    destruct (rate_limit_effect s) as (s1 & Hrl & Hf1 & Hc1 & Hb1).
    rewrite (bind_ok _ _ _ _ _ Hrl).
    destruct (client_get_effect url params s1) as (s2 & Hget & Hf2 & Hc2 & Hb2).
    rewrite (bind_ok _ _ _ _ _ Hget).
    destruct Hf1 as (Hsrv1 & Hrest1).
    rewrite Hsrv1, Hc1. specialize (Hresp 0 (Nat.le_refl 0)).
    rewrite Nat.add_0_r in Hresp. rewrite Hresp.
    assert (Hcond : retryable (status_code (resp 0))
                    && (a <? NominatimConfig.MAX_RETRIES) = false).
    { destruct Hlast as [-> | Heq]; [reflexivity |].
      apply andb_false_iff. right. apply Nat.ltb_ge. lia. }
    rewrite Hcond. exists s2. split; [reflexivity |]. split.
    + apply frame_trans with s1; [split; assumption | assumption].
    + split; [lia |]. simpl. rewrite app_nil_r. congruence.
  - destruct n as [| n]; [lia |]. simpl.
    destruct (rate_limit_effect s) as (s1 & Hrl & Hf1 & Hc1 & Hb1).
    rewrite (bind_ok _ _ _ _ _ Hrl).
    destruct (client_get_effect url params s1) as (s2 & Hget & Hf2 & Hc2 & Hb2).
    rewrite (bind_ok _ _ _ _ _ Hget).
    pose proof Hf1 as (Hsrv1 & _). pose proof Hf2 as (Hsrv2 & _).
    rewrite Hsrv1, Hc1. pose proof (Hresp 0 (Nat.le_0_l _)) as Hr0.
    rewrite Nat.add_0_r in Hr0. rewrite Hr0.
    rewrite (Hretry 0) by lia.
    assert (Hlt : (a <? NominatimConfig.MAX_RETRIES) = true)
      by (apply Nat.ltb_lt; lia).
    rewrite Hlt. simpl.
    destruct (backoff_sleep_effect (retry_delay a) s2) as (s3 & Hsl & Hf3 & Hc3 & Hb3).
    rewrite (bind_ok _ _ _ _ _ Hsl).
    pose proof Hf3 as (Hsrv3 & _).
    destruct (IH (fun j => resp (S j)) (S a) n (Some (resp 0)) s3) as
      (s' & Hrun & Hf' & Hc' & Hb'); try lia.
    + intros j Hj. rewrite Hsrv3, Hsrv2, Hsrv1, Hc3, Hc2, Hc1.
      replace (S (http_calls (world s)) + j) with (http_calls (world s) + S j) by lia.
      apply Hresp. lia.
    + intros j Hj. apply Hretry. lia.
    + destruct Hlast as [Hl | Hl]; [now left | right; lia].
    + exists s'. split; [exact Hrun |]. split.
      * apply frame_trans with s3; [| assumption].
        apply frame_trans with s2; [| assumption].
        apply frame_trans with s1; assumption.
      * split; [lia |].
        rewrite Hb', Hb3, Hb2, Hb1. now rewrite <- app_assoc.
Qed.

(** A transport failure on the first attempt is raised at once. *)
Lemma retry_loop_transport url params a n last s e :
  (server (world s) (http_calls (world s)) url params = ConnectError e \/
   server (world s) (http_calls (world s)) url params = TimeoutException e) ->
  exists s',
    retry_loop url params (a :: n) last s
    = (Raise (mkExc ConnectionError (NETWORK_ERROR e)), s') /\
    http_calls (world s') = S (http_calls (world s)).
Proof.
  intros Hfail. simpl.
  destruct (rate_limit_effect s) as (s1 & Hrl & (Hsrv1 & _) & Hc1 & _).
  rewrite (bind_ok _ _ _ _ _ Hrl).
  destruct (client_get_effect url params s1) as (s2 & Hget & _ & Hc2 & _).
  rewrite (bind_ok _ _ _ _ _ Hget). rewrite Hsrv1, Hc1.
  exists s2. destruct Hfail as [-> | ->]; (split; [reflexivity | congruence]).
Qed.
End RequestFacts.

Section RequestRun.
Context {F : Type} `{FloatOps F} `{HashOps}.


(** A request that misses the cache, gets [k] retryable answers and
    then the answer [resp k]. *)
Lemma request_miss_run endpoint params (s : System F)
      (resp : nat -> Response F) (k : nat) :
  let params' := add_common_params (_email (self s)) params in
  let url := (_base_url (self s) ++ "/" ++ endpoint)%string in
  fst (_cache_get (_cache_key endpoint params') (time_time (world s))
                  (_cache (self s))) = None ->
  k <= NominatimConfig.MAX_RETRIES ->
  (forall j, j <= k ->
     server (world s) (http_calls (world s) + j) url params' = Answer (resp j)) ->
  (forall j, j < k -> retryable (status_code (resp j)) = true) ->
  (retryable (status_code (resp k)) = false \/ k = NominatimConfig.MAX_RETRIES) ->
  exists s',
    _request endpoint params s = (terminal_result (resp k), s') /\
    http_calls (world s') = http_calls (world s) + S k /\
    backoff_delays (world s')
    = backoff_delays (world s) ++ map retry_delay (seq 0 k).
Proof.
  intros params' url Hmiss Hk Hresp Hretry Hlast.
  unfold _request.
  unfold bind at 1. unfold gets at 1. fold params'.
  unfold bind at 1. unfold gets at 1.
  unfold bind at 1. unfold gets at 1.
  destruct (_cache_get (_cache_key endpoint params') (time_time (world s))
                       (_cache (self s))) as [cached cache'] eqn:Hget.
  simpl in Hmiss. subst cached.
  unfold bind at 1. unfold modify at 1.
  set (s0 := set_cache cache' s).
  assert (Hs0w : world s0 = world s) by reflexivity.
  assert (Hs0b : _base_url (self s0) = _base_url (self s)) by reflexivity.
  (* _get_client *)
  assert (Hgc : exists s1, _get_client s0 = (Ok tt, s1) /\ world s1 = world s /\
                           _base_url (self s1) = _base_url (self s)).
  { unfold _get_client, bind, gets. destruct (_client (self s0)).
    - exists s0. repeat split.
    - eexists. split; [reflexivity |]. split; reflexivity. }
  destruct Hgc as (s1 & Hgc & Hw1 & Hb1).
  rewrite (bind_ok _ _ _ _ _ Hgc).
  unfold bind at 1. unfold gets at 1. rewrite Hb1. fold url.
  destruct (retry_loop_run url params' k resp 0
              (NominatimConfig.MAX_RETRIES + 1) None s1)
    as (s2 & Hloop & Hframe & Hcalls & Hdelays).
  - lia.
  - lia.
  - intros j Hj. rewrite Hw1. now apply Hresp.
  - assumption.
  - destruct Hlast; [now left | now right].
  - rewrite (bind_ok _ _ _ _ _ Hloop).
    rewrite Hw1 in Hcalls, Hdelays.
    unfold terminal_result.
    destruct (status_code (resp k) =? 429)%Z.
    { exists s2. split; [reflexivity |]. now split. }
    destruct (negb (status_code (resp k) =? 200)%Z).
    { exists s2. split; [reflexivity |]. now split. }
    destruct (json (resp k)) as [payload |].
    + unfold bind at 1. unfold gets at 1.
      unfold bind at 1. unfold gets at 1.
      destruct (cache_put_total (_cache_key endpoint params') payload
                  (time_time (world s2)) (_cache (self s2))) as (c2 & Hput).
      rewrite (bind_lift_ok _ _ _ _ Hput).
      unfold bind, modify, ret.
      eexists. split; [reflexivity |]. simpl. now split.
    + exists s2. split; [reflexivity |]. now split.
Qed.

End RequestRun.

(** ** Strings *)

Lemma lstrip_blank (s : str) : blank s -> py_lstrip s = EmptyString.
Proof.
  unfold blank. induction s as [| c s IH]; simpl; intros Hb; [reflexivity |].
  inversion Hb as [| ? ? Hc Hrest]; subst. rewrite Hc. now apply IH.
Qed.

Lemma strip_blank (s : str) : blank s -> py_strip s = EmptyString.
Proof. intros Hb. unfold py_strip. now rewrite lstrip_blank. Qed.

(** ** The orchestrator *)

Section GeocoderFacts.
Context {F : Type} `{FloatOps F}.
Context {C : Type} `{ClientOps F C}.
Implicit Types (s : C) (query : str) (limit : Z).

Lemma validate_query_blank query :
  blank query ->
  _validate_query (F:=F) query = Raise (mkExc ValueError EMPTY_QUERY).
Proof.
  intros Hb. unfold _validate_query. rewrite (strip_blank _ Hb). simpl.
  now rewrite orb_true_r.
Qed.

Lemma validate_query_cases query :
  _validate_query (F:=F) query = Ok tt \/
  _validate_query (F:=F) query = Raise (mkExc ValueError EMPTY_QUERY).
Proof. unfold _validate_query. destruct (_ || _); auto. Qed.

Lemma validate_lat lat lon :
  chained_le (flit (-90)) lat (flit 90) = false ->
  _validate_coordinates lat lon = Raise (mkExc ValueError (INVALID_LAT lat)).
Proof. intros Hlat. unfold _validate_coordinates. now rewrite Hlat. Qed.

Lemma validate_lon lat lon :
  chained_le (flit (-90)) lat (flit 90) = true ->
  chained_le (flit (-180)) lon (flit 180) = false ->
  _validate_coordinates lat lon = Raise (mkExc ValueError (INVALID_LON lon)).
Proof.
  intros Hlat Hlon. unfold _validate_coordinates. now rewrite Hlat, Hlon.
Qed.

Lemma chained_le_false lo x hi :
  fleb lo x = false \/ fleb x hi = false -> chained_le lo x hi = false.
Proof.
  unfold chained_le. intros [-> | ->]; [reflexivity | apply andb_false_r].
Qed.

(** A query that fails validation never reaches the client. *)
Lemma geocode_invalid query limit cc lang s e :
  _validate_query query = Raise e ->
  geocode query limit cc lang s = (Raise e, s).
Proof. intros Hv. unfold geocode. now apply bind_lift_raise. Qed.

Lemma map_result_length {A B} (f : A -> result (Exc F) B) xs ys :
  map_result f xs = Ok ys -> List.length ys = List.length xs.
Proof.
  revert ys. induction xs as [| x xs IH]; simpl; intros ys Heq.
  - now inversion Heq.
  - destruct (f x); [| discriminate].
    destruct (map_result f xs); [| discriminate].
    inversion Heq; subst. simpl. f_equal. now apply IH.
Qed.

(** What a geocode that returns has done. *)
Lemma geocode_ok query limit cc lang s items s' :
  geocode query limit cc lang s = (Ok items, s') ->
  exists raw raws,
    _validate_query (F:=F) query = Ok tt /\
    client_search query limit cc None false lang s = (Ok (raw :: raws), s') /\
    map_result _parse_search_result (raw :: raws) = Ok items /\
    List.length items = S (List.length raws).
Proof.
  unfold geocode. intros Hg.
  destruct (validate_query_cases query) as [Hv | Hv].
  - rewrite (bind_lift_ok _ _ _ _ Hv) in Hg. unfold bind in Hg.
    destruct (client_search query limit cc None false lang s)
      as [[raws | e] s1] eqn:Hs; [| discriminate].
    destruct raws as [| raw raws]; [discriminate |].
    unfold lift_result in Hg. injection Hg as Hmap Hstate. subst s1.
    exists raw, raws. split; [assumption |]. split; [reflexivity |].
    split; [exact Hmap |].
    exact (map_result_length _parse_search_result (raw :: raws) items Hmap).
  - rewrite (bind_lift_raise _ _ _ _ Hv) in Hg. discriminate.
Qed.

Lemma geocode_ok_nonempty query limit cc lang s items s' :
  geocode query limit cc lang s = (Ok items, s') ->
  exists item rest, items = item :: rest.
Proof.
  intros Hg. apply geocode_ok in Hg.
  destruct Hg as (raw & raws & _ & _ & _ & Hlen).
  destruct items as [| item rest]; [discriminate | eauto].
Qed.

(** An empty result sequence is a not-found error. *)
Lemma geocode_no_results query limit cc lang s s1 :
  _validate_query (F:=F) query = Ok tt ->
  client_search query limit cc None false lang s = (Ok [], s1) ->
  geocode query limit cc lang s
  = (Raise (mkExc ValueError (NO_RESULTS query)), s1).
Proof.
  intros Hv Hs. unfold geocode. rewrite (bind_lift_ok _ _ _ _ Hv).
  now rewrite (bind_ok _ _ _ _ _ Hs).
Qed.

(* --- batch_geocode --- *)

(** The loop body records the outcome of the query's geocode and never
    raises. *)
Lemma batch_one_spec limit query s :
  (exists items s',
      geocode query limit None None s = (Ok items, s') /\
      batch_one limit query s = (Ok (BatchItem.mk query (Some items) None), s')) \/
  (exists e s',
      geocode query limit None None s = (Raise e, s') /\
      batch_one limit query s
      = (Ok (BatchItem.mk query None (Some (exc_msg e))), s')).
Proof.
  unfold batch_one, try_except, bind.
  destruct (geocode query limit None None s) as [[items | e] s'] eqn:Hg.
  - left. exists items, s'. now split.
  - right. exists e, s'. now split.
Qed.

Lemma batch_one_total limit query s :
  exists item s', batch_one limit query s = (Ok item, s').
Proof.
  destruct (batch_one_spec limit query s)
    as [(items & s' & _ & Hb) | (e & s' & _ & Hb)]; eauto.
Qed.

Lemma batch_one_item limit query s item s' :
  batch_one limit query s = (Ok item, s') ->
  BatchItem.query item = query /\ exactly_one_set item /\
  (BatchItem.error item = None ->
   exists g gs, BatchItem.results item = Some (g :: gs)).
Proof.
  intros Hb.
  destruct (batch_one_spec limit query s)
    as [(items & s1 & Hg & Hb1) | (e & s1 & Hg & Hb1)];
    rewrite Hb1 in Hb; inversion Hb; subst; simpl.
  - split; [reflexivity |]. split.
    + left. split; [discriminate | reflexivity].
    + intros _. destruct (geocode_ok_nonempty _ _ _ _ _ _ _ Hg) as (g & gs & ->).
      eauto.
  - split; [reflexivity |]. split.
    + right. split; [reflexivity | discriminate].
    + discriminate.
Qed.

Lemma batch_runs limit queries s items s' :
  runs_in_order (batch_one limit) queries s items s' ->
  map (@BatchItem.query F) items = queries /\
  Forall exactly_one_set items /\
  Forall (fun item => BatchItem.error item = None ->
                      exists g gs, BatchItem.results item = Some (g :: gs)) items.
Proof.
  induction 1 as [| q qs item items s s1 s' Hone Hrest IH]; simpl.
  - repeat split; constructor.
  - destruct (batch_one_item _ _ _ _ _ Hone) as (Hq & Hx & Hne).
    destruct IH as (IHq & IHx & IHne).
    repeat split; [congruence | now constructor | now constructor].
Qed.

(* --- route_waypoints --- *)

Lemma route_loop_spec (resolved : list (RouteWaypointItem.t F)) :
  forall legs total,
    route_loop resolved legs total
    = (legs ++ map leg_between (consecutive resolved),
       fold_left fadd (map waypoint_distance (consecutive resolved)) total).
Proof.
  induction resolved as [| a resolved IH]; intros legs total.
  - simpl. now rewrite app_nil_r.
  - destruct resolved as [| b rest].
    + simpl. now rewrite app_nil_r.
    + change (route_loop (a :: b :: rest) legs total)
        with (route_loop (b :: rest)
                (legs ++ [leg_between (a, b)])
                (fadd total (waypoint_distance (a, b)))).
      rewrite IH.
      change (consecutive (a :: b :: rest))
        with ((a, b) :: consecutive (b :: rest)).
      simpl map. simpl fold_left. now rewrite <- app_assoc.
Qed.

Lemma consecutive_length {A} (l : list A) :
  List.length (consecutive l) = List.length l - 1.
Proof.
  induction l as [| a l IH]; [reflexivity |].
  destruct l as [| b rest]; [reflexivity |].
  change (consecutive (a :: b :: rest)) with ((a, b) :: consecutive (b :: rest)).
  simpl List.length in *. lia.
Qed.

Lemma consecutive_nth {A} (l : list A) : forall i a b,
  nth_error l i = Some a -> nth_error l (S i) = Some b ->
  nth_error (consecutive l) i = Some (a, b).
Proof.
  induction l as [| x l IH]; intros i a b Ha Hb.
  - destruct i; discriminate.
  - destruct l as [| y rest].
    + destruct i; simpl in Hb; [discriminate | destruct i; discriminate].
    + change (consecutive (x :: y :: rest)) with ((x, y) :: consecutive (y :: rest)).
      destruct i as [| i].
      * simpl in *. congruence.
      * simpl. apply IH; assumption.
Qed.

(** What resolving one waypoint that returns has done. *)
Lemma resolve_waypoint_ok wp s w s' :
  resolve_waypoint wp s = (Ok w, s') ->
  exists item rest,
    geocode wp 1 None None s = (Ok (item :: rest), s') /\ w = waypoint_of item.
Proof.
  unfold resolve_waypoint, bind. intros Hr.
  destruct (geocode wp 1 None None s) as [[found | e] s1] eqn:Hg; [| discriminate].
  destruct found as [| item rest]; [discriminate |].
  unfold ret in Hr. inversion Hr; subst. now exists item, rest.
Qed.

Lemma resolve_waypoint_invalid wp s e :
  _validate_query wp = Raise e -> resolve_waypoint wp s = (Raise e, s).
Proof.
  intros Hv. unfold resolve_waypoint.
  now rewrite (bind_raise _ _ _ _ _ (geocode_invalid wp 1 None None s e Hv)).
Qed.

(** What a route that returns is made of. *)
Lemma route_waypoints_ok waypoints s r s' :
  route_waypoints waypoints s = (Ok r, s') ->
  2 <= List.length waypoints /\
  runs_in_order resolve_waypoint waypoints s (RouteResult.waypoints r) s' /\
  RouteResult.legs r = map leg_between (consecutive (RouteResult.waypoints r)) /\
  RouteResult.total_distance_m r
  = py_round (fold_left fadd
                (map waypoint_distance (consecutive (RouteResult.waypoints r)))
                (flit 0)) 1 /\
  RouteResult.bbox r
  = bbox_union (map (@RouteWaypointItem.bbox F) (RouteResult.waypoints r)).
Proof.
  unfold route_waypoints. intros Hr.
  destruct (Nat.ltb_spec (List.length waypoints) 2) as [Hlt | Hge]; [discriminate |].
  unfold bind in Hr.
  destruct (map_m resolve_waypoint waypoints s) as [[resolved | e] s1] eqn:Hm;
    [| discriminate].
  rewrite route_loop_spec in Hr. simpl in Hr. unfold ret in Hr.
  inversion Hr; subst. simpl.
  split; [assumption |]. split; [now apply map_m_ok |]. repeat split.
Qed.

Lemma route_waypoints_too_few waypoints s :
  List.length waypoints < 2 ->
  route_waypoints waypoints s = (Raise (mkExc ValueError WAYPOINTS_MIN), s).
Proof.
  intros Hlt. unfold route_waypoints.
  destruct (Nat.ltb_spec (List.length waypoints) 2); [reflexivity | lia].
Qed.

(** A blank waypoint stops the route where the waypoints before it
    have left the client. *)
Lemma route_waypoints_blank pre bad post s resolved s1 :
  2 <= List.length (pre ++ bad :: post) ->
  blank bad ->
  runs_in_order resolve_waypoint pre s resolved s1 ->
  route_waypoints (pre ++ bad :: post) s
  = (Raise (mkExc ValueError EMPTY_QUERY), s1).
Proof.
  intros Hlen Hb Hpre. unfold route_waypoints.
  destruct (Nat.ltb_spec (List.length (pre ++ bad :: post)) 2); [lia |].
  apply bind_raise.
  eapply map_m_raise_at; [exact Hpre |].
  apply resolve_waypoint_invalid. now apply validate_query_blank.
Qed.
End GeocoderFacts.

(** ** Parsing and validation *)

Section ParseFacts.
Context {F : Type} `{FloatOps F}.

Lemma float_str_ok (text : str) (x : F) :
  float_str text = Ok x <-> float_of_str text = Some x.
Proof.
  unfold float_str. destruct (float_of_str text); split; intros Heq;
    inversion Heq; reflexivity.
Qed.



Lemma bbox_buffer_none :
  bbox_buffer_for_rank None = flit (F:=F) (1 # 100).
Proof. reflexivity. Qed.



(** The coordinates of a parsed search result are the parsed strings. *)
Lemma parse_search_result_point (raw : RawPlace F) (item : GeocodeItem.t F) :
  _parse_search_result raw = Ok item ->
  exists slat slon,
    raw_lat raw = Some slat /\ raw_lon raw = Some slon /\
    float_of_str slat = Some (GeocodeItem.lat item) /\
    float_of_str slon = Some (GeocodeItem.lon item).
Proof.
  unfold _parse_search_result, float_item. intros Hp.
  destruct (raw_lat raw) as [slat |]; [| discriminate].
  destruct (float_str slat) as [lat | e] eqn:Elat; [| discriminate].
  destruct (raw_lon raw) as [slon |]; [| discriminate].
  destruct (float_str slon) as [lon | e] eqn:Elon; [| discriminate].
  destruct (match raw_boundingbox raw with
            | Some (x :: xs) => convert_bbox (x :: xs)
            | _ => _
            end) as [b | e]; [| discriminate].
  inversion Hp; subst. simpl. exists slat, slon.
  repeat split; now apply float_str_ok.
Qed.
End ParseFacts.

Section ValidationFacts.
Context {F : Type} `{FloatOps F}.
Context {C : Type} `{ClientOps F C}.

Lemma bbox_from_place_invalid query padding (s : C) e :
  _validate_query query = Raise e ->
  bbox_from_place query padding s = (Raise e, s).
Proof. intros Hv. unfold bbox_from_place. now apply bind_lift_raise. Qed.

Lemma reverse_geocode_invalid lat lon zoom lang (s : C) e :
  _validate_coordinates lat lon = Raise e ->
  reverse_geocode lat lon zoom lang s = (Raise e, s).
Proof. intros Hv. unfold reverse_geocode. now apply bind_lift_raise. Qed.

Lemma nearby_places_invalid lat lon limit categories (s : C) e :
  _validate_coordinates lat lon = Raise e ->
  nearby_places lat lon limit categories s = (Raise e, s).
Proof. intros Hv. unfold nearby_places. now apply bind_lift_raise. Qed.

Lemma admin_boundaries_invalid lat lon (s : C) e :
  _validate_coordinates lat lon = Raise e ->
  admin_boundaries lat lon s = (Raise e, s).
Proof. intros Hv. unfold admin_boundaries. now apply bind_lift_raise. Qed.

(** Coordinates out of range, and the message each case raises. *)
Lemma validate_coordinates_out_of_range (lat lon : F) :
  (fleb (flit (-90)) lat = false \/ fleb lat (flit 90) = false ->
   _validate_coordinates lat lon = Raise (mkExc ValueError (INVALID_LAT lat))) /\
  (chained_le (flit (-90)) lat (flit 90) = true ->
   fleb (flit (-180)) lon = false \/ fleb lon (flit 180) = false ->
   _validate_coordinates lat lon = Raise (mkExc ValueError (INVALID_LON lon))).
Proof.
  split.
  - intros Hlat. apply validate_lat. now apply chained_le_false.
  - intros Hlat Hlon. apply validate_lon; [assumption |]. now apply chained_le_false.
Qed.
End ValidationFacts.

(** ** Cache keys *)










Section KeyFacts.
Context {F : Type} `{FloatOps F} `{HashOps}.




Lemma str_variant_refl (s : str) : str_variant s s.
Proof.
  induction s as [| c s IH]; [constructor |].
  destruct (isspace c) eqn:Hc.
  - change (String c s) with ((String c EmptyString) ++ s)%string.
    apply sv_run; try assumption; (split; [discriminate |]);
      repeat constructor; assumption.
  - apply sv_letter; try assumption. now left.
Qed.

Lemma params_variant_refl (p : Params F) : params_variant p p.
Proof.
  induction p as [| [k v] p IH]; constructor; [| assumption].
  split; [reflexivity |]. destruct v; simpl; try reflexivity.
  apply str_variant_refl.
Qed.
End KeyFacts.

(** ** Sums and rounding read exactly *)

Section ExactFacts.
Context {F : Type} `{FloatOps F}.
Variable val : F -> Q.
Variable fin : F -> Prop.
Hypothesis Hexact : exact_sum_and_round val fin.

Lemma fold_fadd_value (ds : list F) : forall acc,
  fin acc -> Forall fin ds ->
  fin (fold_left fadd ds acc) /\
  (val (fold_left fadd ds acc) == val acc + sum_values val ds)%Q.
Proof.
  destruct Hexact as (_ & _ & Hadd & _).
  induction ds as [| d ds IH]; intros acc Hacc Hds; simpl.
  - split; [assumption | lra].
  - inversion Hds; subst.
    destruct (Hadd acc d) as [Hfin Hval]; try assumption.
    destruct (IH (fadd acc d)) as [Hfin' Hval']; try assumption.
    split; [assumption |]. rewrite Hval', Hval. lra.
Qed.

Lemma of_nat_succ_Q (n : nat) :
  (inject_Z (Z.of_nat (S n)) == inject_Z (Z.of_nat n) + 1)%Q.
Proof. rewrite Nat2Z.inj_succ. unfold Z.succ. rewrite inject_Z_plus. reflexivity. Qed.

Lemma rounded_sum_close (ds : list F) :
  Forall fin ds ->
  (Qabs (sum_values val (map (fun d => py_round d 1) ds) - sum_values val ds)
   <= (1 # 20) * inject_Z (Z.of_nat (List.length ds)))%Q.
Proof.
  destruct Hexact as (_ & _ & _ & Hround).
  induction ds as [| d ds IH]; intros Hds.
  - apply Qabs_Qle_condition. unfold sum_values. simpl.
    change (inject_Z 0) with 0%Q. split; lra.
  - inversion Hds; subst. specialize (IH H3).
    pose proof (Hround d H2) as Hd.
    apply Qabs_Qle_condition in IH. apply Qabs_Qle_condition in Hd.
    apply Qabs_Qle_condition.
    change (List.length (d :: ds)) with (S (List.length ds)).
    rewrite of_nat_succ_Q. simpl sum_values. split; lra.
Qed.

(** The rounded sum against the sum of the rounded terms. *)
Lemma rounded_total_close (ds : list F) :
  Forall fin ds ->
  (Qabs (val (py_round (fold_left fadd ds (flit 0)) 1)
         - sum_values val (map (fun d => py_round d 1) ds))
   <= (1 # 20) * inject_Z (Z.of_nat (List.length ds + 1)))%Q.
Proof.
  intros Hds.
  pose proof Hexact as (Hzero & Hval0 & _ & Hround).
  destruct (fold_fadd_value ds (flit 0) Hzero Hds) as [Hfin Hsum].
  pose proof (Hround _ Hfin) as Htotal.
  pose proof (rounded_sum_close ds Hds) as Hlegs.
  apply Qabs_Qle_condition in Htotal. apply Qabs_Qle_condition in Hlegs.
  apply Qabs_Qle_condition.
  replace (List.length ds + 1) with (S (List.length ds)) by lia.
  rewrite of_nat_succ_Q. rewrite Hsum, Hval0 in Htotal. split; lra.
Qed.
End ExactFacts.

Lemma round_half_even_close (q : Q) :
  (Qabs (inject_Z (Rat.round_half_even q) - q) <= 1 # 2)%Q.
Proof.
  unfold Rat.round_half_even. cbv zeta.
  pose proof (Qfloor_le q) as Hlo. pose proof (Qlt_floor q) as Hhi.
  rewrite inject_Z_plus in Hhi. change (inject_Z 1) with 1%Q in Hhi.
  apply Qabs_Qle_condition.
  destruct (Qcompare (q - inject_Z (Qfloor q)) (1 # 2)) eqn:Hc.
  - apply Qeq_alt in Hc.
    destruct (Z.even (Qfloor q));
      [| rewrite inject_Z_plus; change (inject_Z 1) with 1%Q]; split; lra.
  - apply Qlt_alt in Hc. split; lra.
  - apply Qgt_alt in Hc. rewrite inject_Z_plus. change (inject_Z 1) with 1%Q.
    split; lra.
Qed.

Lemma rat_exact :
  exact_sum_and_round Rat.value (fun x => Rat.is_finite x = true).
Proof.
  split; [reflexivity |]. split; [reflexivity |]. split.
  - intros [a | | |] [b | | |] Ha Hb; try discriminate.
    split; [reflexivity |].
    change (Qred (a + b) == a + b)%Q. apply Qred_correct.
  - intros [q | | |] Hq; try discriminate.
    change (Qabs (Qred (inject_Z (Rat.round_half_even (q * 10)) / 10) - q)
            <= 1 # 20)%Q.
    rewrite Qred_correct.
    pose proof (round_half_even_close (q * 10)%Q) as Hr.
    apply Qabs_Qle_condition in Hr. apply Qabs_Qle_condition.
    set (r := inject_Z (Rat.round_half_even (q * 10)%Q)) in *.
    unfold Qdiv. change (/ 10)%Q with (1 # 10)%Q. split; lra.
Qed.

(* ================================================================= *)
(** * The claims *)

(** C1.  The request executor [NominatimClient._request], on a cache
    miss.  Let the service answer the next requests with [resp 0],
    [resp 1], ... where the first [k] answers have status 429 or 503 and
    [k] is at most [MAX_RETRIES]; let [resp k] be either the answer to
    the last permitted attempt or an answer with another status.  Then
    the executor sends exactly [k + 1] requests, sleeps
    [RETRY_BASE_DELAY * 2^attempt] after each of the first [k] attempts,
    and ends on [resp k]: status 429 raises the rate-limited error, any
    other status but 200 (503 included) raises the API error with the
    status and the first 200 characters of the body, and status 200
    returns the decoded body.  With [k = 1] this is one 429 or 503
    followed by a 200: two requests and success.  With [k = 0] and status
    500 it is the API error after one request and no sleep. *)
Theorem request_retry_policy :
  forall (F : Type) (FO : FloatOps F) (HO : HashOps)
         (endpoint : str) (params : Params F) (s : System F)
         (resp : nat -> Response F) (k : nat),
    let params' := add_common_params (_email (self s)) params in
    let url := (_base_url (self s) ++ "/" ++ endpoint)%string in
    let final := resp k in
    fst (_cache_get (_cache_key endpoint params') (time_time (world s))
                    (_cache (self s))) = None ->
    k <= NominatimConfig.MAX_RETRIES ->
    (forall j, j <= k ->
       server (world s) (http_calls (world s) + j) url params' = Answer (resp j)) ->
    (forall j, j < k ->
       status_code (resp j) = 429%Z \/ status_code (resp j) = 503%Z) ->
    (k = NominatimConfig.MAX_RETRIES \/
     (status_code final <> 429%Z /\ status_code final <> 503%Z)) ->
    let outcome := fst (_request endpoint params s) in
    let s' := snd (_request endpoint params s) in
    http_calls (world s') = http_calls (world s) + k + 1 /\
    backoff_delays (world s')
    = backoff_delays (world s)
      ++ map (fun attempt =>
                fmul (flit NominatimConfig.RETRY_BASE_DELAY)
                     (flit (inject_Z (2 ^ Z.of_nat attempt))))
             (seq 0 k) /\
    (status_code final = 429%Z ->
     outcome = Raise (mkExc RuntimeError RATE_LIMITED)) /\
    (status_code final <> 429%Z -> status_code final <> 200%Z ->
     outcome = Raise (mkExc RuntimeError
                        (API_ERROR (status_code final)
                                   (str_take 200 (text final))))) /\
    (status_code final = 200%Z ->
     forall payload, json final = Some payload -> outcome = Ok payload).
Proof.
  intros F FO HO endpoint params s resp k params' url final
         Hmiss Hk Hresp Hretry Hlast outcome s'.
  destruct (request_miss_run endpoint params s resp k Hmiss Hk Hresp)
    as (s1 & Hrun & Hcalls & Hdelays).
  - intros j Hj. apply retryable_iff. now apply Hretry.
  - destruct Hlast as [-> | [H429 H503]]; [now right | left].
    destruct (retryable (status_code (resp k))) eqn:Hr; [| reflexivity].
    apply retryable_iff in Hr. fold final in Hr. tauto.
  - subst outcome s'. rewrite Hrun. simpl fst. simpl snd.
    split; [lia |]. split; [exact Hdelays |].
    unfold terminal_result. fold final. repeat split.
    + intros H429. now rewrite H429.
    + intros H429 H200.
      apply Z.eqb_neq in H429, H200. now rewrite H429, H200.
    + intros H200 payload Hjson. now rewrite H200, Hjson.
Qed.

(** C2.  The response cache under [_cache_put] and [_cache_get].
    (a) Every sequence of operations on the empty cache runs without
    raising and leaves at most [CACHE_MAX_SIZE] entries, with distinct
    keys, ordered by the number of the last operation that used each
    key.  (b) A put of a new key into a full cache removes the first
    entry, which is the one used least recently, and nothing else, and
    appends the new entry.  (c) A put of a cached key replaces its
    payload and timestamp and moves it to the end.  (d) A get that
    returns a payload moves the key to the end, and the key is still
    cached after any following put, a put that evicts included. *)
Theorem cache_bounded_lru :
  forall (F : Type) (FO : FloatOps F),
    (forall ops : list (CacheOp F),
        exists cache,
          run_ops ops [] = Ok cache /\
          List.length cache <= NominatimConfig.CACHE_MAX_SIZE /\
          NoDup (od_keys cache) /\
          recency_sorted (last_used ops [] 1 (fun _ => 0)) cache) /\
    (forall (ops : list (CacheOp F)) cache key payload now,
        run_ops ops [] = Ok cache ->
        ~ In key (od_keys cache) ->
        List.length cache = NominatimConfig.CACHE_MAX_SIZE ->
        exists lru rest,
          cache = lru :: rest /\
          Forall (fun kv => last_used ops [] 1 (fun _ => 0) (fst lru)
                            < last_used ops [] 1 (fun _ => 0) (fst kv)) rest /\
          _cache_put key payload now cache
          = Ok (rest ++ [(key, mkCacheEntry payload now)]) /\
          List.length (rest ++ [(key, mkCacheEntry payload now)])
          = NominatimConfig.CACHE_MAX_SIZE) /\
    (forall (cache : Cache F) key payload now,
        In key (od_keys cache) ->
        _cache_put key payload now cache
        = Ok (od_del key cache ++ [(key, mkCacheEntry payload now)])) /\
    (forall (cache : Cache F) key now payload cache',
        _cache_get key now cache = (Some payload, cache') ->
        (exists entry,
            od_get key cache = Some entry /\ data entry = payload /\
            cache' = od_del key cache ++ [(key, entry)]) /\
        (forall key2 payload2 now2,
            exists cache'',
              _cache_put key2 payload2 now2 cache' = Ok cache'' /\
              In key (od_keys cache''))).
Proof.
  intros F FO. split; [| split; [| split]].
  - intros ops.
    destruct (run_ops_inv ops _ _ _ cache_inv_empty) as (cache & Hrun & Hinv).
    exists cache. split; [assumption |]. split; [apply Hinv |]. split.
    + now apply cache_inv_NoDup with (last_used ops [] 1 (fun _ => 0))
                                     (List.length ops + 1).
    + apply Hinv.
  - intros ops cache key payload now Hrun Hnew Hfull.
    destruct (cache_put_new_full key payload now cache Hnew) as (lru & rest & -> & Hput);
      [lia |].
    exists lru, rest. split; [reflexivity |].
    apply reachable_inv in Hrun. destruct Hrun as [[Hsorted _] _].
    apply StronglySorted_inv in Hsorted. destruct Hsorted as [_ Hall].
    split; [exact Hall |]. split; [exact Hput |].
    rewrite length_app. simpl in *. lia.
  - intros cache key payload now Hin. now apply cache_put_existing.
  - intros cache key now payload cache' Hget.
    apply cache_get_hit in Hget. destruct Hget as (entry & Hentry & Hdata & _ & ->).
    split; [now exists entry |].
    intros key2 payload2 now2.
    set (cache' := od_del key cache ++ [(key, entry)]).
    assert (Hk : In key (od_keys cache')).
    { unfold cache'. rewrite od_keys_app. apply in_or_app. right. now left. }
    destruct (in_dec string_dec key2 (od_keys cache')) as [Hin2 | Hnew2].
    + rewrite cache_put_existing by assumption. eexists. split; [reflexivity |].
      rewrite od_keys_app. destruct (string_dec key key2) as [-> | Hne].
      * apply in_or_app. right. now left.
      * apply in_or_app. left. apply od_del_In. now split.
    + destruct (Nat.lt_ge_cases (List.length cache') NominatimConfig.CACHE_MAX_SIZE)
        as [Hroom | Hfull].
      * rewrite cache_put_new_room by assumption. eexists. split; [reflexivity |].
        rewrite od_keys_app. apply in_or_app. now left.
      * destruct (cache_put_new_full key2 payload2 now2 cache' Hnew2 Hfull)
          as (lru & rest & Hshape & Hput).
        rewrite Hput. eexists. split; [reflexivity |].
        rewrite od_keys_app. apply in_or_app. left.
        (* The evicted entry is the first one, and [key] is the last of at
           least two. *)
        unfold cache' in Hshape, Hfull.
        destruct (od_del key cache) as [| first others] eqn:Hdel.
        -- simpl in Hfull. unfold NominatimConfig.CACHE_MAX_SIZE in Hfull. lia.
        -- simpl in Hshape. inversion Hshape; subst.
           rewrite od_keys_app. apply in_or_app. right. now left.
Qed.

(** C3.  Time to live of a cache entry.  Where [a <= b] excludes
    [a > b] on floats: after [_cache_put] stores [payload] under [key]
    at time [T], a [_cache_get] at a time [now] with
    [now - T <= CACHE_TTL_SECONDS] returns [payload] and keeps the
    entry, and one with [now - T > CACHE_TTL_SECONDS] reports absence
    and deletes the entry; a get of a key that no put has stored
    reports absence. *)
Theorem cache_entry_ttl :
  forall (F : Type) (FO : FloatOps F),
    (forall a b : F, fleb a b = true -> fgtb a b = false) ->
    (forall (cache : Cache F) key payload T,
        exists stored,
          _cache_put key payload T cache = Ok stored /\
          (forall now,
              fleb (fsub now T) (flit NominatimConfig.CACHE_TTL_SECONDS) = true ->
              fst (_cache_get key now stored) = Some payload /\
              In key (od_keys (snd (_cache_get key now stored)))) /\
          (forall now,
              fgtb (fsub now T) (flit NominatimConfig.CACHE_TTL_SECONDS) = true ->
              fst (_cache_get key now stored) = None /\
              ~ In key (od_keys (snd (_cache_get key now stored))))) /\
    (forall (ops : list (CacheOp F)) cache key now,
        run_ops ops [] = Ok cache ->
        ~ Exists (puts_key key) ops ->
        _cache_get key now cache = (None, cache)).
Proof.
  intros F FO Hlaw. split.
  - intros cache key payload T.
    assert (Hstored : exists rest,
               _cache_put key payload T cache
               = Ok (rest ++ [(key, mkCacheEntry payload T)]) /\
               ~ In key (od_keys rest)).
    { destruct (in_dec string_dec key (od_keys cache)) as [Hin | Hnew].
      - exists (od_del key cache). split; [now apply cache_put_existing |].
        apply od_del_keys.
      - destruct (Nat.lt_ge_cases (List.length cache) NominatimConfig.CACHE_MAX_SIZE)
          as [Hroom | Hfull].
        + exists cache. split; [now apply cache_put_new_room | assumption].
        + destruct (cache_put_new_full key payload T cache Hnew Hfull)
            as (lru & rest & -> & Hput).
          exists rest. split; [assumption |].
          intros Hin. apply Hnew. simpl. now right. }
    destruct Hstored as (rest & Hput & Hnot).
    exists (rest ++ [(key, mkCacheEntry payload T)]). split; [assumption |].
    pose proof (od_get_last _ key (mkCacheEntry payload T) rest Hnot) as Hget.
    split.
    + intros now Hle. apply Hlaw in Hle.
      rewrite (cache_get_fresh key now _ _ Hget Hle). simpl. split; [reflexivity |].
      rewrite od_keys_app. apply in_or_app. right. now left.
    + intros now Hgt.
      rewrite (cache_get_expired key now _ _ Hget Hgt). simpl.
      split; [reflexivity | apply od_del_keys].
  - intros ops cache key now Hrun Hnoput.
    apply cache_get_absent. intros Hin.
    destruct (run_ops_keys ops [] cache key Hrun Hin) as [[] | Hex].
    contradiction.
Qed.


(** C5.  [batch_geocode].  An empty list of queries raises the
    validation error [BATCH_EMPTY] and more than 50 queries raise
    [BATCH_TOO_LARGE], both without touching the client.  For one to 50
    queries the call returns: the items are the results of running the
    loop body on each query in input order, one item per query with that
    query in it, each with exactly one of [results] and [error] set; the
    body sets [results] when the query's geocode returns and [error],
    with the text of the exception, when it raises, and goes on to the
    next query either way. *)
Theorem batch_geocode_partial_failure :
  forall (F : Type) (FO : FloatOps F) (C : Type) (CO : ClientOps F C)
         (queries : list str) (limit : Z) (s : C),
    (queries = [] ->
     batch_geocode queries limit s = (Raise (mkExc ValueError BATCH_EMPTY), s)) /\
    (BATCH_MAX_QUERIES < List.length queries ->
     batch_geocode queries limit s
     = (Raise (mkExc ValueError
                 (BATCH_TOO_LARGE (List.length queries) BATCH_MAX_QUERIES)), s)) /\
    (queries <> [] -> List.length queries <= BATCH_MAX_QUERIES ->
     exists items s',
       batch_geocode queries limit s = (Ok items, s') /\
       runs_in_order (batch_one limit) queries s items s' /\
       map (@BatchItem.query F) items = queries /\
       Forall exactly_one_set items) /\
    (forall query s0,
        (exists found s1,
            geocode query limit None None s0 = (Ok found, s1) /\
            batch_one limit query s0
            = (Ok (BatchItem.mk query (Some found) None), s1)) \/
        (exists e s1,
            geocode query limit None None s0 = (Raise e, s1) /\
            batch_one limit query s0
            = (Ok (BatchItem.mk query None (Some (exc_msg e))), s1))).
Proof.
  intros F FO C CO queries limit s. split; [| split; [| split]].
  - intros ->. reflexivity.
  - intros Hlen. unfold batch_geocode.
    destruct queries as [| q qs]; [simpl in Hlen; lia |].
    destruct (Nat.ltb_spec BATCH_MAX_QUERIES (List.length (q :: qs))); [reflexivity | lia].
  - intros Hne Hlen. unfold batch_geocode.
    destruct queries as [| q qs]; [congruence |].
    destruct (Nat.ltb_spec BATCH_MAX_QUERIES (List.length (q :: qs))); [lia |].
    destruct (map_m_total (batch_one limit) (q :: qs) (batch_one_total limit) s)
      as (items & s' & Hm).
    exists items, s'. split; [exact Hm |].
    apply map_m_ok in Hm. split; [exact Hm |].
    destruct (batch_runs limit _ _ _ _ Hm) as (Hq & Hx & _). now split.
  - intros query s0. apply batch_one_spec.
Qed.

(** C6.  [route_waypoints].  Fewer than two waypoints raise the
    validation error [WAYPOINTS_MIN] without touching the client.  When
    the call returns a route: the resolved waypoints are the results of
    resolving each input in input order, one per input; there is one leg
    less than there are waypoints; the legs are, in order, the legs
    between consecutive resolved waypoints, each with the haversine
    distance of its two waypoints rounded to one decimal; the total is
    the sum, from 0.0, of those same distances before rounding, rounded
    to one decimal, so that, read with exact addition and a rounding
    that moves a value by at most 0.05, the total and the sum of the
    legs' distances differ by at most 0.05 for each leg and 0.05 more;
    and the bbox is the union of the waypoints' bboxes: least west,
    least south, greatest east, greatest north. *)
Theorem route_waypoints_legs :
  forall (F : Type) (FO : FloatOps F) (C : Type) (CO : ClientOps F C)
         (waypoints : list str) (s : C),
    (List.length waypoints < 2 ->
     route_waypoints waypoints s = (Raise (mkExc ValueError WAYPOINTS_MIN), s)) /\
    (forall r s',
        route_waypoints waypoints s = (Ok r, s') ->
        let resolved := RouteResult.waypoints r in
        runs_in_order resolve_waypoint waypoints s resolved s' /\
        List.length resolved = List.length waypoints /\
        List.length (RouteResult.legs r) = List.length resolved - 1 /\
        RouteResult.legs r = map leg_between (consecutive resolved) /\
        (forall i a b,
            nth_error resolved i = Some a -> nth_error resolved (S i) = Some b ->
            nth_error (RouteResult.legs r) i
            = Some (RouteLegItem.mk (RouteWaypointItem.name a)
                      (RouteWaypointItem.name b)
                      (py_round
                         (haversine_distance
                            (RouteWaypointItem.lat a) (RouteWaypointItem.lon a)
                            (RouteWaypointItem.lat b) (RouteWaypointItem.lon b)) 1))) /\
        RouteResult.total_distance_m r
        = py_round (fold_left fadd (map waypoint_distance (consecutive resolved))
                              (flit 0)) 1 /\
        (forall (val : F -> Q) (fin : F -> Prop),
            exact_sum_and_round val fin ->
            Forall fin (map waypoint_distance (consecutive resolved)) ->
            (Qabs (val (RouteResult.total_distance_m r)
                   - sum_values val (map (@RouteLegItem.distance_m F)
                                         (RouteResult.legs r)))
             <= (1 # 20) * inject_Z (Z.of_nat (List.length (RouteResult.legs r) + 1)))%Q) /\
        exists first others,
          resolved = first :: others /\
          RouteResult.bbox r
          = mkBbox
              (py_min (west (RouteWaypointItem.bbox first))
                      (map (fun w => west (RouteWaypointItem.bbox w)) others))
              (py_min (south (RouteWaypointItem.bbox first))
                      (map (fun w => south (RouteWaypointItem.bbox w)) others))
              (py_max (east (RouteWaypointItem.bbox first))
                      (map (fun w => east (RouteWaypointItem.bbox w)) others))
              (py_max (north (RouteWaypointItem.bbox first))
                      (map (fun w => north (RouteWaypointItem.bbox w)) others))).
Proof.
  intros F FO C CO waypoints s. split.
  - apply route_waypoints_too_few.
  - intros r s' Hr resolved.
    destruct (route_waypoints_ok _ _ _ _ Hr) as (Hlen & Hruns & Hlegs & Htotal & Hbbox).
    fold resolved in Hruns, Hlegs, Htotal, Hbbox.
    pose proof (runs_in_order_length _ _ _ _ _ Hruns) as Hn.
    split; [exact Hruns |]. split; [exact Hn |]. split.
    { rewrite Hlegs, length_map. apply consecutive_length. }
    split; [exact Hlegs |]. split.
    { intros i a b Ha Hb. rewrite Hlegs.
      rewrite nth_error_map, (consecutive_nth _ _ _ _ Ha Hb). reflexivity. }
    split; [exact Htotal |]. split.
    { intros val fin Hexact Hfin. rewrite Htotal, Hlegs, !length_map.
      rewrite <- (length_map waypoint_distance (consecutive resolved)).
      rewrite map_map.
      change (map (fun x => RouteLegItem.distance_m (leg_between x))
                  (consecutive resolved))
        with (map (fun x => py_round (waypoint_distance x) 1) (consecutive resolved)).
      rewrite <- (map_map waypoint_distance (fun d => py_round d 1)).
      now apply rounded_total_close with fin. }
    destruct resolved as [| first others]; [simpl in Hn; lia |].
    exists first, others. split; [reflexivity |].
    rewrite Hbbox. simpl. now rewrite !map_map.
Qed.


(** C9, as amended.  Validation.  [geocode] and [bbox_from_place] on an
    empty or whitespace-only query raise the validation error
    [EMPTY_QUERY]; [reverse_geocode], [nearby_places] and
    [admin_boundaries] on a latitude that is not within [-90, 90] raise
    [INVALID_LAT] with that latitude, and on a longitude that is not
    within [-180, 180] (the latitude being in range) [INVALID_LON] with
    that longitude; all five leave the client as it was, so no request
    has been made.  [route_waypoints] checks each waypoint when its turn
    comes: an empty or whitespace-only waypoint raises [EMPTY_QUERY]
    once the waypoints before it have been resolved, with the client as
    they left it, and with the client untouched when it is the first
    one. *)
Theorem validation_before_requests :
  forall (F : Type) (FO : FloatOps F) (C : Type) (CO : ClientOps F C) (s : C),
    (forall query limit cc lang padding,
        blank query ->
        geocode query limit cc lang s = (Raise (mkExc ValueError EMPTY_QUERY), s) /\
        bbox_from_place query padding s
        = (Raise (mkExc ValueError EMPTY_QUERY), s)) /\
    (forall lat lon zoom lang limit categories,
        fleb (flit (-90)) lat = false \/ fleb lat (flit 90) = false ->
        let e := mkExc ValueError (INVALID_LAT lat) in
        reverse_geocode lat lon zoom lang s = (Raise e, s) /\
        nearby_places lat lon limit categories s = (Raise e, s) /\
        admin_boundaries lat lon s = (Raise e, s)) /\
    (forall lat lon zoom lang limit categories,
        chained_le (flit (-90)) lat (flit 90) = true ->
        fleb (flit (-180)) lon = false \/ fleb lon (flit 180) = false ->
        let e := mkExc ValueError (INVALID_LON lon) in
        reverse_geocode lat lon zoom lang s = (Raise e, s) /\
        nearby_places lat lon limit categories s = (Raise e, s) /\
        admin_boundaries lat lon s = (Raise e, s)) /\
    (forall pre bad post resolved s1,
        2 <= List.length (pre ++ bad :: post) ->
        blank bad ->
        runs_in_order resolve_waypoint pre s resolved s1 ->
        route_waypoints (pre ++ bad :: post) s
        = (Raise (mkExc ValueError EMPTY_QUERY), s1)) /\
    (forall bad post,
        1 <= List.length post ->
        blank bad ->
        route_waypoints (bad :: post) s
        = (Raise (mkExc ValueError EMPTY_QUERY), s)).
Proof.
  intros F FO C CO s. split; [| split; [| split; [| split]]].
  - intros query limit cc lang padding Hb.
    pose proof (validate_query_blank (F:=F) query Hb) as Hv. split.
    + now apply geocode_invalid.
    + now apply bbox_from_place_invalid.
  - intros lat lon zoom lang limit categories Hlat e.
    pose proof (proj1 (validate_coordinates_out_of_range lat lon) Hlat) as Hv.
    split; [| split].
    + now apply reverse_geocode_invalid.
    + now apply nearby_places_invalid.
    + now apply admin_boundaries_invalid.
  - intros lat lon zoom lang limit categories Hlat Hlon e.
    pose proof (proj2 (validate_coordinates_out_of_range lat lon) Hlat Hlon) as Hv.
    split; [| split].
    + now apply reverse_geocode_invalid.
    + now apply nearby_places_invalid.
    + now apply admin_boundaries_invalid.
  - intros pre bad post resolved s1 Hlen Hb Hpre.
    now apply route_waypoints_blank with resolved.
  - intros bad post Hlen Hb.
    apply (route_waypoints_blank [] bad post s [] s); simpl; [lia | assumption |].
    constructor.
Qed.

(** C10.  Every item [batch_geocode] returns with its [error] unset
    holds a non-empty list of results; and a query for which the search
    returns no result gets an item with the not-found error and no
    results, because [geocode] raises [NO_RESULTS] on an empty result
    sequence. *)
Theorem batch_results_nonempty :
  forall (F : Type) (FO : FloatOps F) (C : Type) (CO : ClientOps F C) (limit : Z),
    (forall (queries : list str) (s : C) items s',
        batch_geocode queries limit s = (Ok items, s') ->
        Forall (fun item =>
                  BatchItem.error item = None ->
                  exists g gs, BatchItem.results item = Some (g :: gs)) items) /\
    (forall (query : str) (s s1 : C),
        _validate_query (F:=F) query = Ok tt ->
        client_search query limit None None false None s = (Ok [], s1) ->
        geocode query limit None None s
        = (Raise (mkExc ValueError (NO_RESULTS query)), s1) /\
        batch_one limit query s
        = (Ok (BatchItem.mk query None (Some (NO_RESULTS query))), s1)).
Proof.
  intros F FO C CO limit. split.
  - intros queries s items s' Hb. unfold batch_geocode in Hb.
    destruct queries as [| q qs]; [discriminate |].
    destruct (BATCH_MAX_QUERIES <? List.length (q :: qs)); [discriminate |].
    apply map_m_ok in Hb. apply (batch_runs limit _ _ _ _ Hb).
  - intros query s s1 Hv Hs.
    pose proof (geocode_no_results query limit None None s s1 Hv Hs) as Hg.
    split; [exact Hg |].
    unfold batch_one, try_except, bind. now rewrite Hg.
Qed.

(* ================================================================= *)
(** * The claims on sample inputs *)

(** On the rationals, [a <= b] excludes [a > b]. *)
Lemma rat_le_excludes_gt (a b : Rat.t) :
  fleb a b = true -> fgtb a b = false.
Proof.
  unfold fgtb. simpl. unfold Rat.leb, Rat.ltb, Rat.eqb.
  destruct a as [p | | |], b as [q | | |]; simpl; try reflexivity; try discriminate.
  intros Hle. destruct (Qcompare q p) eqn:Hqp; try reflexivity.
  (* q < p contradicts p < q or p == q *)
  apply Qlt_alt in Hqp.
  apply orb_true_iff in Hle. destruct Hle as [Hlt | Heq].
  - destruct (Qcompare p q) eqn:Hpq; try discriminate.
    apply Qlt_alt in Hpq. exfalso. apply (Qlt_irrefl p).
    now apply Qlt_trans with q.
  - apply Qeq_bool_iff in Heq. rewrite Heq in Hqp.
    exfalso. now apply (Qlt_irrefl q).
Qed.

(** One 429 followed by a 200: two requests, one sleep of two seconds,
    and the decoded body. *)
Lemma request_retry_policy_witness :
  http_calls (world (snd (_request "search" Demo.q_boulder Demo.retry_once))) = 2 /\
  backoff_delays (world (snd (_request "search" Demo.q_boulder Demo.retry_once)))
  = [Rat.Fin 2] /\
  fst (_request "search" Demo.q_boulder Demo.retry_once)
  = Ok (BodyList [Demo.boulder]).
Proof.
  pose (resp := fun j => Demo.answer_of
                           (nth j Demo.retry_once_script (ConnectError ""))).
  assert (Hmiss :
            fst (_cache_get
                   (_cache_key "search"
                      (add_common_params (_email (self Demo.retry_once)) Demo.q_boulder))
                   (time_time (world Demo.retry_once))
                   (_cache (self Demo.retry_once))) = None)
    by (vm_compute; reflexivity).
  assert (Hk : 1 <= NominatimConfig.MAX_RETRIES) by (vm_compute; lia).
  assert (Hresp : forall j, j <= 1 ->
            server (world Demo.retry_once) (http_calls (world Demo.retry_once) + j)
                   (_base_url (self Demo.retry_once) ++ "/" ++ "search")%string
                   (add_common_params (_email (self Demo.retry_once)) Demo.q_boulder)
            = Answer (resp j)).
  { intros j Hj. destruct j as [| [| j]]; [reflexivity | reflexivity | lia]. }
  assert (Hretry : forall j, j < 1 ->
            status_code (resp j) = 429%Z \/ status_code (resp j) = 503%Z).
  { intros j Hj. destruct j as [| j]; [left; reflexivity | lia]. }
  assert (Hlast : 1 = NominatimConfig.MAX_RETRIES \/
                  (status_code (resp 1) <> 429%Z /\ status_code (resp 1) <> 503%Z)).
  { right. split; vm_compute; discriminate. }
  destruct (request_retry_policy Rat.t Rat.ops md5_HashOps "search" Demo.q_boulder
              Demo.retry_once resp 1 Hmiss Hk Hresp Hretry Hlast)
    as (Hcalls & Hdelays & _ & _ & Hok).
  split; [exact Hcalls |]. split; [exact Hdelays |].
  apply Hok; reflexivity.
Defined.

(** A put of a new key into the full sample cache evicts its first
    entry. *)
Lemma cache_bounded_lru_witness :
  exists lru rest,
    Demo.full_cache = lru :: rest /\
    _cache_put "fresh" (BodyList []) (Rat.Fin 2000) Demo.full_cache
    = Ok (rest ++ [("fresh", mkCacheEntry (BodyList []) (Rat.Fin 2000))]) /\
    List.length (rest ++ [("fresh", mkCacheEntry (BodyList []) (Rat.Fin 2000))])
    = NominatimConfig.CACHE_MAX_SIZE.
Proof.
  assert (Hrun : run_ops (Demo.fill_ops NominatimConfig.CACHE_MAX_SIZE) []
                 = Ok Demo.full_cache) by (vm_compute; reflexivity).
  assert (Hnew : ~ In "fresh" (od_keys Demo.full_cache))
    by (apply od_contains_false; vm_compute; reflexivity).
  assert (Hfull : List.length Demo.full_cache = NominatimConfig.CACHE_MAX_SIZE)
    by (vm_compute; reflexivity).
  destruct (cache_bounded_lru Rat.t Rat.ops) as (_ & Hevict & _ & _).
  destruct (Hevict _ _ "fresh" (BodyList []) (Rat.Fin 2000) Hrun Hnew Hfull)
    as (lru & rest & Hshape & _ & Hput & Hlen).
  exists lru, rest. split; [exact Hshape |]. split; [exact Hput | exact Hlen].
Defined.

(** An entry stored at time 100 is returned at time 3700 and gone at
    time 3701. *)
Lemma cache_entry_ttl_witness :
  exists stored,
    _cache_put "k" (BodyList [Demo.boulder]) (Rat.Fin 100) [] = Ok stored /\
    fst (_cache_get "k" (Rat.Fin 3700) stored) = Some (BodyList [Demo.boulder]) /\
    fst (_cache_get "k" (Rat.Fin 3701) stored) = None.
Proof.
  destruct (cache_entry_ttl Rat.t Rat.ops rat_le_excludes_gt) as (Hput & _).
  destruct (Hput [] "k" (BodyList [Demo.boulder]) (Rat.Fin 100))
    as (stored & Hstored & Hfresh & Hexpired).
  exists stored. split; [exact Hstored |]. split.
  - apply (Hfresh (Rat.Fin 3700)). vm_compute. reflexivity.
  - apply (Hexpired (Rat.Fin 3701)). vm_compute. reflexivity.
Defined.



(** Two queries, the second without results: two items, the first with
    results and the second with an error. *)
Lemma batch_geocode_partial_failure_witness :
  exists items s',
    batch_geocode ["Boulder"; "Atlantis"] 1 (Demo.start Demo.colorado) = (Ok items, s') /\
    map (@BatchItem.query Rat.t) items = ["Boulder"; "Atlantis"] /\
    Forall exactly_one_set items.
Proof.
  destruct (batch_geocode_partial_failure Rat.t Rat.ops _ NominatimClient_ClientOps
              ["Boulder"; "Atlantis"] 1 (Demo.start Demo.colorado))
    as (_ & _ & Hrun & _).
  destruct Hrun as (items & s' & Hb & _ & Hq & Hx);
    [discriminate | vm_compute; lia |].
  exists items, s'. split; [exact Hb |]. split; [exact Hq | exact Hx].
Defined.

(** The route from Boulder to Denver has two waypoints and one leg, and
    on the rationals its total is within a tenth of the leg's
    distance. *)
Lemma route_waypoints_legs_witness :
  exists r s',
    route_waypoints ["Boulder"; "Denver"] (Demo.start Demo.colorado) = (Ok r, s') /\
    List.length (RouteResult.waypoints r) = 2 /\
    List.length (RouteResult.legs r) = List.length (RouteResult.waypoints r) - 1 /\
    (Qabs (Rat.value (RouteResult.total_distance_m r)
           - sum_values Rat.value (map (@RouteLegItem.distance_m Rat.t)
                                       (RouteResult.legs r)))
     <= (1 # 20) * inject_Z (Z.of_nat (List.length (RouteResult.legs r) + 1)))%Q.
Proof.
  assert (Hroute : exists r s',
             route_waypoints ["Boulder"; "Denver"] (Demo.start Demo.colorado)
             = (Ok r, s')) by (vm_compute; eauto).
  assert (Hfinite :
            match fst (route_waypoints ["Boulder"; "Denver"]
                         (Demo.start Demo.colorado)) with
            | Ok r =>
                forallb Rat.is_finite
                  (map waypoint_distance (consecutive (RouteResult.waypoints r)))
            | Raise _ => false
            end = true) by (vm_compute; reflexivity).
  destruct Hroute as (r & s' & Hroute).
  rewrite Hroute in Hfinite. cbv beta iota delta [fst] in Hfinite.
  exists r, s'. split; [exact Hroute |].
  destruct (route_waypoints_legs Rat.t Rat.ops _ NominatimClient_ClientOps
              ["Boulder"; "Denver"] (Demo.start Demo.colorado)) as (_ & Hok).
  destruct (Hok r s' Hroute) as (_ & Hn & Hlegs & _ & _ & _ & Hclose & _).
  split; [exact Hn |]. split; [exact Hlegs |].
  apply (Hclose Rat.value (fun x => Rat.is_finite x = true) rat_exact).
  apply Forall_forall. intros d Hd.
  exact (proj1 (forallb_forall _ _) Hfinite d Hd).
Defined.


(** A blank query and a blank first waypoint leave the client alone; a
    blank second waypoint is reached after the first has been resolved
    by one request. *)
Lemma validation_before_requests_witness :
  geocode " " 5 None None (Demo.start Demo.colorado)
  = (Raise (mkExc ValueError EMPTY_QUERY), Demo.start Demo.colorado) /\
  route_waypoints [" "; "Boulder"] (Demo.start Demo.colorado)
  = (Raise (mkExc ValueError EMPTY_QUERY), Demo.start Demo.colorado) /\
  exists s1,
    route_waypoints ["Boulder"; " "] (Demo.start Demo.colorado)
    = (Raise (mkExc ValueError EMPTY_QUERY), s1) /\
    http_calls (world s1) = 1.
Proof.
  destruct (validation_before_requests Rat.t Rat.ops _ NominatimClient_ClientOps
              (Demo.start Demo.colorado)) as (Hquery & _ & _ & Hlate & Hfirst).
  split; [| split].
  - apply (Hquery " " 5%Z None None (Rat.Fin 0)). repeat constructor.
  - apply Hfirst; [simpl; lia | repeat constructor].
  - destruct (resolve_waypoint "Boulder" (Demo.start Demo.colorado))
      as [[w | e] s1] eqn:Hboulder; [| vm_compute in Hboulder; discriminate].
    exists s1. split.
    + apply (Hlate ["Boulder"] " " [] [w] s1);
        [simpl; lia | repeat constructor |].
      econstructor; [exact Hboulder | constructor].
    + vm_compute in Hboulder. inversion Hboulder. reflexivity.
Defined.

(** A query without results gets an error and no empty result list. *)
Lemma batch_results_nonempty_witness :
  batch_one 1 "Atlantis" (Demo.start Demo.colorado)
  = (Ok (BatchItem.mk "Atlantis" None (Some (NO_RESULTS "Atlantis"))),
     snd (search "Atlantis" 1 None None false None (Demo.start Demo.colorado))).
Proof.
  destruct (batch_results_nonempty Rat.t Rat.ops _ NominatimClient_ClientOps 1)
    as (_ & Hnone).
  apply Hnone; [reflexivity | vm_compute; reflexivity].
Defined.

(** C9 as stated fails for [route_waypoints]: with a blank second
    waypoint the validation error is raised after a request has been
    sent for the first waypoint. *)
Lemma route_validation_after_request :
  http_calls (world (Demo.start Demo.colorado)) = 0 /\
  fst (route_waypoints ["Boulder"; " "] (Demo.start Demo.colorado))
  = Raise (mkExc ValueError EMPTY_QUERY) /\
  http_calls (world (snd (route_waypoints ["Boulder"; " "] (Demo.start Demo.colorado))))
  = 1.
Proof. vm_compute. repeat split. Qed.

(** C7 on a failing input.  Around (40.0, -105.0) the building probe
    finds a place at the query point, distance 0.0, and the street probe
    one 111.2 m away: [nearby_places] returns the farther place first
    and the place at distance 0.0 last. *)
Theorem nearby_places_zero_distance_last :
  option_map (map (fun i => (NearbyItem.display_name i, NearbyItem.distance_m i)))
    (match fst (nearby_places (Rat.Fin 40) (Rat.Fin (-105)) 10 None
                  (Demo.start Demo.around_main_street)) with
     | Ok found => Some found
     | Raise _ => None
     end)
  = Some [("Main Street", Some (Rat.Fin (556 # 5)));
          ("1 Main Street", Some (Rat.Fin 0))].
Proof. vm_compute. reflexivity. Qed.

(* ================================================================= *)
(** * Further properties of the code *)

(** ** The request executor under any service *)

Section RequestAny.
Context {F : Type} `{FloatOps F} `{HashOps}.
Implicit Types (s : System F) (url : str) (params : Params F).

Lemma http_calls_app (w : World F) t1 t2 srv new :
  http_calls (mkWorld t1 t2 srv (events w ++ new))
  = http_calls w + List.length (gets_of new).
Proof.
  unfold http_calls, gets_of. simpl. now rewrite filter_app, length_app.
Qed.

Lemma http_calls_events (w w' : World F) new :
  events w' = events w ++ new ->
  http_calls w' = http_calls w + List.length (gets_of new).
Proof.
  unfold http_calls, gets_of. intros ->. now rewrite filter_app, length_app.
Qed.

(** [_rate_limit] returns, sends nothing and sleeps at most once. *)
Lemma rate_limit_trace s :
  exists s' new,
    _rate_limit s = (Ok tt, s') /\ frame s s' /\
    _client (self s') = _client (self s) /\
    events (world s') = events (world s) ++ new /\
    gets_of new = [] /\ Forall (fun ev => is_get ev = false) new.
Proof.
  unfold _rate_limit, bind, gets, modify, asyncio_sleep, ret,
    set_last_request_time. simpl.
  destruct (fltb _ _); simpl.
  - eexists. eexists. split; [reflexivity |]. split; [repeat split |].
    simpl. split; [reflexivity |]. split; [reflexivity |].
    split; [reflexivity |]. repeat constructor.
  - eexists. exists []. split; [reflexivity |]. split; [repeat split |].
    simpl. split; [reflexivity |]. split; [now rewrite app_nil_r |].
    split; [reflexivity | constructor].
Qed.

(** The retry loop under any service: it leaves the cache and the
    configuration alone, sends at most one GET per attempt, each to
    [url] with [params], and at least one when there is an
    attempt. *)
Lemma retry_loop_any url params attempts : forall last s,
  exists r s' new,
    retry_loop url params attempts last s = (r, s') /\
    frame s s' /\ _client (self s') = _client (self s) /\
    events (world s') = events (world s) ++ new /\
    Forall (request_event url params) new /\
    List.length (gets_of new) <= List.length attempts /\
    (attempts <> [] -> 1 <= List.length (gets_of new)).
Proof.
  induction attempts as [| attempt rest IH]; intros last s.
  - simpl. destruct last as [response |].
    + exists (Ok response), s, []. split; [reflexivity |].
      split; [apply frame_refl |]. split; [reflexivity |].
      split; [now rewrite app_nil_r |]. split; [constructor |].
      split; [simpl; lia | congruence].
    + eexists. exists s, []. split; [reflexivity |].
      split; [apply frame_refl |]. split; [reflexivity |].
      split; [now rewrite app_nil_r |]. split; [constructor |].
      split; [simpl; lia | congruence].
  - simpl.
    destruct (rate_limit_trace s) as (s1 & new1 & Hrl & Hf1 & Hc1 & He1 & Hg1 & Hs1).
    rewrite (bind_ok _ _ _ _ _ Hrl).
    unfold bind at 1. unfold client_get at 1.
    set (s2 := mkSystem (self s1)
                 (mkWorld (time_time (world s1)) (time_monotonic (world s1))
                          (server (world s1))
                          (events (world s1) ++ [EvGet url params]))).
    assert (Hf2 : frame s s2).
    { apply frame_trans with s1; [assumption | repeat split]. }
    assert (Hc2 : _client (self s2) = _client (self s)) by exact Hc1.
    assert (He2 : events (world s2)
                  = events (world s) ++ new1 ++ [EvGet url params]).
    { simpl. rewrite He1. now rewrite app_assoc. }
    assert (Hreq1 : Forall (request_event url params) (new1 ++ [EvGet url params])).
    { apply Forall_app. split.
      - eapply Forall_impl; [| exact Hs1]. intros [site d | u p]; simpl; auto.
        discriminate.
      - constructor; [now split | constructor]. }
    assert (Hcount1 : List.length (gets_of (new1 ++ [EvGet url params])) = 1).
    { unfold gets_of in *. rewrite filter_app, Hg1. reflexivity. }
    destruct (server (world s1) (http_calls (world s1)) url params)
      as [response | e | e].
    + destruct (retryable (status_code response)
                && (attempt <? NominatimConfig.MAX_RETRIES)).
      * unfold bind at 1. unfold asyncio_sleep at 1, modify at 1.
        match goal with
        | |- context [retry_loop url params rest (Some response) ?st] =>
            set (s3 := st)
        end.
        destruct (IH (Some response) s3) as (r & s' & new & Hrun & Hf & Hc & He & Hall & Hle & _).
        exists r, s', ((new1 ++ [EvGet url params])
                       ++ EvSleep RetryBackoff (retry_delay attempt) :: new).
        split; [exact Hrun |].
        split; [apply frame_trans with s3; [| assumption];
                apply frame_trans with s2; [assumption | repeat split] |].
        split; [rewrite Hc; exact Hc2 |].
        split.
        { rewrite He. subst s3. simpl. rewrite He1.
          rewrite <- !app_assoc. reflexivity. }
        split.
        { apply Forall_app. split; [assumption |].
          constructor; [exact I | assumption]. }
        unfold gets_of in *. rewrite filter_app, length_app. simpl.
        rewrite Hcount1. split; [lia | intros _; lia].
      * exists (Ok response), s2, (new1 ++ [EvGet url params]).
        split; [reflexivity |]. split; [assumption |]. split; [assumption |].
        split; [assumption |]. split; [assumption |].
        rewrite Hcount1. simpl. split; [lia | intros _; lia].
    + eexists. exists s2, (new1 ++ [EvGet url params]).
      split; [reflexivity |]. split; [assumption |]. split; [assumption |].
      split; [assumption |]. split; [assumption |].
      rewrite Hcount1. simpl. split; [lia | intros _; lia].
    + eexists. exists s2, (new1 ++ [EvGet url params]).
      split; [reflexivity |]. split; [assumption |]. split; [assumption |].
      split; [assumption |]. split; [assumption |].
      rewrite Hcount1. simpl. split; [lia | intros _; lia].
Qed.

(** [_request] under any service: a hit returns the cached payload and
    touches nothing but the order of the cache; a miss sends between
    one and [MAX_RETRIES + 1] GETs, all of them the same, and stores
    the payload exactly when it returns one. *)
Lemma request_shape endpoint params s :
  let params' := add_common_params (_email (self s)) params in
  let url := (_base_url (self s) ++ "/" ++ endpoint)%string in
  let key := _cache_key endpoint params' in
  let looked := _cache_get key (time_time (world s)) (_cache (self s)) in
  exists r s' new,
    _request endpoint params s = (r, s') /\
    server (world s') = server (world s) /\
    _base_url (self s') = _base_url (self s) /\
    _email (self s') = _email (self s) /\
    events (world s') = events (world s) ++ new /\
    Forall (request_event url params') new /\
    List.length (gets_of new) <= S NominatimConfig.MAX_RETRIES /\
    ((exists payload,
        fst looked = Some payload /\ r = Ok payload /\ new = [] /\
        world s' = world s /\ _client (self s') = _client (self s) /\
        _cache (self s') = snd looked) \/
     (fst looked = None /\ 1 <= List.length (gets_of new) /\
      _client (self s') = true /\
      ((exists payload,
          r = Ok payload /\
          _cache_put key payload (time_time (world s')) (snd looked)
          = Ok (_cache (self s'))) \/
       (exists e, r = Raise e /\ _cache (self s') = snd looked)))).
Proof.
  intros params' url key looked. unfold _request.
  unfold bind at 1. unfold gets at 1. fold params'. fold key.
  unfold bind at 1. unfold gets at 1.
  unfold bind at 1. unfold gets at 1. fold looked.
  destruct looked as [cached cache'] eqn:Hlooked.
  unfold bind at 1. unfold modify at 1.
  set (s0 := set_cache cache' s).
  destruct cached as [payload |].
  - exists (Ok payload), s0, []. split; [reflexivity |].
    repeat (split; [reflexivity |]).
    split; [simpl; now rewrite app_nil_r |]. split; [constructor |].
    split; [simpl; lia |]. left. exists payload. simpl. repeat split.
  - assert (Hgc : exists s1, _get_client s0 = (Ok tt, s1) /\ world s1 = world s /\
                             _base_url (self s1) = _base_url (self s) /\
                             _email (self s1) = _email (self s) /\
                             _cache (self s1) = cache' /\
                             _client (self s1) = true).
    { unfold _get_client, bind, gets. destruct (_client (self s0)) eqn:Hopen.
      - exists s0. repeat split. exact Hopen.
      - eexists. split; [reflexivity |]. repeat split. }
    destruct Hgc as (s1 & Hgc & Hw1 & Hb1 & Hm1 & Hk1 & Ho1).
    rewrite (bind_ok _ _ _ _ _ Hgc).
    unfold bind at 1. unfold gets at 1. rewrite Hb1. fold url.
    destruct (retry_loop_any url params'
                (seq 0 (NominatimConfig.MAX_RETRIES + 1)) None s1)
      as (r & s2 & new & Hloop & (Hsrv & Hcache & Hbase & Hemail) & Hopen & Hev
          & Hall & Hle & Hge).
    rewrite Ho1 in Hopen.
    rewrite length_seq in Hle.
    assert (Hone : 1 <= List.length (gets_of new)).
    { apply Hge. discriminate. }
    rewrite Hw1 in Hsrv, Hev. rewrite Hb1 in Hbase. rewrite Hm1 in Hemail.
    rewrite Hk1 in Hcache.
    assert (Hbound : List.length (gets_of new) <= S NominatimConfig.MAX_RETRIES)
      by lia.
    destruct r as [response | e].
    + rewrite (bind_ok _ _ _ _ _ Hloop).
      destruct (status_code response =? 429)%Z.
      { eexists. exists s2, new. split; [reflexivity |].
        repeat (split; [assumption |]). right.
        split; [reflexivity |]. split; [assumption |]. split; [assumption |].
        right. eexists. split; [reflexivity | assumption]. }
      destruct (negb (status_code response =? 200)%Z).
      { eexists. exists s2, new. split; [reflexivity |].
        repeat (split; [assumption |]). right.
        split; [reflexivity |]. split; [assumption |]. split; [assumption |].
        right. eexists. split; [reflexivity | assumption]. }
      destruct (json response) as [payload |].
      * unfold bind at 1. unfold gets at 1.
        unfold bind at 1. unfold gets at 1.
        destruct (cache_put_total key payload
                    (time_time (world s2)) (_cache (self s2))) as (c2 & Hput).
        rewrite (bind_lift_ok _ _ _ _ Hput).
        unfold bind, modify, ret.
        exists (Ok payload), (set_cache c2 s2), new. split; [reflexivity |].
        simpl. repeat (split; [assumption |]). right.
        split; [reflexivity |]. split; [assumption |]. split; [assumption |].
        left. exists payload. split; [reflexivity |]. now rewrite <- Hcache.
      * eexists. exists s2, new. split; [reflexivity |].
        repeat (split; [assumption |]). right.
        split; [reflexivity |]. split; [assumption |]. split; [assumption |].
        right. eexists. split; [reflexivity | assumption].
    + rewrite (bind_raise _ _ _ _ _ Hloop).
      exists (Raise e), s2, new. split; [reflexivity |].
      repeat (split; [assumption |]). right.
      split; [reflexivity |]. split; [assumption |]. split; [assumption |].
      right. exists e. split; [reflexivity | assumption].
Qed.
End RequestAny.

(** ** The cache under requests *)

Section CacheMore.
Context {F : Type} `{FloatOps F}.
Implicit Types (cache : Cache F) (key : str).

Lemma NoDup_keys_snoc cache key (v : CacheEntry F) :
  NoDup (od_keys cache) -> ~ In key (od_keys cache) ->
  NoDup (od_keys (cache ++ [(key, v)])).
Proof.
  intros Hnd Hnotin. rewrite od_keys_app. simpl.
  apply NoDup_app.
  - assumption.
  - repeat constructor. simpl. tauto.
  - intros k Hin [<- | []]. contradiction.
Qed.

(** What a put leaves: the new entry last, behind entries of the old
    cache that have other keys. *)
Lemma cache_put_shape key payload now cache cache' :
  _cache_put key payload now cache = Ok cache' ->
  exists prefix,
    cache' = prefix ++ [(key, mkCacheEntry payload now)] /\
    ~ In key (od_keys prefix) /\
    ((In key (od_keys cache) /\ prefix = od_del key cache) \/
     (~ In key (od_keys cache) /\
      List.length cache < NominatimConfig.CACHE_MAX_SIZE /\ prefix = cache) \/
     (~ In key (od_keys cache) /\
      NominatimConfig.CACHE_MAX_SIZE <= List.length cache /\
      exists lru, cache = lru :: prefix)).
Proof.
  intros Hput.
  destruct (od_contains key cache) eqn:Hc.
  - apply od_contains_In in Hc.
    rewrite (cache_put_existing key payload now cache Hc) in Hput.
    inversion Hput; subst. exists (od_del key cache).
    split; [reflexivity |]. split; [apply od_del_keys |]. left. now split.
  - apply od_contains_false in Hc.
    destruct (le_lt_dec NominatimConfig.CACHE_MAX_SIZE (List.length cache))
      as [Hfull | Hroom].
    + destruct (cache_put_new_full key payload now cache Hc Hfull)
        as (lru & rest & -> & Heq).
      rewrite Heq in Hput. inversion Hput; subst. exists rest.
      split; [reflexivity |]. split.
      * intros Hin. apply Hc. simpl. now right.
      * right. right. split; [assumption |]. split; [assumption |].
        now exists lru.
    + rewrite (cache_put_new_room key payload now cache Hc Hroom) in Hput.
      inversion Hput; subst. exists cache.
      split; [reflexivity |]. split; [assumption |]. right. left. now split.
Qed.

(** An entry just stored is the one found under its key. *)
Lemma cache_put_then_get key payload now cache cache' :
  _cache_put key payload now cache = Ok cache' ->
  od_get key cache' = Some (mkCacheEntry payload now).
Proof.
  intros Hput. destruct (cache_put_shape _ _ _ _ _ Hput) as (prefix & -> & Hn & _).
  now apply od_get_last.
Qed.

Lemma cache_put_bounded key payload now cache cache' :
  cache_bounded cache ->
  _cache_put key payload now cache = Ok cache' ->
  cache_bounded cache'.
Proof.
  intros [Hnd Hlen] Hput.
  destruct (cache_put_shape _ _ _ _ _ Hput)
    as (prefix & -> & Hn & [[Hin ->] | [(Hnotin & Hroom & ->) | (Hnotin & Hfull & lru & ->)]]).
  - split.
    + apply NoDup_keys_snoc; [now apply od_del_NoDup | assumption].
    + rewrite length_app. simpl.
      pose proof (od_del_length_present _ key cache Hin). lia.
  - split.
    + now apply NoDup_keys_snoc.
    + rewrite length_app. simpl. lia.
  - split.
    + apply NoDup_keys_snoc; [| assumption].
      simpl in Hnd. now inversion Hnd.
    + rewrite length_app. simpl in *. lia.
Qed.

Lemma cache_get_bounded key now cache :
  cache_bounded cache -> cache_bounded (snd (_cache_get key now cache)).
Proof.
  intros [Hnd Hlen].
  destruct (_cache_get key now cache) as [[payload |] cache'] eqn:Hget; simpl.
  - destruct (cache_get_hit _ _ _ _ _ Hget) as (entry & Hentry & _ & _ & ->).
    assert (Hin : In key (od_keys cache)).
    { destruct (od_contains key cache) eqn:Hc; [now apply od_contains_In |].
      apply od_contains_false in Hc.
      rewrite (od_get_absent _ key cache Hc) in Hentry. discriminate. }
    split.
    + apply NoDup_keys_snoc; [now apply od_del_NoDup | apply od_del_keys].
    + rewrite length_app. simpl.
      pose proof (od_del_length_present _ key cache Hin). lia.
  - rewrite (cache_get_miss _ _ _ _ Hget). split.
    + now apply od_del_NoDup.
    + pose proof (od_del_length_le _ key cache). lia.
Qed.
End CacheMore.

Section RequestMore.
Context {F : Type} `{FloatOps F} `{HashOps}.
Implicit Types (s : System F) (params : Params F).

(** The three public methods change the client and the world only
    through [_request]. *)
Lemma search_state query limit cc vb bounded lang s :
  exists params,
    snd (search query limit cc vb bounded lang s) = snd (_request "search" params s).
Proof.
  unfold search. eexists. unfold bind.
  destruct (_request "search" _ s) as [[[places | place] | e] s'] eqn:Hreq;
    rewrite Hreq; reflexivity.
Qed.

Lemma reverse_state lat lon zoom lang s :
  exists params,
    snd (reverse lat lon zoom lang s) = snd (_request "reverse" params s).
Proof.
  unfold reverse. eexists. unfold bind.
  destruct (_request "reverse" _ s) as [[[[| place places] | place] | e] s'] eqn:Hreq;
    rewrite Hreq; reflexivity.
Qed.

Lemma lookup_state osm_ids s :
  exists params,
    snd (lookup osm_ids s) = snd (_request "lookup" params s).
Proof.
  unfold lookup. eexists. unfold bind.
  destruct (_request "lookup" _ s) as [[[places | place] | e] s'] eqn:Hreq;
    rewrite Hreq; reflexivity.
Qed.

Lemma request_bounded endpoint params s :
  cache_bounded (_cache (self s)) ->
  cache_bounded (_cache (self (snd (_request endpoint params s)))).
Proof.
  intros Hb.
  destruct (request_shape endpoint params s)
    as (r & s' & new & Hreq & _ & _ & _ & _ & _ & _ & Hcases).
  rewrite Hreq. simpl.
  destruct Hcases as [(payload & _ & _ & _ & _ & _ & ->)
                     | (_ & _ & _ & [(payload & _ & Hput) | (e & _ & ->)])].
  - now apply cache_get_bounded.
  - eapply cache_put_bounded; [| exact Hput]. now apply cache_get_bounded.
  - now apply cache_get_bounded.
Qed.


End RequestMore.

Section RequestMoreRuns.
Context {F : Type} `{FloatOps F} `{HashOps}.
Implicit Types (s : System F) (url : str) (params : Params F).

(** The retry loop: [k] retryable answers and then a transport
    failure. *)
Lemma retry_loop_transport_after url params (k : nat) :
  forall (resp : nat -> Response F) (a n : nat) last s e,
  a + k <= NominatimConfig.MAX_RETRIES ->
  a + n = S NominatimConfig.MAX_RETRIES ->
  (forall j, j < k ->
     server (world s) (http_calls (world s) + j) url params = Answer (resp j)) ->
  (forall j, j < k -> retryable (status_code (resp j)) = true) ->
  (server (world s) (http_calls (world s) + k) url params = ConnectError e \/
   server (world s) (http_calls (world s) + k) url params = TimeoutException e) ->
  exists s',
    retry_loop url params (seq a n) last s
    = (Raise (mkExc ConnectionError (NETWORK_ERROR e)), s') /\
    frame s s' /\
    http_calls (world s') = http_calls (world s) + S k /\
    backoff_delays (world s')
    = backoff_delays (world s) ++ map retry_delay (seq a k).
Proof.
  induction k as [| k IH]; intros resp a n last s e Hak Han Hresp Hretry Hfail.
  - destruct n as [| n]; [lia |]. simpl.
    destruct (rate_limit_effect s) as (s1 & Hrl & Hf1 & Hc1 & Hb1).
    rewrite (bind_ok _ _ _ _ _ Hrl).
    destruct (client_get_effect url params s1) as (s2 & Hget & Hf2 & Hc2 & Hb2).
    rewrite (bind_ok _ _ _ _ _ Hget).
    pose proof Hf1 as (Hsrv1 & _).
    rewrite Hsrv1, Hc1. rewrite Nat.add_0_r in Hfail.
    exists s2.
    assert (Hrest : frame s s2 /\
                    http_calls (world s2) = http_calls (world s) + 1 /\
                    backoff_delays (world s2) = backoff_delays (world s) ++ []).
    { split; [now apply frame_trans with s1 |]. split; [lia |].
      rewrite app_nil_r. congruence. }
    destruct Hfail as [-> | ->]; (split; [reflexivity | exact Hrest]).
  - destruct n as [| n]; [lia |]. simpl.
    destruct (rate_limit_effect s) as (s1 & Hrl & Hf1 & Hc1 & Hb1).
    rewrite (bind_ok _ _ _ _ _ Hrl).
    destruct (client_get_effect url params s1) as (s2 & Hget & Hf2 & Hc2 & Hb2).
    rewrite (bind_ok _ _ _ _ _ Hget).
    pose proof Hf1 as (Hsrv1 & _). pose proof Hf2 as (Hsrv2 & _).
    rewrite Hsrv1, Hc1. pose proof (Hresp 0 (Nat.lt_0_succ _)) as Hr0.
    rewrite Nat.add_0_r in Hr0. rewrite Hr0.
    rewrite (Hretry 0) by lia.
    assert (Hlt : (a <? NominatimConfig.MAX_RETRIES) = true)
      by (apply Nat.ltb_lt; lia).
    rewrite Hlt. simpl.
    destruct (backoff_sleep_effect (retry_delay a) s2) as (s3 & Hsl & Hf3 & Hc3 & Hb3).
    rewrite (bind_ok _ _ _ _ _ Hsl).
    pose proof Hf3 as (Hsrv3 & _).
    destruct (IH (fun j => resp (S j)) (S a) n (Some (resp 0)) s3 e) as
      (s' & Hrun & Hf' & Hc' & Hb'); try lia.
    + intros j Hj. rewrite Hsrv3, Hsrv2, Hsrv1, Hc3, Hc2, Hc1.
      replace (S (http_calls (world s)) + j) with (http_calls (world s) + S j) by lia.
      apply Hresp. lia.
    + intros j Hj. apply Hretry. lia.
    + rewrite Hsrv3, Hsrv2, Hsrv1, Hc3, Hc2, Hc1.
      replace (S (http_calls (world s)) + k) with (http_calls (world s) + S k) by lia.
      exact Hfail.
    + exists s'. split; [exact Hrun |]. split.
      * apply frame_trans with s3; [| assumption].
        apply frame_trans with s2; [| assumption].
        apply frame_trans with s1; assumption.
      * split; [lia |].
        rewrite Hb', Hb3, Hb2, Hb1. now rewrite <- app_assoc.
Qed.

(** A request that misses the cache, gets [k] retryable answers and
    then fails in transport. *)
Lemma request_miss_transport endpoint params s
      (resp : nat -> Response F) (k : nat) e :
  let params' := add_common_params (_email (self s)) params in
  let url := (_base_url (self s) ++ "/" ++ endpoint)%string in
  let key := _cache_key endpoint params' in
  fst (_cache_get key (time_time (world s)) (_cache (self s))) = None ->
  k <= NominatimConfig.MAX_RETRIES ->
  (forall j, j < k ->
     server (world s) (http_calls (world s) + j) url params' = Answer (resp j)) ->
  (forall j, j < k -> retryable (status_code (resp j)) = true) ->
  (server (world s) (http_calls (world s) + k) url params' = ConnectError e \/
   server (world s) (http_calls (world s) + k) url params' = TimeoutException e) ->
  exists s',
    _request endpoint params s
    = (Raise (mkExc ConnectionError (NETWORK_ERROR e)), s') /\
    http_calls (world s') = http_calls (world s) + S k /\
    backoff_delays (world s')
    = backoff_delays (world s) ++ map retry_delay (seq 0 k) /\
    _cache (self s') = od_del key (_cache (self s)).
Proof.
  intros params' url key Hmiss Hk Hresp Hretry Hfail.
  unfold _request.
  unfold bind at 1. unfold gets at 1. fold params'. fold key.
  unfold bind at 1. unfold gets at 1.
  unfold bind at 1. unfold gets at 1.
  destruct (_cache_get key (time_time (world s)) (_cache (self s)))
    as [cached cache'] eqn:Hget.
  simpl in Hmiss. subst cached.
  pose proof (cache_get_miss _ _ _ _ Hget) as Hcache'.
  unfold bind at 1. unfold modify at 1.
  set (s0 := set_cache cache' s).
  assert (Hgc : exists s1, _get_client s0 = (Ok tt, s1) /\ world s1 = world s /\
                           _base_url (self s1) = _base_url (self s) /\
                           _cache (self s1) = cache').
  { unfold _get_client, bind, gets. destruct (_client (self s0)).
    - exists s0. repeat split.
    - eexists. split; [reflexivity |]. repeat split. }
  destruct Hgc as (s1 & Hgc & Hw1 & Hb1 & Hk1).
  rewrite (bind_ok _ _ _ _ _ Hgc).
  unfold bind at 1. unfold gets at 1. rewrite Hb1. fold url.
  destruct (retry_loop_transport_after url params' k resp 0
              (NominatimConfig.MAX_RETRIES + 1) None s1 e)
    as (s2 & Hloop & Hframe & Hcalls & Hdelays).
  - lia.
  - lia.
  - intros j Hj. rewrite Hw1. now apply Hresp.
  - assumption.
  - rewrite Hw1. exact Hfail.
  - rewrite (bind_raise _ _ _ _ _ Hloop).
    rewrite Hw1 in Hcalls, Hdelays.
    exists s2. split; [reflexivity |]. split; [assumption |].
    split; [assumption |].
    destruct Hframe as (_ & Hc & _). rewrite Hc, Hk1. exact Hcache'.
Qed.
End RequestMoreRuns.

(** ** Properties of the request executor *)

(** X1.  Whatever the service answers, one call of
    [NominatimClient._request] sends at most [MAX_RETRIES + 1] HTTP
    requests, every one of them a GET of [base_url/endpoint] with the
    caller's parameters completed by the common ones, and it sends none
    when the cache has a fresh entry for the request. *)
Theorem request_attempts_bounded :
  forall (F : Type) (FO : FloatOps F) (HO : HashOps)
         (endpoint : str) (params : Params F) (s : System F),
    let params' := add_common_params (_email (self s)) params in
    let url := (_base_url (self s) ++ "/" ++ endpoint)%string in
    let looked := _cache_get (_cache_key endpoint params') (time_time (world s))
                             (_cache (self s)) in
    let s' := snd (_request endpoint params s) in
    exists new,
      events (world s') = events (world s) ++ new /\
      Forall (request_event url params') new /\
      http_calls (world s')
      <= http_calls (world s) + (NominatimConfig.MAX_RETRIES + 1) /\
      (fst looked <> None -> new = []) /\
      (fst looked = None -> http_calls (world s) < http_calls (world s')).
Proof.
  intros F FO HO endpoint params s params' url looked s'.
  destruct (request_shape endpoint params s)
    as (r & s1 & new & Hreq & _ & _ & _ & Hev & Hall & Hle & Hcases).
  subst s'. rewrite Hreq. simpl snd. exists new.
  split; [assumption |]. split; [assumption |].
  rewrite (http_calls_events _ _ _ Hev).
  split; [lia |]. fold params' in Hcases. fold looked in Hcases.
  destruct Hcases as [(payload & Hhit & _ & -> & _) | (Hmiss & Hone & _)].
  - split; [reflexivity |]. rewrite Hhit. discriminate.
  - split; [congruence |]. intros _. lia.
Qed.

(** X2.  A call of [_request] that raises stores nothing: the cache it
    leaves is the one it found, without the entry of this request's own
    key (an entry there can only have been an expired one). *)
Theorem request_failure_not_cached :
  forall (F : Type) (FO : FloatOps F) (HO : HashOps)
         (endpoint : str) (params : Params F) (s : System F) (e : Exc F),
    fst (_request endpoint params s) = Raise e ->
    let params' := add_common_params (_email (self s)) params in
    let s' := snd (_request endpoint params s) in
    _cache (self s') = od_del (_cache_key endpoint params') (_cache (self s)) /\
    cache_entries s' <= cache_entries s.
Proof.
  intros F FO HO endpoint params s e Hraise params' s'.
  destruct (request_shape endpoint params s)
    as (r & s1 & new & Hreq & _ & _ & _ & _ & _ & _ & Hcases).
  subst s'. rewrite Hreq in *. simpl in Hraise. simpl snd. subst r.
  fold params' in Hcases.
  assert (Hcache : _cache (self s1)
                   = od_del (_cache_key endpoint params') (_cache (self s))).
  { destruct Hcases as [(payload & _ & Hr & _)
                       | (Hmiss & _ & _ & [(payload & Hr & _) | (e' & _ & Hc)])];
      try discriminate.
    rewrite Hc.
    destruct (_cache_get (_cache_key endpoint params') (time_time (world s))
                         (_cache (self s))) as [cached cache'] eqn:Hget.
    simpl in Hmiss. subst cached. simpl. now apply cache_get_miss in Hget. }
  split; [assumption |]. unfold cache_entries. rewrite Hcache.
  apply od_del_length_le.
Qed.

(** X3.  However the service behaves, [search], [reverse], [lookup] and
    [_request] keep the cache within bounds: from a cache with distinct
    keys and at most [CACHE_MAX_SIZE] entries they lead to one, so
    [Geocoder.cache_entries] never exceeds [CACHE_MAX_SIZE]. *)
Theorem requests_keep_cache_bounded :
  forall (F : Type) (FO : FloatOps F) (HO : HashOps) (s : System F),
    cache_bounded (_cache (self s)) ->
    (forall endpoint params,
       let s' := snd (_request endpoint params s) in
       cache_bounded (_cache (self s')) /\
       cache_entries s' <= NominatimConfig.CACHE_MAX_SIZE) /\
    (forall query limit countrycodes viewbox bounded language,
       let s' := snd (search query limit countrycodes viewbox bounded language s) in
       cache_bounded (_cache (self s')) /\
       cache_entries s' <= NominatimConfig.CACHE_MAX_SIZE) /\
    (forall lat lon zoom language,
       let s' := snd (reverse lat lon zoom language s) in
       cache_bounded (_cache (self s')) /\
       cache_entries s' <= NominatimConfig.CACHE_MAX_SIZE) /\
    (forall osm_ids,
       let s' := snd (lookup osm_ids s) in
       cache_bounded (_cache (self s')) /\
       cache_entries s' <= NominatimConfig.CACHE_MAX_SIZE).
Proof.
  intros F FO HO s Hb.
  assert (Hreq : forall endpoint params,
             cache_bounded (_cache (self (snd (_request endpoint params s)))) /\
             cache_entries (snd (_request endpoint params s))
             <= NominatimConfig.CACHE_MAX_SIZE).
  { intros endpoint params.
    pose proof (request_bounded endpoint params s Hb) as Hb'.
    split; [assumption | apply Hb']. }
  split; [exact Hreq |]. split; [| split].
  - intros query limit cc vb bounded lang.
    destruct (search_state query limit cc vb bounded lang s) as (params & ->).
    apply Hreq.
  - intros lat lon zoom lang.
    destruct (reverse_state lat lon zoom lang s) as (params & ->).
    apply Hreq.
  - intros osm_ids.
    destruct (lookup_state osm_ids s) as (params & ->).
    apply Hreq.
Qed.


(** X5.  A transport failure is never retried: when the service answers
    [k <= MAX_RETRIES] times with 429 or 503 and the next attempt fails
    to connect or times out, [_request] raises [ConnectionError] with
    the network-error message after exactly [k + 1] GETs and [k]
    backoff sleeps, and stores nothing. *)
Theorem request_transport_failure :
  forall (F : Type) (FO : FloatOps F) (HO : HashOps)
         (endpoint : str) (params : Params F) (s : System F)
         (resp : nat -> Response F) (k : nat) (e : str),
    let params' := add_common_params (_email (self s)) params in
    let url := (_base_url (self s) ++ "/" ++ endpoint)%string in
    let key := _cache_key endpoint params' in
    fst (_cache_get key (time_time (world s)) (_cache (self s))) = None ->
    k <= NominatimConfig.MAX_RETRIES ->
    (forall j, j < k ->
       server (world s) (http_calls (world s) + j) url params' = Answer (resp j)) ->
    (forall j, j < k ->
       status_code (resp j) = 429%Z \/ status_code (resp j) = 503%Z) ->
    (server (world s) (http_calls (world s) + k) url params' = ConnectError e \/
     server (world s) (http_calls (world s) + k) url params' = TimeoutException e) ->
    let s' := snd (_request endpoint params s) in
    fst (_request endpoint params s)
    = Raise (mkExc ConnectionError (NETWORK_ERROR e)) /\
    http_calls (world s') = http_calls (world s) + k + 1 /\
    backoff_delays (world s')
    = backoff_delays (world s)
      ++ map (fun attempt =>
                fmul (flit NominatimConfig.RETRY_BASE_DELAY)
                     (flit (inject_Z (2 ^ Z.of_nat attempt))))
             (seq 0 k) /\
    _cache (self s') = od_del key (_cache (self s)).
Proof.
  intros F FO HO endpoint params s resp k e params' url key
         Hmiss Hk Hresp Hretry Hfail s'.
  destruct (request_miss_transport endpoint params s resp k e Hmiss Hk Hresp)
    as (s1 & Hrun & Hcalls & Hdelays & Hcache).
  - intros j Hj. apply retryable_iff. now apply Hretry.
  - exact Hfail.
  - subst s'. rewrite Hrun. simpl fst. simpl snd.
    split; [reflexivity |]. split; [lia |]. split; assumption.
Qed.

(** X6.  An entry older than the time to live is not served: the
    request goes to the service again; when it returns a payload, that
    payload is stored under the key with the time of the new answer,
    and when it raises, the key is no longer cached. *)
Theorem request_refetches_expired :
  forall (F : Type) (FO : FloatOps F) (HO : HashOps)
         (endpoint : str) (params : Params F) (s : System F)
         (entry : CacheEntry F),
    let params' := add_common_params (_email (self s)) params in
    let key := _cache_key endpoint params' in
    od_get key (_cache (self s)) = Some entry ->
    fgtb (fsub (time_time (world s)) (timestamp entry))
         (flit NominatimConfig.CACHE_TTL_SECONDS) = true ->
    let s' := snd (_request endpoint params s) in
    http_calls (world s) < http_calls (world s') /\
    (forall payload,
        fst (_request endpoint params s) = Ok payload ->
        od_get key (_cache (self s'))
        = Some (mkCacheEntry payload (time_time (world s')))) /\
    (forall e,
        fst (_request endpoint params s) = Raise e ->
        od_get key (_cache (self s')) = None).
Proof.
  intros F FO HO endpoint params s entry params' key Hentry Hexpired s'.
  pose proof (cache_get_expired key (time_time (world s)) (_cache (self s))
                entry Hentry Hexpired) as Hlooked.
  destruct (request_shape endpoint params s)
    as (r & s1 & new & Hreq & _ & _ & _ & Hev & _ & _ & Hcases).
  fold params' in Hcases. fold key in Hcases. rewrite Hlooked in Hcases.
  subst s'. rewrite Hreq. simpl fst. simpl snd. simpl in Hcases.
  destruct Hcases as [(payload & Hhit & _) | (_ & Hone & _ & Hstore)];
    [discriminate |].
  split; [rewrite (http_calls_events _ _ _ Hev); lia |]. split.
  - intros payload Hr. destruct Hstore as [(p & Hp & Hput) | (e & He & _)];
      [| congruence].
    rewrite Hp in Hr. inversion Hr; subst p.
    exact (cache_put_then_get _ _ _ _ _ Hput).
  - intros e Hr. destruct Hstore as [(p & Hp & _) | (e' & _ & Hcache)];
      [congruence |].
    rewrite Hcache. apply od_get_absent. apply od_del_keys.
Qed.

(** X7.  The HTTP client is created on demand: a request answered from
    the cache leaves it as it is, a request that goes to the service
    leaves it open.  [close] closes it, keeps the cache and the world,
    and closing twice is closing once. *)
Theorem client_opened_on_demand :
  forall (F : Type) (FO : FloatOps F) (HO : HashOps)
         (endpoint : str) (params : Params F) (s : System F),
    let params' := add_common_params (_email (self s)) params in
    let looked := _cache_get (_cache_key endpoint params') (time_time (world s))
                             (_cache (self s)) in
    let s' := snd (_request endpoint params s) in
    (fst looked <> None -> _client (self s') = _client (self s)) /\
    (fst looked = None -> _client (self s') = true) /\
    fst (close s') = Ok tt /\
    _client (self (snd (close s'))) = false /\
    _cache (self (snd (close s'))) = _cache (self s') /\
    world (snd (close s')) = world s' /\
    close (snd (close s')) = (Ok tt, snd (close s')).
Proof.
  intros F FO HO endpoint params s params' looked s'.
  destruct (request_shape endpoint params s)
    as (r & s1 & new & Hreq & _ & _ & _ & _ & _ & _ & Hcases).
  fold params' in Hcases. fold looked in Hcases.
  subst s'. rewrite Hreq. simpl snd.
  split; [| split].
  - intros Hhit.
    destruct Hcases as [(payload & _ & _ & _ & _ & Hopen & _) | (Hmiss & _)];
      [assumption | contradiction].
  - intros Hmiss.
    destruct Hcases as [(payload & Hhit & _) | (_ & _ & Hopen & _)];
      [congruence | assumption].
  - unfold close, bind, gets, modify, ret, set_client.
    destruct (_client (self s1)) eqn:Hopen; simpl.
    + repeat split.
    + rewrite Hopen. repeat split.
Qed.

Section EmptyAnswers.
Context {F : Type} `{FloatOps F} `{HashOps}.

(** A request on an empty cache to a service that always answers 200
    with the same body returns that body after one GET. *)
Lemma request_constant_service endpoint params (s : System F) text payload :
  _cache (self s) = [] ->
  (forall n url p,
     server (world s) n url p = Answer (mkResponse 200 text (Some payload))) ->
  exists s',
    _request endpoint params s = (Ok payload, s') /\
    http_calls (world s') = S (http_calls (world s)).
Proof.
  intros Hempty Hsrv.
  destruct (request_miss_run endpoint params s
              (fun _ => mkResponse 200 text (Some payload)) 0)
    as (s' & Hrun & Hcalls & _).
  - rewrite Hempty. reflexivity.
  - lia.
  - intros j _. apply Hsrv.
  - intros j Hj. lia.
  - left. reflexivity.
  - exists s'. split; [exact Hrun | lia].
Qed.
End EmptyAnswers.

(** X8.  When the service answers 200 with an empty JSON list,
    [Geocoder.reverse_geocode] fails with an [IndexError] (from
    [result[0]] in [NominatimClient.reverse]) for every valid
    coordinate, whereas [Geocoder.geocode] fails with the no-results
    [ValueError] naming the query. *)
Theorem empty_list_answer_errors :
  forall (F : Type) (FO : FloatOps F) (HO : HashOps) (s : System F) (text : str),
    _cache (self s) = [] ->
    (forall n url p,
       server (world s) n url p = Answer (mkResponse 200 text (Some (BodyList [])))) ->
    (forall lat lon zoom language,
       _validate_coordinates lat lon = Ok tt ->
       fst (reverse_geocode lat lon zoom language s)
       = Raise (mkExc IndexError IndexOutOfRange)) /\
    (forall query limit countrycodes language,
       _validate_query (F:=F) query = Ok tt ->
       fst (geocode query limit countrycodes language s)
       = Raise (mkExc ValueError (NO_RESULTS query))).
Proof.
  intros F FO HO s text Hempty Hsrv. split.
  - intros lat lon zoom language Hvalid.
    unfold reverse_geocode. rewrite (bind_lift_ok _ _ _ _ Hvalid).
    unfold client_reverse, NominatimClient_ClientOps, reverse.
    match goal with
    | |- context [_request "reverse" ?p] =>
        destruct (request_constant_service "reverse" p s text (BodyList []) Hempty Hsrv)
          as (s' & Hrun & _)
    end.
    unfold bind at 1. unfold bind at 1. rewrite Hrun. reflexivity.
  - intros query limit cc language Hvalid.
    unfold geocode. rewrite (bind_lift_ok _ _ _ _ Hvalid).
    unfold client_search, NominatimClient_ClientOps, search.
    match goal with
    | |- context [_request "search" ?p] =>
        destruct (request_constant_service "search" p s text (BodyList []) Hempty Hsrv)
          as (s' & Hrun & _)
    end.
    unfold bind at 1. unfold bind at 1. rewrite Hrun. reflexivity.
Qed.

(** ** The cache key and the order of the parameters *)

Lemma ltb_asym (a b : str) : String.ltb a b = true -> String.ltb b a = false.
Proof.
  unfold String.ltb. rewrite (String.compare_antisym a b).
  destruct (String.compare b a); simpl; congruence.
Qed.

Lemma ltb_trans (a b c : str) :
  String.ltb a b = true -> String.ltb b c = true -> String.ltb a c = true.
Proof.
  unfold String.ltb.
  destruct (String.compare a b) eqn:Hab; try discriminate.
  destruct (String.compare b c) eqn:Hbc; try discriminate.
  intros _ _.
  apply OrderedTypeEx.String_as_OT.cmp_lt in Hab, Hbc.
  pose proof (OrderedTypeEx.String_as_OT.lt_trans _ _ _ Hab Hbc) as Hac.
  apply OrderedTypeEx.String_as_OT.cmp_lt in Hac.
  unfold OrderedTypeEx.String_as_OT.cmp in Hac. now rewrite Hac.
Qed.

Lemma ltb_total (a b : str) :
  a <> b -> String.ltb a b = true \/ String.ltb b a = true.
Proof.
  intros Hne. unfold String.ltb. rewrite (String.compare_antisym b a).
  destruct (String.compare a b) eqn:Hab; simpl; auto.
  apply String.compare_eq_iff in Hab. contradiction.
Qed.

Section SortedItems.
Variable V : Type.
Implicit Types (a b : str * V) (l : list (str * V)).

(** Insertions of items with different keys commute. *)
Lemma insert_item_comm a b l :
  fst a <> fst b ->
  insert_item a (insert_item b l) = insert_item b (insert_item a l).
Proof.
  intros Hne. induction l as [| y l IH]; simpl.
  - destruct (ltb_total _ _ Hne) as [Hab | Hba].
    + rewrite Hab, (ltb_asym _ _ Hab). reflexivity.
    + rewrite Hba, (ltb_asym _ _ Hba). reflexivity.
  - destruct (String.ltb (fst a) (fst y)) eqn:Hay;
      destruct (String.ltb (fst b) (fst y)) eqn:Hby; simpl.
    + rewrite Hay, Hby.
      destruct (ltb_total _ _ Hne) as [Hab | Hba].
      * rewrite Hab, (ltb_asym _ _ Hab). reflexivity.
      * rewrite Hba, (ltb_asym _ _ Hba). reflexivity.
    + rewrite Hay, Hby.
      destruct (String.ltb (fst b) (fst a)) eqn:Hba; [| reflexivity].
      rewrite (ltb_trans _ _ _ Hba Hay) in Hby. discriminate.
    + rewrite Hay, Hby.
      destruct (String.ltb (fst a) (fst b)) eqn:Hab; [| reflexivity].
      rewrite (ltb_trans _ _ _ Hab Hby) in Hay. discriminate.
    + rewrite Hay, Hby. now rewrite IH.
Qed.

(** [sorted(d.items())] does not depend on the order of [d]. *)
Lemma sorted_items_permutation l1 l2 :
  Permutation l1 l2 -> NoDup (map fst l1) ->
  sorted_items l1 = sorted_items l2.
Proof.
  unfold sorted_items. intros Hperm. generalize (@nil (str * V)).
  induction Hperm as [| x l1 l2 Hperm IH | x y l | l1 l2 l3 H12 IH12 H23 IH23];
    intros acc Hnd; simpl.
  - reflexivity.
  - apply IH. simpl in Hnd. now inversion Hnd.
  - rewrite insert_item_comm; [reflexivity |].
    simpl in Hnd. inversion Hnd as [| ? ? Hnotin _]; subst.
    intros Heq. apply Hnotin. simpl. now left.
  - rewrite IH12 by assumption. apply IH23.
    eapply Permutation_NoDup; [| exact Hnd]. now apply Permutation_map.
Qed.
End SortedItems.

Section KeyOrder.
Context {F : Type} `{FloatOps F} `{HashOps}.

(** On a dict the loop of [_cache_key] normalises the values in
    place. *)
Lemma normalize_params_map (params : Params F) :
  NoDup (map fst params) ->
  normalize_params params = map normalize_item params.
Proof.
  unfold normalize_params.
  assert (Hgen : forall acc : Params F,
             NoDup (map fst params) ->
             (forall k, In k (map fst params) -> ~ In k (od_keys acc)) ->
             fold_left (fun normalized kv =>
                          od_set (fst kv) (normalize_value (snd kv)) normalized)
                       params acc
             = acc ++ map normalize_item params).
  { induction params as [| [k v] params IH]; intros acc Hnd Hfresh; simpl.
    - now rewrite app_nil_r.
    - simpl in Hnd. inversion Hnd as [| ? ? Hnotin Hnd']; subst.
      rewrite od_set_absent by (apply Hfresh; now left).
      rewrite IH.
      + now rewrite <- app_assoc.
      + assumption.
      + intros k' Hin. rewrite od_keys_app. simpl. intros Hin'.
        apply in_app_or in Hin'. destruct Hin' as [Hin' | [<- | []]].
        * apply (Hfresh k'); [now right | assumption].
        * contradiction. }
  intros Hnd. apply (Hgen [] Hnd). intros k _ [].
Qed.
End KeyOrder.

(** X9.  [NominatimClient._cache_key] does not depend on the order in
    which the parameters were put into the dict: two dicts with the same
    items get the same key. *)
Theorem cache_key_order_insensitive :
  forall (F : Type) (FO : FloatOps F) (HO : HashOps)
         (endpoint : str) (p1 p2 : Params F),
    NoDup (map fst p1) -> Permutation p1 p2 ->
    _cache_key endpoint p1 = _cache_key endpoint p2.
Proof.
  intros F FO HO endpoint p1 p2 Hnd Hperm.
  unfold _cache_key, cache_key_raw, json_dumps_sorted.
  assert (Hnd2 : NoDup (map fst p2)).
  { eapply Permutation_NoDup; [| exact Hnd]. now apply Permutation_map. }
  rewrite !normalize_params_map by assumption.
  rewrite (sorted_items_permutation _ (map normalize_item p1) (map normalize_item p2)).
  - reflexivity.
  - now apply Permutation_map.
  - rewrite map_map. simpl. exact Hnd.
Qed.

(** ** Parsing: when it returns and what it raises *)

Section ParseMore.
Context {F : Type} `{FloatOps F}.

Lemma float_str_cases (text : str) :
  (parseable text /\ exists x, float_str text = Ok x) \/
  (~ parseable text /\
   float_str text = Raise (mkExc ValueError (NotAFloat text))).
Proof.
  unfold float_str, parseable. destruct (float_of_str text) as [x |].
  - left. split; [discriminate | now exists x].
  - right. split; [tauto | reflexivity].
Qed.

(** The comprehension [[float(x) for x in l]]. *)
Lemma floats_cases (l : list str) :
  (Forall parseable l /\
   exists xs, map_result float_str l = Ok xs /\ List.length xs = List.length l) \/
  (~ Forall parseable l /\
   exists e, map_result float_str l = Raise e /\ exc_class e = ValueError).
Proof.
  induction l as [| text l IH]; simpl.
  - left. split; [constructor | now exists []].
  - destruct (float_str_cases text) as [[Hp [x ->]] | [Hnp ->]].
    + destruct IH as [[Hall (xs & -> & Hlen)] | [Hnall (e & -> & Hcls)]].
      * left. split; [now constructor |]. exists (x :: xs). simpl.
        split; [reflexivity | congruence].
      * right. split; [| now exists e].
        intros Hall. inversion Hall; subst. contradiction.
    + right. split.
      * intros Hall. inversion Hall; subst. contradiction.
      * eexists. split; reflexivity.
Qed.

Lemma convert_bbox_cases (l : list str) :
  (List.length l = 4 /\ Forall parseable l /\ exists b, convert_bbox l = Ok b) \/
  (~ (List.length l = 4 /\ Forall parseable l) /\
   exists e, convert_bbox l = Raise e /\ exc_class e = ValueError).
Proof.
  unfold convert_bbox.
  destruct (floats_cases l) as [[Hall (xs & -> & Hlen)] | [Hnall (e & -> & Hcls)]].
  - destruct xs as [| a [| b [| c [| d [| x xs]]]]]; simpl in Hlen;
      try (right; split; [intros [Hl _]; lia | eexists; split; reflexivity]).
    left. split; [congruence |]. split; [assumption |]. eexists. reflexivity.
  - right. split; [tauto |]. now exists e.
Qed.

Lemma bbox_entries_cases (boundingbox : option (list str))
      (fallback : Bbox F) :
  let bbox := match boundingbox with
              | Some (x :: xs) => convert_bbox (x :: xs)
              | _ => Ok fallback
              end in
  (bbox_entries_ok boundingbox /\ exists b, bbox = Ok b) \/
  (~ bbox_entries_ok boundingbox /\
   exists e, bbox = Raise e /\ exc_class e = ValueError).
Proof.
  destruct boundingbox as [[| x xs] |]; simpl;
    try (left; split; [exact I | now exists fallback]).
  destruct (convert_bbox_cases (x :: xs)) as [(Hl & Hall & b & Hb) | (Hn & e & He & Hcls)].
  - left. split; [now split | now exists b].
  - right. split; [assumption | now exists e].
Qed.
End ParseMore.

(** X10.  [convert_bbox] returns exactly on a list of four numerals, and
    every failure, be it a wrong number of entries or an entry that is
    no numeral, is a [ValueError]. *)
Theorem convert_bbox_returns_iff :
  forall (F : Type) (FO : FloatOps F) (nominatim_bbox : list str),
    ((exists b : Bbox F, convert_bbox nominatim_bbox = Ok b) <->
     (List.length nominatim_bbox = 4 /\ Forall parseable nominatim_bbox)) /\
    (forall e : Exc F,
        convert_bbox nominatim_bbox = Raise e -> exc_class e = ValueError).
Proof.
  intros F FO l.
  destruct (convert_bbox_cases l) as [(Hl & Hall & b & Hb) | (Hn & e & He & Hcls)].
  - split.
    + split; [intros _; now split | intros _; now exists b].
    + intros e He. congruence.
  - split.
    + split; [intros [b Hb]; congruence | intros Hok; contradiction].
    + intros e' He'. congruence.
Qed.

(** X11.  [Geocoder._parse_search_result] returns exactly when the raw
    result has [lat] and [lon], both numerals, and its bounding box is
    absent, empty or four numerals.  A missing [lat] or [lon] is a
    [KeyError] naming the key; every other failure is a
    [ValueError]. *)
Theorem parse_search_result_returns_iff :
  forall (F : Type) (FO : FloatOps F) (raw : RawPlace F),
    ((exists item, _parse_search_result raw = Ok item) <->
     (exists slat slon,
         raw_lat raw = Some slat /\ raw_lon raw = Some slon /\
         parseable slat /\ parseable slon /\
         bbox_entries_ok (raw_boundingbox raw))) /\
    (raw_lat raw = None ->
     _parse_search_result raw = Raise (mkExc KeyError (MissingKey "lat"))) /\
    (forall e, _parse_search_result raw = Raise e ->
               (exc_class e = KeyError /\
                (raw_lat raw = None \/ raw_lon raw = None)) \/
               exc_class e = ValueError).
Proof.
  intros F FO raw. unfold _parse_search_result, float_item.
  destruct (raw_lat raw) as [slat |].
  2:{ split; [| split].
      - split; [intros [item Hi]; discriminate
               | intros (slat & slon & Hl & _); discriminate].
      - reflexivity.
      - intros e He. inversion He; subst. left. simpl. auto. }
  destruct (float_str_cases slat) as [[Hplat [lat ->]] | [Hnlat ->]].
  2:{ split; [| split].
      - split; [intros [item Hi]; discriminate |].
        intros (slat' & slon & Hl & _ & Hp & _).
        inversion Hl; subst. contradiction.
      - discriminate.
      - intros e He. inversion He; subst. now right. }
  destruct (raw_lon raw) as [slon |].
  2:{ split; [| split].
      - split; [intros [item Hi]; discriminate
               | intros (slat' & slon & _ & Hl & _); discriminate].
      - discriminate.
      - intros e He. inversion He; subst. left. simpl. auto. }
  destruct (float_str_cases slon) as [[Hplon [lon ->]] | [Hnlon ->]].
  2:{ split; [| split].
      - split; [intros [item Hi]; discriminate |].
        intros (slat' & slon' & _ & Hl & _ & Hp & _).
        inversion Hl; subst. contradiction.
      - discriminate.
      - intros e He. inversion He; subst. now right. }
  pose proof (bbox_entries_cases (raw_boundingbox raw)
                (mkBbox (fsub lon (bbox_buffer_for_rank (int_if_truthy (raw_place_rank raw))))
                        (fsub lat (bbox_buffer_for_rank (int_if_truthy (raw_place_rank raw))))
                        (fadd lon (bbox_buffer_for_rank (int_if_truthy (raw_place_rank raw))))
                        (fadd lat (bbox_buffer_for_rank (int_if_truthy (raw_place_rank raw))))))
    as Hbox.
  cbv zeta in Hbox |- *.
  destruct Hbox as [[Hok [b ->]] | [Hbad (e & -> & Hcls)]].
  - split; [| split].
    + split; [| intros _; eexists; reflexivity].
      intros _. exists slat, slon. repeat split; assumption.
    + discriminate.
    + discriminate.
  - split; [| split].
    + split; [intros [item Hi]; discriminate |].
      intros (slat' & slon' & _ & _ & _ & _ & Hok). contradiction.
    + discriminate.
    + intros e' He'. inversion He'; subst. now right.
Qed.

(** X12.  [Geocoder._parse_reverse_result] never raises a [KeyError]:
    an absent [lat] or [lon] falls back to the coordinate that was
    asked for, an absent or empty bounding box to the square of
    half-width 0.001 around the result point, an absent address to the
    empty dict.  It returns exactly when the numerals it is given are
    numerals, and every failure is a [ValueError]. *)
Theorem parse_reverse_result_fallbacks :
  forall (F : Type) (FO : FloatOps F) (raw : RawPlace F) (lat lon : F),
    ((exists r, _parse_reverse_result raw lat lon = Ok r) <->
     (absent_or_parseable (raw_lat raw) /\ absent_or_parseable (raw_lon raw) /\
      bbox_entries_ok (raw_boundingbox raw))) /\
    (forall e, _parse_reverse_result raw lat lon = Raise e ->
               exc_class e = ValueError) /\
    (forall r, _parse_reverse_result raw lat lon = Ok r ->
               (raw_lat raw = None -> ReverseResult.lat r = lat) /\
               (raw_lon raw = None -> ReverseResult.lon r = lon) /\
               (raw_boundingbox raw = None \/ raw_boundingbox raw = Some [] ->
                ReverseResult.bbox r
                = square_around (ReverseResult.lat r) (ReverseResult.lon r)
                                (flit (1 # 1000))) /\
               (raw_address raw = None -> ReverseResult.address r = [])).
Proof.
  intros F FO raw lat lon. unfold _parse_reverse_result, float_get.
  assert (Hlat : (absent_or_parseable (raw_lat raw) /\
                  exists x, match raw_lat raw with
                            | Some s => float_str s
                            | None => Ok lat
                            end = Ok x /\ (raw_lat raw = None -> x = lat)) \/
                 (~ absent_or_parseable (raw_lat raw) /\
                  exists e, match raw_lat raw with
                            | Some s => float_str s
                            | None => Ok lat
                            end = Raise e /\ exc_class e = ValueError)).
  { destruct (raw_lat raw) as [s |]; simpl.
    - destruct (float_str_cases s) as [[Hp [x ->]] | [Hn ->]].
      + left. split; [assumption |]. exists x. split; [reflexivity | discriminate].
      + right. split; [assumption |]. eexists. split; reflexivity.
    - left. split; [exact I |]. exists lat. split; [reflexivity | reflexivity]. }
  assert (Hlon : (absent_or_parseable (raw_lon raw) /\
                  exists x, match raw_lon raw with
                            | Some s => float_str s
                            | None => Ok lon
                            end = Ok x /\ (raw_lon raw = None -> x = lon)) \/
                 (~ absent_or_parseable (raw_lon raw) /\
                  exists e, match raw_lon raw with
                            | Some s => float_str s
                            | None => Ok lon
                            end = Raise e /\ exc_class e = ValueError)).
  { destruct (raw_lon raw) as [s |]; simpl.
    - destruct (float_str_cases s) as [[Hp [x ->]] | [Hn ->]].
      + left. split; [assumption |]. exists x. split; [reflexivity | discriminate].
      + right. split; [assumption |]. eexists. split; reflexivity.
    - left. split; [exact I |]. exists lon. split; [reflexivity | reflexivity]. }
  destruct Hlat as [[Hoklat (rlat & -> & Hdlat)] | [Hbadlat (e & -> & Hcls)]].
  2:{ split; [| split].
      - split; [intros [r Hr]; discriminate | intros (Hok & _); contradiction].
      - intros e' He'. inversion He'; subst. assumption.
      - discriminate. }
  destruct Hlon as [[Hoklon (rlon & -> & Hdlon)] | [Hbadlon (e & -> & Hcls)]].
  2:{ split; [| split].
      - split; [intros [r Hr]; discriminate | intros (_ & Hok & _); contradiction].
      - intros e' He'. inversion He'; subst. assumption.
      - discriminate. }
  pose proof (bbox_entries_cases (raw_boundingbox raw)
                (mkBbox (fsub rlon (flit (1 # 1000))) (fsub rlat (flit (1 # 1000)))
                        (fadd rlon (flit (1 # 1000))) (fadd rlat (flit (1 # 1000)))))
    as Hbox.
  cbv zeta in Hbox.
  destruct Hbox as [[Hok [b Hb]] | [Hbad (e & He & Hcls)]].
  - rewrite Hb. split; [| split].
    + split; [intros _; repeat split; assumption | intros _; eexists; reflexivity].
    + discriminate.
    + intros r Hr. inversion Hr; subst r. simpl.
      split; [assumption |]. split; [assumption |]. split.
      * intros [Hnone | Hempty]; [rewrite Hnone in Hb | rewrite Hempty in Hb];
          inversion Hb; reflexivity.
      * intros ->. reflexivity.
  - rewrite He. split; [| split].
    + split; [intros [r Hr]; discriminate | intros (_ & _ & Hok); contradiction].
    + intros e' He'. inversion He'; subst. assumption.
    + discriminate.
Qed.

(** ** The orchestrator: failures and fallbacks *)

Section ComprehensionFacts.
Context {E A B : Type}.

(** A comprehension raises what its first failing element raises. *)
Lemma map_result_raise_at (f : A -> result E B) pre x post ys e :
  map_result f pre = Ok ys -> f x = Raise e ->
  map_result f (pre ++ x :: post) = Raise e.
Proof.
  revert ys. induction pre as [| p pre IH]; intros ys Hpre Hx; simpl.
  - now rewrite Hx.
  - simpl in Hpre. destruct (f p) as [y | e']; [| discriminate].
    destruct (map_result f pre) as [ys' | e']; [| discriminate].
    now rewrite (IH ys' eq_refl Hx).
Qed.
End ComprehensionFacts.

Section AdminFacts.
Variable address : list (str * str).

(** The loop of [admin_boundaries] over any table of keys. *)
Lemma admin_loop (table : list (str * str)) :
  let boundaries :=
    flat_map (fun kl : str * str =>
                let (addr_key, level_name) := kl in
                match assoc_get addr_key address with
                | Some name => [AdminBoundaryItem.mk level_name name None None]
                | None => []
                end) table in
  map AdminBoundaryItem.level boundaries
  = map snd (filter (fun kl => has_key address (fst kl)) table) /\
  Forall (fun b =>
            (exists addr_key,
                In (addr_key, AdminBoundaryItem.level b) table /\
                assoc_get addr_key address = Some (AdminBoundaryItem.name b)) /\
            AdminBoundaryItem.osm_type b = None /\
            AdminBoundaryItem.osm_id b = None) boundaries.
Proof.
  induction table as [| [addr_key level_name] table [IHl IHf]]; simpl.
  - split; constructor.
  - unfold has_key at 1. simpl.
    assert (Hweak : forall bs : list AdminBoundaryItem.t,
               Forall (fun b =>
                         (exists k, In (k, AdminBoundaryItem.level b) table /\
                                    assoc_get k address = Some (AdminBoundaryItem.name b)) /\
                         AdminBoundaryItem.osm_type b = None /\
                         AdminBoundaryItem.osm_id b = None) bs ->
               Forall (fun b =>
                         (exists k, In (k, AdminBoundaryItem.level b)
                                       ((addr_key, level_name) :: table) /\
                                    assoc_get k address = Some (AdminBoundaryItem.name b)) /\
                         AdminBoundaryItem.osm_type b = None /\
                         AdminBoundaryItem.osm_id b = None) bs).
    { intros bs. apply Forall_impl. intros b ((k & Hin & Hk) & Ht & Hi).
      split; [| now split]. exists k. split; [now right | assumption]. }
    destruct (assoc_get addr_key address) as [name |] eqn:Hget; simpl.
    + split; [now rewrite IHl |]. constructor; [| now apply Hweak].
      simpl. split; [| now split]. exists addr_key. split; [now left | assumption].
    + split; [assumption | now apply Hweak].
Qed.
End AdminFacts.

(** X13.  [Geocoder.geocode] is all or nothing: when one of the results
    of the service cannot be parsed (a missing [lat], say), the call
    fails with the error of the first such result, whatever the other
    results are. *)
Theorem geocode_fails_on_first_bad_result :
  forall (F : Type) (FO : FloatOps F) (C : Type) (CO : ClientOps F C)
         (query : str) (limit : Z) (countrycodes language : option str)
         (c c' : C) (pre : list (RawPlace F)) (bad : RawPlace F)
         (post : list (RawPlace F)) (items : list (GeocodeItem.t F)) (e : Exc F),
    _validate_query (F:=F) query = Ok tt ->
    client_search query limit countrycodes None false language c
    = (Ok (pre ++ bad :: post), c') ->
    map_result _parse_search_result pre = Ok items ->
    _parse_search_result bad = Raise e ->
    geocode query limit countrycodes language c = (Raise e, c').
Proof.
  intros F FO C CO query limit cc lang c c' pre bad post items e
         Hvalid Hsearch Hpre Hbad.
  unfold geocode. rewrite (bind_lift_ok _ _ _ _ Hvalid).
  rewrite (bind_ok _ _ _ _ _ Hsearch).
  rewrite (map_result_raise_at _ pre bad post items e Hpre Hbad).
  destruct pre; reflexivity.
Qed.


(** X15.  [Geocoder.admin_boundaries] lists the levels in the order
    country, state, county, city, town, village, suburb, neighbourhood,
    whatever the order of the address: a level is listed exactly when
    the address has its key, with the name found there; other keys of
    the address are ignored, and [osm_type] and [osm_id] are never
    filled in. *)
Theorem admin_boundaries_hierarchy :
  forall (F : Type) (FO : FloatOps F) (C : Type) (CO : ClientOps F C)
         (lat lon : F) (c c' : C) (raw : RawPlace F),
    _validate_coordinates lat lon = Ok tt ->
    client_reverse lat lon ZoomLevel.BUILDING None c = (Ok raw, c') ->
    exists boundaries,
      admin_boundaries lat lon c = (Ok (get_display_name raw, boundaries), c') /\
      map AdminBoundaryItem.level boundaries
      = filter (has_key (address_of raw))
               ["country"; "state"; "county"; "city"; "town"; "village";
                "suburb"; "neighbourhood"] /\
      Forall (fun b =>
                assoc_get (AdminBoundaryItem.level b) (address_of raw)
                = Some (AdminBoundaryItem.name b) /\
                AdminBoundaryItem.osm_type b = None /\
                AdminBoundaryItem.osm_id b = None) boundaries.
Proof.
  intros F FO C CO lat lon c c' raw Hvalid Hrev.
  unfold admin_boundaries. rewrite (bind_lift_ok _ _ _ _ Hvalid).
  rewrite (bind_ok _ _ _ _ _ Hrev). fold (address_of raw).
  destruct (admin_loop (address_of raw) ADMIN_LEVEL_KEYS) as [Hlevels Hall].
  cbv zeta in Hlevels, Hall.
  eexists. split; [reflexivity |]. split.
  - rewrite Hlevels. unfold ADMIN_LEVEL_KEYS. simpl.
    repeat match goal with
           | |- context [has_key ?a ?k] => destruct (has_key a k)
           end; reflexivity.
  - eapply Forall_impl; [| exact Hall].
    intros b ((k & Hin & Hk) & Ht & Hi). split; [| now split].
    assert (Hsame : Forall (fun kl : str * str => fst kl = snd kl) ADMIN_LEVEL_KEYS)
      by (repeat constructor).
    rewrite Forall_forall in Hsame. specialize (Hsame _ Hin). simpl in Hsame.
    now rewrite <- Hsame.
Qed.

(** X16.  [Geocoder.route_waypoints] stops at the first waypoint whose
    geocoding fails, for whatever reason: it raises that error, and the
    waypoints behind it are never looked up. *)
Theorem route_waypoints_stops_at_first_failure :
  forall (F : Type) (FO : FloatOps F) (C : Type) (CO : ClientOps F C)
         (pre : list str) (bad : str) (post : list str) (c c1 c2 : C)
         (resolved : list (RouteWaypointItem.t F)) (e : Exc F),
    2 <= List.length (pre ++ bad :: post) ->
    runs_in_order resolve_waypoint pre c resolved c1 ->
    geocode bad 1 None None c1 = (Raise e, c2) ->
    route_waypoints (pre ++ bad :: post) c = (Raise e, c2).
Proof.
  intros F FO C CO pre bad post c c1 c2 resolved e Hlen Hpre Hbad.
  unfold route_waypoints.
  assert (Hlt : (List.length (pre ++ bad :: post) <? 2) = false)
    by (apply Nat.ltb_ge; exact Hlen).
  rewrite Hlt.
  assert (Hwp : resolve_waypoint bad c1 = (Raise e, c2)).
  { unfold resolve_waypoint. now rewrite (bind_raise _ _ _ _ _ Hbad). }
  rewrite (bind_raise _ _ _ _ _
             (map_m_raise_at resolve_waypoint pre bad post c resolved c1 e c2 Hpre Hwp)).
  reflexivity.
Qed.


(** ** [nearby_places] *)

Section LoopFacts.
Context {E S : Type}.

(** A handler that swallows everything makes the block return. *)
Lemma try_except_swallow (m : M E S unit) s :
  try_except m (fun _ => ret tt) s = (Ok tt, snd (m s)).
Proof.
  unfold try_except, ret. destruct (m s) as [[[] | e] s']; reflexivity.
Qed.

Lemma for_each_total {A} (body : A -> M E S unit) xs :
  (forall x s, exists s', body x s = (Ok tt, s')) ->
  forall s, exists s', for_each xs body s = (Ok tt, s').
Proof.
  intros Htot. induction xs as [| x xs IH]; intros s; simpl.
  - now exists s.
  - destruct (Htot x s) as (s1 & Hx). rewrite (bind_ok _ _ _ _ _ Hx).
    apply IH.
Qed.

Lemma for_each_preserves {A} (P : S -> Prop) (body : A -> M E S unit) xs :
  (forall x s, P s -> P (snd (body x s))) ->
  forall s, P s -> P (snd (for_each xs body s)).
Proof.
  intros Hbody. induction xs as [| x xs IH]; intros s Hs; simpl.
  - assumption.
  - unfold bind. specialize (Hbody x s Hs).
    destruct (body x s) as [[[] | e] s1]; simpl in *.
    + now apply IH.
    + assumption.
Qed.
End LoopFacts.

Section PrefixFacts.
Context {A : Type}.

Lemma firstn_Forall (P : A -> Prop) n (l : list A) :
  Forall P l -> Forall P (firstn n l).
Proof.
  revert n. induction l as [| x l IH]; intros [| n] Hall; simpl;
    try constructor; inversion Hall; subst; auto.
Qed.


Lemma firstn_subset n (l : list A) x : In x (firstn n l) -> In x l.
Proof.
  revert n. induction l as [| y l IH]; intros [| n]; simpl; try tauto.
  intros [Heq | Hin]; [now left | right; eauto].
Qed.

Lemma firstn_NoDup_map {B} (f : A -> B) n (l : list A) :
  NoDup (map f l) -> NoDup (map f (firstn n l)).
Proof.
  revert n. induction l as [| x l IH]; intros [| n] Hnd; simpl;
    try constructor; simpl in Hnd; inversion Hnd; subst; auto.
  intros Hin. apply in_map_iff in Hin. destruct Hin as (y & Hy & Hin).
  match goal with Hn : ~ In (f x) (map f l) |- _ => apply Hn end.
  rewrite <- Hy. apply in_map. eapply firstn_subset; eauto.
Qed.

Lemma slice_to_cases (limit : Z) (l : list A) :
  exists n, slice_to limit l = firstn n l /\ ((0 <= limit)%Z -> n = Z.to_nat limit).
Proof.
  unfold slice_to. destruct (limit <? 0)%Z eqn:Hneg.
  - eexists. split; [reflexivity |]. apply Z.ltb_lt in Hneg. lia.
  - eexists. split; [reflexivity |]. reflexivity.
Qed.

Lemma filter_true (l : list A) : filter (fun _ => true) l = l.
Proof. induction l as [| x l IH]; simpl; congruence. Qed.
End PrefixFacts.

Section SortFacts.
Context {F : Type} `{FloatOps F}.
Variable A : Type.
Variable key : A -> F.

Lemma insert_by_perm (x : A) (l : list A) :
  Permutation (insert_by key x l) (x :: l).
Proof.
  induction l as [| y l IH]; simpl; [reflexivity |].
  destruct (fltb (key x) (key y)); [reflexivity |].
  rewrite IH. apply perm_swap.
Qed.

(** [sort] rearranges, it neither drops nor adds. *)
Lemma list_sort_perm (l : list A) : Permutation (list_sort key l) l.
Proof.
  unfold list_sort.
  assert (Hgen : forall acc, Permutation (fold_left (fun sorted x => insert_by key x sorted) l acc)
                                         (acc ++ l)).
  { induction l as [| x l IH]; intros acc; simpl.
    - now rewrite app_nil_r.
    - rewrite IH. rewrite insert_by_perm. simpl. apply Permutation_middle. }
  apply (Hgen []).
Qed.

Hypothesis Horder : lt_strict_order.


End SortFacts.

Section NearbyFacts.
Context {F : Type} `{FloatOps F}.
Context {C : Type} `{ClientOps F C}.

Lemma nearby_empty_ok : nearby_locals_ok (@mkNearbyLocals F [] []).
Proof. split; constructor. Qed.

(** Considering one more raw place keeps the collections in order,
    whether it returns or raises. *)
Lemma nearby_consider_ok lat lon (raw : RawPlace F) l :
  nearby_locals_ok l ->
  nearby_locals_ok (snd (nearby_consider lat lon raw l)).
Proof.
  intros [Hnd Hall]. unfold nearby_consider.
  unfold bind at 1. unfold gets at 1.
  destruct (negb (str_truthy (get_display_name raw))
            || mem_str (get_display_name raw) (seen_names l)) eqn:Hskip.
  - simpl. now split.
  - apply orb_false_iff in Hskip. destruct Hskip as [Htruthy Hseen].
    apply negb_false_iff in Htruthy.
    assert (Hname : get_display_name raw <> EmptyString).
    { intros Heq. rewrite Heq in Htruthy. discriminate. }
    assert (Hnew : ~ In (get_display_name raw) (nearby_names (items l))).
    { intros Hin. unfold nearby_names in Hin. apply in_map_iff in Hin.
      destruct Hin as (i & Hi & Hin).
      rewrite Forall_forall in Hall. destruct (Hall i Hin) as (Hs & _).
      rewrite Hi in Hs. apply mem_str_In in Hs. congruence. }
    assert (Hall' : Forall (fun i =>
                              In (NearbyItem.display_name i)
                                 (get_display_name raw :: seen_names l) /\
                              NearbyItem.display_name i <> EmptyString /\
                              NearbyItem.distance_m i <> None) (items l)).
    { eapply Forall_impl; [| exact Hall]. intros i (Hs & Hrest).
      split; [now right | assumption]. }
    unfold bind at 1. unfold modify at 1.
    unfold bind at 1. unfold lift_result at 1.
    destruct (float_get (raw_lat raw) lat) as [result_lat | e]; [| now split].
    unfold bind at 1. unfold lift_result at 1.
    destruct (float_get (raw_lon raw) lon) as [result_lon | e]; [| now split].
    unfold modify. simpl. split.
    + unfold nearby_names. cbn [items]. rewrite map_app. simpl. apply NoDup_app.
      * exact Hnd.
      * repeat constructor. simpl. tauto.
      * intros n Hin [<- | []]. contradiction.
    + cbn [items seen_names]. apply Forall_app. split; [exact Hall' |].
      constructor; [| constructor]. simpl.
      split; [now left |]. split; [assumption | discriminate].
Qed.

Lemma on_snd_consider_ok lat lon (raw : RawPlace F) (st : C * @NearbyLocals F) :
  nearby_locals_ok (snd st) ->
  nearby_locals_ok (snd (snd (on_snd (nearby_consider lat lon raw) st))).
Proof.
  intros Hok. unfold on_snd.
  pose proof (nearby_consider_ok lat lon raw (snd st) Hok) as Hc.
  destruct (nearby_consider lat lon raw (snd st)) as [r l']. exact Hc.
Qed.

Lemma on_fst_keeps {X} (m : M (Exc F) C X) (st : C * @NearbyLocals F) :
  snd (snd (on_fst m st)) = snd st.
Proof. unfold on_fst. destruct (m (fst st)) as [r c']. reflexivity. Qed.

(** One probe of [nearby_places]. *)
Lemma nearby_probe_ok lat lon zoom (st : C * @NearbyLocals F) :
  nearby_locals_ok (snd st) ->
  nearby_locals_ok
    (snd (snd (bind (on_fst (client_reverse lat lon zoom None))
                    (fun raw => on_snd (nearby_consider lat lon raw)) st))).
Proof.
  intros Hok. unfold bind.
  pose proof (on_fst_keeps (client_reverse lat lon zoom None) st) as Hkeep.
  destruct (on_fst (client_reverse lat lon zoom None) st) as [[raw | e] st1];
    simpl in Hkeep.
  - apply on_snd_consider_ok. now rewrite Hkeep.
  - simpl. now rewrite Hkeep.
Qed.

(** The viewbox search of [nearby_places]. *)
Lemma nearby_search_ok lat lon query viewbox (st : C * @NearbyLocals F) :
  nearby_locals_ok (snd st) ->
  nearby_locals_ok
    (snd (snd (bind (on_fst (client_search query 5 None viewbox true None))
                    (fun search_results =>
                       for_each search_results
                         (fun r => on_snd (nearby_consider lat lon r))) st))).
Proof.
  intros Hok. unfold bind.
  pose proof (on_fst_keeps (client_search query 5 None viewbox true None) st) as Hkeep.
  destruct (on_fst (client_search query 5 None viewbox true None) st)
    as [[results | e] st1]; simpl in Hkeep.
  - apply (for_each_preserves (fun st => nearby_locals_ok (snd st))).
    + intros r st' Hst'. now apply on_snd_consider_ok.
    + now rewrite Hkeep.
  - simpl. now rewrite Hkeep.
Qed.

(** [nearby_places] on valid coordinates: it returns the sorted,
    filtered and cut list of what the probes collected. *)
Lemma nearby_places_shape lat lon limit categories (c : C) :
  _validate_coordinates lat lon = Ok tt ->
  exists found c',
    nearby_places lat lon limit categories c
    = (Ok (slice_to limit
             (list_sort nearby_sort_key
                (filter (in_categories categories) found))), c') /\
    NoDup (nearby_names found) /\
    Forall (fun i => NearbyItem.display_name i <> EmptyString /\
                     NearbyItem.distance_m i <> None) found.
Proof.
  intros Hvalid. unfold nearby_places.
  rewrite (bind_lift_ok _ _ _ _ Hvalid).
  set (probe := fun zoom : Z =>
                  try_except
                    (bind (on_fst (client_reverse lat lon zoom None))
                          (fun raw => on_snd (nearby_consider lat lon raw)))
                    (fun _ => ret tt)).
  assert (Hprobe_tot : forall zoom (st : C * @NearbyLocals F),
             exists st', probe zoom st = (Ok tt, st')).
  { intros zoom st. eexists. unfold probe. apply try_except_swallow. }
  assert (Hprobe_ok : forall zoom (st : C * @NearbyLocals F),
             nearby_locals_ok (snd st) -> nearby_locals_ok (snd (snd (probe zoom st)))).
  { intros zoom st Hst. unfold probe. rewrite try_except_swallow. simpl.
    now apply nearby_probe_ok. }
  destruct (for_each_total probe
              [ZoomLevel.BUILDING; ZoomLevel.STREET; ZoomLevel.SUBURB; ZoomLevel.CITY]
              Hprobe_tot (c, mkNearbyLocals [] [])) as (st1 & Hloop).
  assert (Hst1 : nearby_locals_ok (snd st1)).
  { pose proof (for_each_preserves (fun st => nearby_locals_ok (snd st)) probe
                  [ZoomLevel.BUILDING; ZoomLevel.STREET; ZoomLevel.SUBURB; ZoomLevel.CITY]
                  Hprobe_ok (c, mkNearbyLocals [] []) nearby_empty_ok) as Hp.
    now rewrite Hloop in Hp. }
  rewrite (bind_ok _ _ _ _ _ Hloop).
  unfold bind at 1. rewrite try_except_swallow.
  match goal with
  | |- context [snd (?m st1)] =>
      assert (Hst2 : nearby_locals_ok (snd (snd (m st1))))
        by (now apply nearby_search_ok);
      destruct (snd (m st1)) as [c2 l2]
  end.
  unfold bind, gets, ret. simpl in Hst2 |- *.
  destruct Hst2 as [Hnd Hall].
  exists (items l2), c2. split; [| split].
  - f_equal. f_equal. f_equal. f_equal.
    destruct categories as [[| cat cats] |]; simpl;
      try (symmetry; apply filter_true). reflexivity.
  - exact Hnd.
  - eapply Forall_impl; [| exact Hall]. intros i (_ & Hrest). exact Hrest.
Qed.
End NearbyFacts.

Section FilterFacts.
Context {A B : Type}.

(** Filtering keeps the images distinct. *)
Lemma filter_NoDup_map (keep : A -> bool) (image : A -> B) (xs : list A) :
  NoDup (map image xs) -> NoDup (map image (filter keep xs)).
Proof.
  intros Hnd. induction xs as [| x xs IH]; simpl; [constructor |].
  simpl in Hnd. inversion Hnd as [| ? ? Hnotin Hnd']; subst.
  destruct (keep x); simpl; [| now apply IH].
  constructor; [| now apply IH].
  intros Hin. apply Hnotin. apply in_map_iff in Hin.
  destruct Hin as (y & Hy & Hin). apply filter_In in Hin.
  rewrite <- Hy. apply in_map. tauto.
Qed.
End FilterFacts.

(** X18.  On valid coordinates [Geocoder.nearby_places] never raises,
    whatever the client does: every failing probe and a failing viewbox
    search are swallowed, and what was collected is returned. *)
Theorem nearby_places_never_raises :
  forall (F : Type) (FO : FloatOps F) (C : Type) (CO : ClientOps F C)
         (lat lon : F) (limit : Z) (categories : option (list str)) (c : C),
    _validate_coordinates lat lon = Ok tt ->
    exists found c',
      nearby_places lat lon limit categories c = (Ok found, c').
Proof.
  intros F FO C CO lat lon limit categories c Hvalid.
  destruct (nearby_places_shape lat lon limit categories c Hvalid)
    as (found & c' & Heq & _).
  eexists. exists c'. exact Heq.
Qed.

(** X19.  What [nearby_places] returns: places with distinct, non-empty
    display names, each with its distance set; only places whose type
    is among the categories when a non-empty list of categories is
    given; and at most [limit] places when [limit] is not negative. *)
Theorem nearby_places_result_shape :
  forall (F : Type) (FO : FloatOps F) (C : Type) (CO : ClientOps F C)
         (lat lon : F) (limit : Z) (categories : option (list str)) (c : C)
         (found : list (NearbyItem.t F)),
    fst (nearby_places lat lon limit categories c) = Ok found ->
    NoDup (nearby_names found) /\
    Forall (fun i => NearbyItem.display_name i <> EmptyString /\
                     NearbyItem.distance_m i <> None /\
                     in_categories categories i = true) found /\
    ((0 <= limit)%Z -> (Z.of_nat (List.length found) <= limit)%Z).
Proof.
  intros F FO C CO lat lon limit categories c found Hfound.
  destruct (_validate_coordinates lat lon) as [[] | e] eqn:Hvalid.
  2:{ rewrite (nearby_places_invalid lat lon limit categories c e Hvalid) in Hfound.
      discriminate. }
  destruct (nearby_places_shape lat lon limit categories c Hvalid)
    as (all & c' & Heq & Hnd & Hall).
  rewrite Heq in Hfound. simpl in Hfound. inversion Hfound as [Hf]. clear Hfound.
  destruct (slice_to_cases limit
              (list_sort nearby_sort_key (filter (in_categories categories) all)))
    as (n & -> & Hn).
  pose proof (list_sort_perm _ nearby_sort_key
                (filter (in_categories categories) all)) as Hperm.
  split; [| split].
  - unfold nearby_names. apply firstn_NoDup_map.
    eapply Permutation_NoDup; [apply Permutation_map; symmetry; exact Hperm |].
    now apply filter_NoDup_map.
  - apply firstn_Forall.
    eapply Permutation_Forall; [symmetry; exact Hperm |].
    apply Forall_forall. intros i Hin. apply filter_In in Hin.
    destruct Hin as [Hin Hcat]. rewrite Forall_forall in Hall.
    destruct (Hall i Hin) as [Hname Hdist]. repeat split; assumption.
  - intros Hlimit. rewrite (Hn Hlimit).
    pose proof (firstn_le_length (Z.to_nat limit)
                  (list_sort nearby_sort_key (filter (in_categories categories) all))).
    lia.
Qed.


(** ** Boxes and clocks *)

Section MinMaxFacts.
Context {F : Type} `{FloatOps F}.
Hypothesis Horder : lt_strict_order.

Lemma fltb_irrefl (a : F) : fltb a a = false.
Proof.
  destruct Horder as [Hasym _].
  destruct (fltb a a) eqn:Haa; [| reflexivity].
  pose proof (Hasym _ _ Haa). congruence.
Qed.

(** [min]: an element of the sequence that none is below. *)
Lemma py_min_spec (xs : list F) : forall x,
  let m := py_min x xs in
  (m = x \/ fltb m x = true) /\ In m (x :: xs) /\
  Forall (fun y => fltb y m = false) (x :: xs).
Proof.
  destruct Horder as [Hasym Htrans].
  unfold py_min. induction xs as [| y xs IH]; intros x; simpl.
  - split; [now left |]. split; [now left |].
    constructor; [apply fltb_irrefl | constructor].
  - destruct (IH (if fltb y x then y else x)) as (Hrel & Hin & Hall).
    set (m := fold_left (fun m0 y0 => if fltb y0 m0 then y0 else m0) xs
                        (if fltb y x then y else x)) in *.
    inversion Hall as [| ? ? Hfirst Hrest]; subst.
    destruct (fltb y x) eqn:Hyx.
    + assert (Hmx : fltb m x = true).
      { destruct Hrel as [-> | Hlt]; [assumption | now apply Htrans with y]. }
      split; [now right |]. split.
      * destruct Hin as [<- | Hin]; [right; now left | right; now right].
      * constructor; [now apply Hasym |]. constructor; assumption.
    + split; [assumption |]. split.
      * destruct Hin as [<- | Hin]; [now left | right; now right].
      * constructor; [assumption |]. constructor; [| assumption].
        destruct Hrel as [-> | Hlt]; [assumption |].
        destruct (fltb y m) eqn:Hym; [| reflexivity].
        rewrite (Htrans _ _ _ Hym Hlt) in Hyx. discriminate.
Qed.

(** [max]: an element of the sequence that none is above. *)
Lemma py_max_spec (xs : list F) : forall x,
  let m := py_max x xs in
  (m = x \/ fltb x m = true) /\ In m (x :: xs) /\
  Forall (fun y => fgtb y m = false) (x :: xs).
Proof.
  destruct Horder as [Hasym Htrans].
  unfold py_max, fgtb. induction xs as [| y xs IH]; intros x; simpl.
  - split; [now left |]. split; [now left |].
    constructor; [apply fltb_irrefl | constructor].
  - destruct (IH (if fltb x y then y else x)) as (Hrel & Hin & Hall).
    set (m := fold_left (fun m0 y0 => if fltb m0 y0 then y0 else m0) xs
                        (if fltb x y then y else x)) in *.
    inversion Hall as [| ? ? Hfirst Hrest]; subst.
    destruct (fltb x y) eqn:Hxy.
    + assert (Hxm : fltb x m = true).
      { destruct Hrel as [-> | Hlt]; [assumption | now apply Htrans with y]. }
      split; [now right |]. split.
      * destruct Hin as [<- | Hin]; [right; now left | right; now right].
      * constructor; [now apply Hasym |]. constructor; assumption.
    + split; [assumption |]. split.
      * destruct Hin as [<- | Hin]; [now left | right; now right].
      * constructor; [assumption |]. constructor; [| assumption].
        destruct Hrel as [-> | Hlt]; [assumption |].
        destruct (fltb m y) eqn:Hmy; [| reflexivity].
        rewrite (Htrans _ _ _ Hlt Hmy) in Hxy. discriminate.
Qed.
End MinMaxFacts.

(** X21.  [bbox_union] covers its inputs: no input box reaches west or
    south of the union's first corner or east or north of its second,
    and each side of the union is a side of one of the boxes.  The
    union of no boxes is [[0.0, 0.0, 0.0, 0.0]].  ([<] on floats is a
    strict order.) *)
Theorem bbox_union_covers :
  forall (F : Type) (FO : FloatOps F) (bboxes : list (Bbox F)),
    lt_strict_order ->
    (forall b, In b bboxes -> bbox_within b (bbox_union bboxes)) /\
    (bboxes <> [] ->
     In (west (bbox_union bboxes)) (map (@west F) bboxes) /\
     In (south (bbox_union bboxes)) (map (@south F) bboxes) /\
     In (east (bbox_union bboxes)) (map (@east F) bboxes) /\
     In (north (bbox_union bboxes)) (map (@north F) bboxes)) /\
    bbox_union (@nil (Bbox F)) = mkBbox (flit 0) (flit 0) (flit 0) (flit 0).
Proof.
  intros F FO bboxes Horder. split; [| split; [| reflexivity]].
  - intros b Hin. destruct bboxes as [| b0 rest]; [contradiction |].
    unfold bbox_within, bbox_union. cbn [west south east north].
    destruct (py_min_spec Horder (map (@west F) rest) (west b0)) as (_ & _ & Hw).
    destruct (py_min_spec Horder (map (@south F) rest) (south b0)) as (_ & _ & Hs).
    destruct (py_max_spec Horder (map (@east F) rest) (east b0)) as (_ & _ & He).
    destruct (py_max_spec Horder (map (@north F) rest) (north b0)) as (_ & _ & Hn).
    rewrite Forall_forall in Hw, Hs, He, Hn.
    repeat split.
    + apply Hw. change (In (west b) (map (@west F) (b0 :: rest))). now apply in_map.
    + apply Hs. change (In (south b) (map (@south F) (b0 :: rest))). now apply in_map.
    + apply He. change (In (east b) (map (@east F) (b0 :: rest))). now apply in_map.
    + apply Hn. change (In (north b) (map (@north F) (b0 :: rest))). now apply in_map.
  - intros Hne. destruct bboxes as [| b0 rest]; [congruence |].
    unfold bbox_union. cbn [west south east north].
    destruct (py_min_spec Horder (map (@west F) rest) (west b0)) as (_ & Hw & _).
    destruct (py_min_spec Horder (map (@south F) rest) (south b0)) as (_ & Hs & _).
    destruct (py_max_spec Horder (map (@east F) rest) (east b0)) as (_ & He & _).
    destruct (py_max_spec Horder (map (@north F) rest) (north b0)) as (_ & Hn & _).
    repeat split; assumption.
Qed.



(** ** How many requests an operation can send *)

Section MeasureFacts.
Context {E S : Type}.
Variable mu : S -> nat.

Lemma map_m_measure {A B} (f : A -> M E S B) (k : nat) :
  (forall x s, mu s <= mu (snd (f x s)) <= mu s + k) ->
  forall xs s,
    mu s <= mu (snd (map_m f xs s)) <= mu s + k * List.length xs.
Proof.
  intros Hf. induction xs as [| x xs IH]; intros s; simpl.
  - lia.
  - rewrite Nat.mul_succ_r. unfold bind. pose proof (Hf x s) as Hx.
    destruct (f x s) as [[y | e] s1]; simpl in Hx |- *; [| lia].
    pose proof (IH s1) as Hxs.
    destruct (map_m f xs s1) as [[ys | e] s2]; simpl in Hxs |- *; lia.
Qed.

Lemma for_each_measure {A} (body : A -> M E S unit) (k : nat) :
  (forall x s, mu s <= mu (snd (body x s)) <= mu s + k) ->
  forall xs s,
    mu s <= mu (snd (for_each xs body s)) <= mu s + k * List.length xs.
Proof.
  intros Hf. induction xs as [| x xs IH]; intros s; simpl.
  - lia.
  - rewrite Nat.mul_succ_r. unfold bind. pose proof (Hf x s) as Hx.
    destruct (body x s) as [[[] | e] s1]; simpl in Hx |- *; [| lia].
    pose proof (IH s1) as Hxs. lia.
Qed.
End MeasureFacts.

Section RequestBounds.
Context {F : Type} `{FloatOps F} `{HashOps}.
Implicit Types (s : System F).

Lemma request_calls endpoint params s :
  http_calls (world s) <= http_calls (world (snd (_request endpoint params s)))
  <= http_calls (world s) + (NominatimConfig.MAX_RETRIES + 1).
Proof.
  destruct (request_shape endpoint params s)
    as (r & s' & new & Hreq & _ & _ & _ & Hev & _ & Hle & _).
  rewrite Hreq. simpl snd. rewrite (http_calls_events _ _ _ Hev). lia.
Qed.

Lemma search_calls query limit cc vb bounded lang s :
  http_calls (world s)
  <= http_calls (world (snd (search query limit cc vb bounded lang s)))
  <= http_calls (world s) + (NominatimConfig.MAX_RETRIES + 1).
Proof.
  destruct (search_state query limit cc vb bounded lang s) as (params & ->).
  apply request_calls.
Qed.

Lemma reverse_calls lat lon zoom lang s :
  http_calls (world s)
  <= http_calls (world (snd (reverse lat lon zoom lang s)))
  <= http_calls (world s) + (NominatimConfig.MAX_RETRIES + 1).
Proof.
  destruct (reverse_state lat lon zoom lang s) as (params & ->).
  apply request_calls.
Qed.

Lemma geocode_calls query limit cc lang s :
  http_calls (world s)
  <= http_calls (world (snd (geocode query limit cc lang s)))
  <= http_calls (world s) + (NominatimConfig.MAX_RETRIES + 1).
Proof.
  unfold geocode, bind, lift_result.
  destruct (_validate_query query) as [[] | e]; simpl; [| lia].
  pose proof (search_calls query limit cc None false lang s) as Hs.
  unfold client_search, NominatimClient_ClientOps.
  destruct (search query limit cc None false lang s) as [[[| raw raws] | e] s1];
    simpl in Hs |- *;
    first [exact Hs
          | destruct (map_result _parse_search_result (raw :: raws)); exact Hs].
Qed.

Lemma batch_one_calls limit query s :
  http_calls (world s)
  <= http_calls (world (snd (batch_one limit query s)))
  <= http_calls (world s) + (NominatimConfig.MAX_RETRIES + 1).
Proof.
  unfold batch_one, try_except, bind, ret.
  pose proof (geocode_calls query limit None None s) as Hg.
  destruct (geocode query limit None None s) as [[items | e] s1]; exact Hg.
Qed.

Lemma resolve_waypoint_calls wp s :
  http_calls (world s)
  <= http_calls (world (snd (resolve_waypoint wp s)))
  <= http_calls (world s) + (NominatimConfig.MAX_RETRIES + 1).
Proof.
  unfold resolve_waypoint, bind, ret, raise.
  pose proof (geocode_calls wp 1 None None s) as Hg.
  destruct (geocode wp 1 None None s) as [[[| item items] | e] s1]; exact Hg.
Qed.

(** The calls of one step of [nearby_places] on the pair of the
    client and the local collections. *)
Lemma nearby_probe_calls lat lon zoom (st : System F * @NearbyLocals F) :
  http_calls (world (fst st))
  <= http_calls
       (world (fst (snd (try_except
                           (bind (on_fst (client_reverse lat lon zoom None))
                                 (fun raw => on_snd (nearby_consider lat lon raw)))
                           (fun _ => ret tt) st))))
  <= http_calls (world (fst st)) + (NominatimConfig.MAX_RETRIES + 1).
Proof.
  rewrite try_except_swallow. cbn [snd].
  unfold bind, on_fst, on_snd, client_reverse, NominatimClient_ClientOps.
  pose proof (reverse_calls lat lon zoom None (fst st)) as Hr.
  destruct (reverse lat lon zoom None (fst st)) as [[raw | e] s1];
    simpl in Hr |- *; [| exact Hr].
  destruct (nearby_consider lat lon raw (snd st)) as [r l']. exact Hr.
Qed.

Lemma nearby_search_calls lat lon query viewbox (st : System F * @NearbyLocals F) :
  http_calls (world (fst st))
  <= http_calls
       (world (fst (snd (try_except
                           (bind (on_fst (client_search query 5 None viewbox true None))
                                 (fun search_results =>
                                    for_each search_results
                                      (fun r => on_snd (nearby_consider lat lon r))))
                           (fun _ => ret tt) st))))
  <= http_calls (world (fst st)) + (NominatimConfig.MAX_RETRIES + 1).
Proof.
  rewrite try_except_swallow. cbn [snd].
  unfold bind, on_fst, client_search, NominatimClient_ClientOps.
  pose proof (search_calls query 5 None viewbox true None (fst st)) as Hs.
  destruct (search query 5 None viewbox true None (fst st)) as [[results | e] s1];
    simpl in Hs |- *; [| exact Hs].
  pose proof (for_each_measure
                (fun st : System F * @NearbyLocals F => http_calls (world (fst st)))
                (fun r => on_snd (nearby_consider lat lon r)) 0) as Hloop.
  specialize (Hloop (fun r st' =>
                       ltac:(unfold on_snd;
                             destruct (nearby_consider lat lon r (snd st'));
                             simpl; lia))
                    results (s1, snd st)).
  simpl in Hloop. lia.
Qed.
End RequestBounds.

(** X24.  The batch operations send at most [MAX_RETRIES + 1] requests
    per item, whatever the service answers: [batch_geocode] at most
    that many per query, 200 in all, and [route_waypoints] at most that
    many per waypoint. *)
Theorem batch_operations_request_bound :
  forall (F : Type) (FO : FloatOps F) (HO : HashOps) (s : System F),
    (forall queries limit,
       let s' := snd (batch_geocode queries limit s) in
       http_calls (world s) <= http_calls (world s') /\
       http_calls (world s')
       <= http_calls (world s)
          + (NominatimConfig.MAX_RETRIES + 1) * List.length queries /\
       http_calls (world s')
       <= http_calls (world s)
          + (NominatimConfig.MAX_RETRIES + 1) * BATCH_MAX_QUERIES) /\
    (forall waypoints,
       let s' := snd (route_waypoints waypoints s) in
       http_calls (world s) <= http_calls (world s') /\
       http_calls (world s')
       <= http_calls (world s)
          + (NominatimConfig.MAX_RETRIES + 1) * List.length waypoints).
Proof.
  intros F FO HO s. split.
  - intros queries limit s'. subst s'. unfold batch_geocode.
    destruct queries as [| q qs]; [simpl; lia |].
    destruct (BATCH_MAX_QUERIES <? List.length (q :: qs)) eqn:Hbig; [simpl; lia |].
    apply Nat.ltb_ge in Hbig.
    pose proof (map_m_measure (fun st : System F => http_calls (world st))
                  (batch_one limit) (NominatimConfig.MAX_RETRIES + 1)
                  (batch_one_calls limit) (q :: qs) s) as Hm.
    split; [lia |]. split; [lia |]. nia.
  - intros waypoints s'. subst s'. unfold route_waypoints.
    destruct (List.length waypoints <? 2); [simpl; lia |].
    pose proof (map_m_measure (fun st : System F => http_calls (world st))
                  resolve_waypoint (NominatimConfig.MAX_RETRIES + 1)
                  resolve_waypoint_calls waypoints s) as Hm.
    unfold bind.
    destruct (map_m resolve_waypoint waypoints s) as [[resolved | e] s1];
      simpl in Hm |- *; [| lia].
    destruct (route_loop resolved [] (flit 0)) as [legs total]. simpl. lia.
Qed.

(** X25.  [nearby_places] sends at most [5 * (MAX_RETRIES + 1)]
    requests, whatever the service answers: four probes and one viewbox
    search, each at most [MAX_RETRIES + 1]; on invalid coordinates it
    sends none. *)
Theorem nearby_places_request_bound :
  forall (F : Type) (FO : FloatOps F) (HO : HashOps)
         (lat lon : F) (limit : Z) (categories : option (list str))
         (s : System F),
    let s' := snd (nearby_places lat lon limit categories s) in
    http_calls (world s) <= http_calls (world s') /\
    http_calls (world s')
    <= http_calls (world s) + 5 * (NominatimConfig.MAX_RETRIES + 1) /\
    (_validate_coordinates lat lon <> Ok tt ->
     http_calls (world s') = http_calls (world s)).
Proof.
  intros F FO HO lat lon limit categories s s'.
  remember s' as s1 eqn:Hs1. subst s'. unfold nearby_places in Hs1.
  destruct (_validate_coordinates lat lon) as [[] | e] eqn:Hvalid.
  2:{ rewrite (bind_lift_raise _ _ _ _ eq_refl) in Hs1. simpl in Hs1. subst s1.
      repeat split; lia. }
  rewrite (bind_lift_ok _ _ _ _ eq_refl) in Hs1.
  set (mu := fun st : System F * @NearbyLocals F => http_calls (world (fst st))).
  pose proof (for_each_measure mu
                (fun zoom : Z =>
                   try_except
                     (bind (on_fst (client_reverse lat lon zoom None))
                           (fun raw => on_snd (nearby_consider lat lon raw)))
                     (fun _ => ret tt))
                (NominatimConfig.MAX_RETRIES + 1)
                (fun zoom st => nearby_probe_calls lat lon zoom st)
                [ZoomLevel.BUILDING; ZoomLevel.STREET; ZoomLevel.SUBURB; ZoomLevel.CITY]
                (s, mkNearbyLocals [] [])) as Hprobes.
  unfold bind at 1 in Hs1.
  match type of Hs1 with
  | context [for_each ?zs ?body ?st0] =>
      destruct (for_each zs body st0) as [[[] | e] st1] eqn:Hloop
  end.
  2:{ destruct st1 as [c1 l1]. unfold mu in Hprobes. simpl in Hprobes, Hs1.
      subst s1. unfold NominatimConfig.MAX_RETRIES in *.
    split; [lia |]. split; [lia |].
      intros Hn. exfalso. now apply Hn. }
  unfold bind at 1 in Hs1.
  match type of Hs1 with
  | context [try_except ?m ?h st1] =>
      pose proof (nearby_search_calls lat lon
                    (float_repr lat ++ "," ++ float_repr lon)%string
                    (Some (viewbox_of lat lon)) st1) as Hsearch;
      destruct (try_except m h st1) as [[[] | e] st2] eqn:Hblock
  end.
  - unfold bind, gets, ret in Hs1. destruct st2 as [c2 l2].
    unfold mu in Hprobes. simpl in Hprobes, Hsearch, Hs1.
    subst s1. unfold NominatimConfig.MAX_RETRIES in *.
    split; [lia |]. split; [lia |].
    intros Hn. exfalso. now apply Hn.
  - destruct st2 as [c2 l2].
    unfold mu in Hprobes. simpl in Hprobes, Hsearch, Hs1.
    subst s1. unfold NominatimConfig.MAX_RETRIES in *.
    split; [lia |]. split; [lia |].
    intros Hn. exfalso. now apply Hn.
Qed.

(* ================================================================= *)
(** * The further properties on sample inputs *)

(** ** The rationals as floats *)

Lemma rat_lt_strict_order : lt_strict_order (F:=Rat.t).
Proof.
  split.
  - intros [a | | |] [b | | |]; cbn -[Qcompare];
      try reflexivity; try discriminate.
    destruct (Qcompare a b) eqn:Hab; try discriminate.
    intros _. apply Qlt_alt in Hab.
    destruct (Qcompare b a) eqn:Hba; try reflexivity.
    apply Qlt_alt in Hba. exfalso. apply (Qlt_irrefl a).
    now apply Qlt_trans with b.
  - intros [a | | |] [b | | |] [c | | |]; cbn -[Qcompare];
      try reflexivity; try discriminate.
    destruct (Qcompare a b) eqn:Hab; try discriminate.
    destruct (Qcompare b c) eqn:Hbc; try discriminate.
    intros _ _. apply Qlt_alt in Hab, Hbc.
    pose proof (Qlt_trans _ _ _ Hab Hbc) as Hac.
    destruct (Qcompare a c) eqn:Hc; [| reflexivity |].
    + apply Qeq_alt in Hc. lra.
    + apply Qgt_alt in Hc. lra.
Qed.






(** ** The request executor *)

(** A 500 leaves the cache as it was. *)
Lemma request_failure_not_cached_witness :
  cache_entries (snd (_request "search" Demo.q_boulder Samples.failing))
  <= cache_entries Samples.failing.
Proof.
  apply (request_failure_not_cached Rat.t Rat.ops md5_HashOps "search"
           Demo.q_boulder Samples.failing
           (mkExc RuntimeError (API_ERROR 500 "Internal Server Error"))).
  vm_compute. reflexivity.
Defined.

(** A search on the empty cache leaves a bounded cache. *)
Lemma requests_keep_cache_bounded_witness :
  cache_entries (snd (search "Boulder" 5 None None false None
                        (Demo.start Demo.colorado)))
  <= NominatimConfig.CACHE_MAX_SIZE.
Proof.
  destruct (requests_keep_cache_bounded Rat.t Rat.ops md5_HashOps
              (Demo.start Demo.colorado)) as (_ & Hsearch & _).
  - split; [constructor | simpl; lia].
  - apply Hsearch.
Defined.


(** One 503 and then no connection: two GETs and a connection error. *)
Lemma request_transport_failure_witness :
  fst (_request "search" Demo.q_boulder Samples.flaky)
  = Raise (mkExc ConnectionError (NETWORK_ERROR "connection refused")) /\
  http_calls (world (snd (_request "search" Demo.q_boulder Samples.flaky)))
  = http_calls (world Samples.flaky) + 1 + 1.
Proof.
  destruct (request_transport_failure Rat.t Rat.ops md5_HashOps "search"
              Demo.q_boulder Samples.flaky
              (fun _ => mkResponse 503 "Service Unavailable" None) 1
              "connection refused")
    as (Hraise & Hcalls & _).
  - vm_compute. reflexivity.
  - vm_compute. lia.
  - intros j Hj. destruct j as [| j]; [reflexivity | lia].
  - intros j Hj. right. reflexivity.
  - left. reflexivity.
  - split; [exact Hraise | exact Hcalls].
Defined.

(** More than an hour later the request for Boulder is sent again. *)
Lemma request_refetches_expired_witness :
  http_calls (world Samples.stale)
  < http_calls (world (snd (_request "search" Demo.q_boulder Samples.stale))).
Proof.
  apply (request_refetches_expired Rat.t Rat.ops md5_HashOps "search"
           Demo.q_boulder Samples.stale
           (mkCacheEntry (BodyList [Demo.boulder]) (Rat.Fin 1700000000))).
  - vm_compute. reflexivity.
  - vm_compute. reflexivity.
Defined.

(** A service that finds nothing: an [IndexError] from the reverse
    lookup. *)
Lemma empty_list_answer_errors_witness :
  fst (reverse_geocode (Rat.Fin 40) (Rat.Fin (-105)) 18 None Samples.nothing_found)
  = Raise (mkExc IndexError IndexOutOfRange).
Proof.
  destruct (empty_list_answer_errors Rat.t Rat.ops md5_HashOps
              Samples.nothing_found "[...]") as (Hreverse & _).
  - reflexivity.
  - intros n url p. reflexivity.
  - apply Hreverse. vm_compute. reflexivity.
Defined.

(** The sample request with its parameters in the other order. *)
Lemma cache_key_order_insensitive_witness :
  _cache_key (F:=Rat.t) "search" [("q", PStr "Boulder"); ("limit", PInt 5)]
  = _cache_key (F:=Rat.t) "search" [("limit", PInt 5); ("q", PStr "Boulder")].
Proof.
  apply (cache_key_order_insensitive Rat.t Rat.ops md5_HashOps "search").
  - simpl. constructor.
    + simpl. intros [Heq | []]. discriminate.
    + constructor; [simpl; tauto | constructor].
  - apply perm_swap.
Defined.

(** ** The orchestrator *)

(** A result without coordinates between two good ones. *)
Lemma geocode_fails_on_first_bad_result_witness :
  geocode "anywhere" 5 None None Samples.half_broken
  = (Raise (mkExc KeyError (MissingKey "lat")),
     snd (search "anywhere" 5 None None false None Samples.half_broken)).
Proof.
  apply (geocode_fails_on_first_bad_result Rat.t Rat.ops (System Rat.t)
           NominatimClient_ClientOps "anywhere" 5%Z None None
           Samples.half_broken _ [Demo.boulder] Samples.nowhere [Demo.denver]
           [Samples.boulder_item]).
  - reflexivity.
  - vm_compute. reflexivity.
  - vm_compute. reflexivity.
  - reflexivity.
Defined.


(** The hierarchy of the sample address. *)
Lemma admin_boundaries_hierarchy_witness :
  exists boundaries,
    fst (admin_boundaries (Rat.Fin 40) (Rat.Fin (-105)) Samples.in_boulder)
    = Ok ("Boulder, Boulder County, Colorado, United States", boundaries) /\
    map AdminBoundaryItem.level boundaries = ["country"; "state"; "county"; "city"].
Proof.
  destruct (admin_boundaries_hierarchy Rat.t Rat.ops (System Rat.t)
              NominatimClient_ClientOps (Rat.Fin 40) (Rat.Fin (-105))
              Samples.in_boulder
              (snd (reverse (Rat.Fin 40) (Rat.Fin (-105)) ZoomLevel.BUILDING None
                      Samples.in_boulder))
              Demo.boulder)
    as (boundaries & Hrun & Hlevels & _).
  - vm_compute. reflexivity.
  - vm_compute. reflexivity.
  - exists boundaries. split; [now rewrite Hrun | exact Hlevels].
Defined.

(** Boulder, Atlantis, Denver: the route fails on Atlantis after two
    requests, and Denver is never looked up. *)
Lemma route_waypoints_stops_at_first_failure_witness :
  exists c2,
    route_waypoints ["Boulder"; "Atlantis"; "Denver"] (Demo.start Demo.colorado)
    = (Raise (mkExc ValueError (NO_RESULTS "Atlantis")), c2) /\
    http_calls (world c2) = 2.
Proof.
  pose (c1 := snd (resolve_waypoint "Boulder" (Demo.start Demo.colorado))).
  pose (c2 := snd (geocode "Atlantis" 1 None None c1)).
  exists c2. split.
  - apply (route_waypoints_stops_at_first_failure Rat.t Rat.ops (System Rat.t)
             NominatimClient_ClientOps ["Boulder"] "Atlantis" ["Denver"]
             (Demo.start Demo.colorado) c1 c2
             [waypoint_of Samples.boulder_item]).
    + simpl. lia.
    + econstructor; [| constructor]. vm_compute. reflexivity.
    + vm_compute. reflexivity.
  - vm_compute. reflexivity.
Defined.


(** Around Main Street, where two probes fail. *)
Lemma nearby_places_never_raises_witness :
  exists found c',
    nearby_places (Rat.Fin 40) (Rat.Fin (-105)) 10 None
      (Demo.start Demo.around_main_street) = (Ok found, c').
Proof.
  apply (nearby_places_never_raises Rat.t Rat.ops (System Rat.t)
           NominatimClient_ClientOps).
  vm_compute. reflexivity.
Defined.

Lemma nearby_places_result_shape_witness :
  exists found,
    fst (nearby_places (Rat.Fin 40) (Rat.Fin (-105)) 10 None
           (Demo.start Demo.around_main_street)) = Ok found /\
    NoDup (nearby_names found) /\
    (Z.of_nat (List.length found) <= 10)%Z.
Proof.
  assert (Hfound : exists found,
             fst (nearby_places (Rat.Fin 40) (Rat.Fin (-105)) 10 None
                    (Demo.start Demo.around_main_street)) = Ok found)
    by (vm_compute; eauto).
  destruct Hfound as [found Hfound]. exists found.
  destruct (nearby_places_result_shape Rat.t Rat.ops (System Rat.t)
              NominatimClient_ClientOps _ _ _ _ _ found Hfound)
    as (Hnd & _ & Hlen).
  split; [exact Hfound |]. split; [exact Hnd | apply Hlen; lia].
Defined.


(** ** Boxes and clocks *)

(** The box of Boulder lies within the union of the boxes of Boulder and
    Denver. *)
Lemma bbox_union_covers_witness :
  bbox_within Samples.boulder_box
              (bbox_union [Samples.boulder_box; Samples.denver_box]).
Proof.
  destruct (bbox_union_covers Rat.t Rat.ops
              [Samples.boulder_box; Samples.denver_box] rat_lt_strict_order)
    as (Hcover & _).
  apply Hcover. left. reflexivity.
Defined.


